(** * wilder.nvim, Python remote plugin: scheduler core

    Shallow embedding of [rplugin/python3/wilder/__init__.py]: the
    [Wilder] plugin object, admission of background work
    ([run_in_background]), the coalescing [consumer] loop, the operation
    handlers with their cancellation polls, and the synchronous
    [extract_captures] utility.

    Python values are modelled as follows.
    - [str] is [string]; in the capture utility, where character and byte
      offsets differ, it is a list of code points.
    - a [threading.Event] is an object identity ([Event], a [nat]); the
      flags of all events live in the runtime ([flagged]).
    - [with self.lock:] blocks are atomic state transformers.
    - [self.queue], a [multiprocessing.Queue], is the list of the entries
      put and not yet got; how many of them a cycle of the consumer can
      read is a parameter of the cycle ([consumer_cycle_upto]), since a
      [put] becomes readable only when the feeder thread of the queue has
      written it to the pipe.
    - a handler runs against an oracle for its polls and leaves a record
      of its puts and of the removal from [self.events] it asks for; the
      record is applied to the plugin by [commit], where the removal can
      fail, and [call_end] tells how the call ends.
    - an exception is a value of type [exn]; a function that may raise
      returns a sum. *)

From Stdlib Require Import ZArith String Ascii List Lia Bool.
From stdpp Require Import base tactics option list gmap strings sorting.
Import ListNotations.

Local Open Scope string_scope.
Local Open Scope list_scope.
Local Open Scope Z_scope.

(** ** Python values and exceptions *)

(** Values exchanged with the host over msgpack. *)
#[local] Unset Elimination Schemes.
Inductive pyval : Type :=
| PNone
| PInt (z : Z)
| PStr (s : string)
| PList (l : list pyval)
| PDict (d : list (string * pyval)).
#[local] Set Elimination Schemes.

Definition str_list (l : list string) : pyval := PList (map PStr l).

Inductive exn_class : Type :=
| FileNotFoundError
| OSError
| ValueError
| OverflowError
| AttributeError
| Exception.

(** [str(e)] is [exn_msg e]. *)
Record exn : Type := mkExn { exn_cls : exn_class; exn_msg : string }.

(** [isinstance(e, OSError)]: [FileNotFoundError] is a subclass. *)
Definition is_OSError (e : exn) : bool :=
  match exn_cls e with
  | FileNotFoundError | OSError => true
  | _ => false
  end.

Definition is_FileNotFoundError (e : exn) : bool :=
  match exn_cls e with
  | FileNotFoundError => true
  | _ => false
  end.

(** ** Data model *)

(** The request context [ctx]: a dict of which the plugin reads
    ['run_id'] and ['step'] and passes the rest through. *)
Record Ctx : Type := mkCtx {
  ctx_run_id : Z;
  ctx_step : Z;
  ctx_rest : list (string * pyval)
}.

Definition ctx_val (c : Ctx) : pyval :=
  PDict (("run_id", PInt (ctx_run_id c)) :: ("step", PInt (ctx_step c)) :: ctx_rest c).

(** The [opts] dict of a search request. *)
Record SearchOpts : Type := mkSearchOpts {
  opt_engine : option string;
  opt_max_candidates : option Z
}.

Definition opts_val (o : SearchOpts) : pyval :=
  PDict (match opt_engine o with Some e => [("engine", PStr e)] | None => [] end
         ++ match opt_max_candidates o with
            | Some n => [("max_candidates", PInt n)]
            | None => []
            end).

(** Identity of a [threading.Event] object. *)
Definition Event : Type := nat.

(** A tuple put on [self.queue]: [(ctx, res)] or [(ctx, res, command)]. *)
Record QueueEntry : Type := mkEntry {
  qe_ctx : Ctx;
  qe_res : pyval;
  qe_command : option string
}.

(** [(ctx, x,)] *)
Definition entry2 (c : Ctx) (x : pyval) : QueueEntry := mkEntry c x None.
(** [(ctx, x, 'reject',)] *)
Definition entry3 (c : Ctx) (x : pyval) (cmd : string) : QueueEntry :=
  mkEntry c x (Some cmd).

(** The positional arguments of each remote function, [args]; the
    constructor is the handler the function hands to
    [run_in_background]. [args[0]] is always the context. *)
Inductive Request : Type :=
| ReqSleep (ctx : Ctx) (t : Z) (x : pyval)
| ReqSearch (ctx : Ctx) (opts : SearchOpts) (x : string) (buf : list string)
| ReqUniq (ctx : Ctx) (candidates : list string)
| ReqSort (ctx : Ctx) (candidates : list string)
| ReqFileCompletion (ctx : Ctx) (working_directory expand_arg expand_type : string)
    (has_wildcard : bool) (path_prefix : string)
    (directories : list string) (wildignore_opt : string)
| ReqUsers (ctx : Ctx) (expand_arg expand_type : string)
| ReqFilter (ctx : Ctx) (pattern : string) (candidates : list string)
    (engine : string) (has_file_args : bool)
| ReqFuzzywuzzy (ctx : Ctx) (candidates : list string) (query : string)
    (partial : option bool).

(** [ctx = args[0]] *)
Definition req_ctx (r : Request) : Ctx :=
  match r with
  | ReqSleep c _ _ | ReqSearch c _ _ _ | ReqUniq c _ | ReqSort c _
  | ReqFileCompletion c _ _ _ _ _ _ _ | ReqUsers c _ _
  | ReqFilter c _ _ _ _ | ReqFuzzywuzzy c _ _ _ => c
  end.

(** [functools.partial(fn, *([event] + args))] *)
Record Task : Type := mkTask { task_event : Event; task_req : Request }.

(** [concurrent.futures.ThreadPoolExecutor]: its size and the closures
    submitted to it, oldest first. *)
Record ThreadPoolExecutor : Type := mkExecutor {
  max_workers : Z;
  submitted : list Task
}.

Definition submit (ex : ThreadPoolExecutor) (t : Task) : ThreadPoolExecutor :=
  mkExecutor (max_workers ex) (submitted ex ++ [t]).

(** The attributes of the plugin object set in [Wilder.__init__]. *)
Record Wilder : Type := mkWilder {
  has_init : bool;
  queue : list QueueEntry;
  events : list Event;
  executor : option ThreadPoolExecutor;
  run_id : Z
}.

(** [self.nvim.call('wilder#pipeline#' + command, ctx, x)] *)
Record HostCall : Type := mkCall {
  call_function : string;
  call_ctx : pyval;
  call_x : pyval
}.

(** The plugin object together with the interpreter state it acts on:
    the [threading.Event] objects constructed so far (identities
    [0 .. created - 1]), the events whose flag is set, the calls made to
    the host, and the consumer threads started. *)
Record Runtime : Type := mkRuntime {
  self : Wilder;
  created : nat;
  flagged : gset Event;
  host_calls : list HostCall;
  consumer_threads : nat
}.

(** [Wilder.__init__] *)
Definition Wilder_new : Wilder :=
  {| has_init := false; queue := []; events := []; executor := None; run_id := -1 |}.

Definition boot : Runtime :=
  {| self := Wilder_new; created := 0; flagged := ∅; host_calls := [];
     consumer_threads := 0 |}.

Definition with_self (w : Runtime) (s : Wilder) : Runtime :=
  mkRuntime s (created w) (flagged w) (host_calls w) (consumer_threads w).

(** [threading.Event()]: a fresh object, flag clear. *)
Definition Event_new (w : Runtime) : Event * Runtime :=
  (created w,
   mkRuntime (self w) (S (created w)) (flagged w) (host_calls w) (consumer_threads w)).

(** [event.is_set()] *)
Definition is_set (w : Runtime) (e : Event) : bool := bool_decide (e ∈ flagged w).

(** ** [handle] *)

Definition handle (w : Runtime) (ctx : pyval) (x : pyval) (command : string) : Runtime :=
  mkRuntime (self w) (created w) (flagged w)
    (host_calls w ++ [mkCall ("wilder#pipeline#" +:+ command) ctx x])
    (consumer_threads w).

(** ** [run_in_background] *)

(** The loop [while len(self.events) > 0: e = self.events.pop(0); e.set()],
    as a function of the list and the set of flagged events. *)
Fixpoint cancel_pending (evs : list Event) (fl : gset Event) : list Event * gset Event :=
  match evs with
  | [] => ([], fl)
  | e :: evs' => cancel_pending evs' ({[e]} ∪ fl)
  end.

(** The block under [self.lock]; [None] is the early [return]. *)
Definition admit_locked (w : Runtime) (ctx : Ctx) (event : Event) : option Runtime :=
  let s := self w in
  if ctx_run_id ctx <? run_id s then None
  else
    let '(evs, fl) := cancel_pending (events s) (flagged w) in
    Some (mkRuntime
            (mkWilder (has_init s) (queue s) (evs ++ [event]) (executor s) (ctx_run_id ctx))
            (created w) fl (host_calls w) (consumer_threads w)).

(** [run_in_background(fn, args)]; [fn] and [args] are the request. The
    second component is the exception raised, if any:
    [self.executor.submit] on [None] when [init] has not run. *)
Definition run_in_background (w : Runtime) (r : Request) : Runtime * option exn :=
  let '(event, w1) := Event_new w in
  let ctx := req_ctx r in
  match admit_locked w1 ctx event with
  | None => (w1, None)
  | Some w2 =>
      let s := self w2 in
      match executor s with
      | None => (w2, Some (mkExn AttributeError "'NoneType' object has no attribute 'submit'"))
      | Some ex =>
          (with_self w2
             (mkWilder (has_init s) (queue s) (events s)
                (Some (submit ex (mkTask event r))) (run_id s)),
           None)
      end
  end.

(** ** [init] *)

(** [ThreadPoolExecutor(max_workers=n)] raises for [n <= 0]. *)
Definition ThreadPoolExecutor_new (n : Z) : exn + ThreadPoolExecutor :=
  if n <=? 0 then inl (mkExn ValueError "max_workers must be greater than 0")
  else inr (mkExecutor n []).

(** [init(args)] with [opts = args[0]] and [num_workers = opts['num_workers']]. *)
Definition init (w : Runtime) (num_workers : Z) : Runtime * option exn :=
  let s := self w in
  if has_init s then (w, None)
  else
    let s1 := mkWilder true (queue s) (events s) (executor s) (run_id s) in
    match ThreadPoolExecutor_new num_workers with
    | inl e => (with_self w s1, Some e)
    | inr ex =>
        let s2 := mkWilder true (queue s) (events s) (Some ex) (run_id s) in
        (mkRuntime s2 (created w) (flagged w) (host_calls w) (S (consumer_threads w)),
         None)
    end.

(** ** [consumer] *)

(** The comparison of the drain loop: [new_ctx] is strictly newer than [ctx]. *)
Definition newer (new_ctx ctx : Ctx) : bool :=
  (ctx_run_id new_ctx >? ctx_run_id ctx)
  || ((ctx_run_id new_ctx =? ctx_run_id ctx) && (ctx_step new_ctx >? ctx_step ctx)).

(** The inner loop [while not self.queue.empty()]: [args] is the current
    best, [q] the entries still in the queue. *)
Fixpoint drain (args : QueueEntry) (q : list QueueEntry) : QueueEntry :=
  match q with
  | [] => args
  | new_args :: q' =>
      if newer (qe_ctx new_args) (qe_ctx args) then drain new_args q'
      else drain args q'
  end.

(** The call scheduled by [self.nvim.async_call(self.handle, ctx, res, ...)];
    [command] defaults to ['resolve']. *)
Definition deliver (w : Runtime) (args : QueueEntry) : Runtime :=
  match qe_command args with
  | Some command => handle w (ctx_val (qe_ctx args)) (qe_res args) command
  | None => handle w (ctx_val (qe_ctx args)) (qe_res args) "resolve"
  end.

Definition with_queue (w : Runtime) (q : list QueueEntry) : Runtime :=
  let s := self w in
  with_self w (mkWilder (has_init s) q (events s) (executor s) (run_id s)).

(** One iteration of the outer [while True] loop. [self.queue] is a
    [multiprocessing.Queue]: [put] appends to a buffer, from which a
    feeder thread of the queue writes the entries, in order, to a pipe;
    [get], [get_nowait] and [empty] read the pipe. The field [queue] holds
    the entries put and not yet got. The blocking [get] returns its head
    once that has come through; [n] is the number of further entries that
    come through in time for the inner loop, the number of times [empty()]
    answers [False]. The entries after those stay in the queue. [None]:
    the queue is empty and [self.queue.get()] blocks. *)
Definition consumer_cycle_upto (n : nat) (w : Runtime) : option Runtime :=
  match queue (self w) with
  | [] => None
  | args :: q => Some (deliver (with_queue w (drop n q)) (drain args (take n q)))
  end.

(** A cycle in which every entry of the queue has come through. *)
Definition consumer_cycle (w : Runtime) : option Runtime :=
  consumer_cycle_upto (length (queue (self w))) w.

(** ** Library functions on [str] and [list] *)

Definition startswith (s p : string) : bool := String.prefix p s.

Fixpoint endswith_char (s : string) (c : ascii) : bool :=
  match s with
  | "" => false
  | String a "" => Ascii.eqb a c
  | String _ s' => endswith_char s' c
  end.

(** [f[:-1]] *)
Fixpoint drop_last (s : string) : string :=
  match s with
  | "" => ""
  | String _ "" => ""
  | String a s' => String a (drop_last s')
  end.

(** [s.split(sep)] for a one-character separator; [''.split(sep) == ['']]. *)
Fixpoint split (sep : ascii) (s : string) : list string :=
  match s with
  | "" => [""]
  | String c s' =>
      if Ascii.eqb c sep then "" :: split sep s'
      else match split sep s' with
           | [] => [String c ""]
           | w :: ws => String c w :: ws
           end
  end.

(** [sorted(l)] and [sorted(l, key=...)]: a stable sort by the order [le]. *)
Fixpoint insert_by {A : Type} (le : A -> A -> bool) (x : A) (l : list A) : list A :=
  match l with
  | [] => [x]
  | y :: l' => if le x y then x :: y :: l' else y :: insert_by le x l'
  end.

Definition sorted_by {A : Type} (le : A -> A -> bool) (l : list A) : list A :=
  foldr (insert_by le) [] l.

Definition sorted (l : list string) : list string := sorted_by String.leb l.

Definition sorted_key {A : Type} (key : A -> Z) (l : list A) : list A :=
  sorted_by (fun a b => key a <=? key b) l.

(** [res.insert(0, x)] *)
Definition insert0 {A : Type} (x : A) (l : list A) : list A := x :: l.

(** [[x for x in candidates if not (x in seen or seen.add(x))]] *)
Fixpoint uniq_from (seen : gset string) (candidates : list string) : list string :=
  match candidates with
  | [] => []
  | x :: l =>
      if bool_decide (x ∈ seen) then uniq_from seen l
      else x :: uniq_from ({[x]} ∪ seen) l
  end.

(** *** [os.path] (POSIX) *)

Definition sep : string := "/".

(** [(p[:i], p[i:])] with [i = p.rfind('/') + 1] *)
Fixpoint rsplit_sep (p : string) : string * string :=
  match p with
  | "" => ("", "")
  | String c p' =>
      let '(h, t) := rsplit_sep p' in
      match h with
      | String _ _ => (String c h, t)
      | "" => if Ascii.eqb c "/" then ("/", p') else ("", String c t)
      end
  end.

Fixpoint all_sep (s : string) : bool :=
  match s with
  | "" => true
  | String c s' => Ascii.eqb c "/" && all_sep s'
  end.

(** [s.rstrip('/')] *)
Fixpoint rstrip_sep (s : string) : string :=
  match s with
  | "" => ""
  | String c s' =>
      match rstrip_sep s' with
      | "" => if Ascii.eqb c "/" then "" else String c ""
      | r => String c r
      end
  end.

Definition os_path_split (p : string) : string * string :=
  let '(head, tail) := rsplit_sep p in
  let head := if negb (String.eqb head "") && negb (all_sep head)
              then rstrip_sep head else head in
  (head, tail).

Definition os_path_basename (p : string) : string := snd (rsplit_sep p).

Definition os_path_dirname (p : string) : string := fst (os_path_split p).

Definition os_path_join (a b : string) : string :=
  if startswith b "/" then b
  else if String.eqb a "" || endswith_char a "/" then a +:+ b
  else a +:+ sep +:+ b.

(** *** Code points and UTF-8 *)

(** A [str] as its sequence of code points, where character offsets and
    byte offsets must be told apart. *)
Definition ustr : Type := list N.

Definition ustr_of (s : string) : ustr := map N_of_ascii (list_ascii_of_string s).

(** The UTF-8 encoding of one code point; a surrogate cannot be encoded. *)
Definition utf8_encode_cp (cp : N) : exn + list N :=
  (if cp <? 0x80 then inr [cp]
   else if cp <? 0x800 then
     inr [N.lor 0xC0 (N.shiftr cp 6); N.lor 0x80 (N.land cp 0x3F)]
   else if cp <? 0x10000 then
     if (0xD800 <=? cp) && (cp <=? 0xDFFF)
     then inl (mkExn ValueError
                 "'utf-8' codec can't encode character: surrogates not allowed")
     else inr [N.lor 0xE0 (N.shiftr cp 12);
               N.lor 0x80 (N.land (N.shiftr cp 6) 0x3F);
               N.lor 0x80 (N.land cp 0x3F)]
   else
     inr [N.lor 0xF0 (N.shiftr cp 18);
          N.lor 0x80 (N.land (N.shiftr cp 12) 0x3F);
          N.lor 0x80 (N.land (N.shiftr cp 6) 0x3F);
          N.lor 0x80 (N.land cp 0x3F)])%N.

(** [s.encode('utf-8')] *)
Fixpoint encode_utf8 (s : ustr) : exn + list N :=
  match s with
  | [] => inr []
  | cp :: s' =>
      match utf8_encode_cp cp with
      | inl e => inl e
      | inr bs => match encode_utf8 s' with
                  | inl e => inl e
                  | inr bs' => inr (bs ++ bs')
                  end
      end
  end.

(** A match object: [lastindex], and [start(i)], [end(i)], which are [-1]
    for a group that took no part in the match. *)
Record Match : Type := mkMatch {
  lastindex : option nat;
  m_start : nat -> Z;
  m_end : nat -> Z
}.

(** ** The environment of the plugin

    The libraries, the operating system and the editor state the handlers
    call into. *)

(** A compiled pattern: the matched texts [match.group()] of
    [pattern.finditer(line)], and the truth value of [pattern.search(x)]. *)
Record Pattern : Type := mkPattern {
  finditer : string -> list string;
  search_ : string -> bool
}.

(** A module with a [compile] function, as [re] or [regex]. *)
Record ReModule : Type := mkReModule {
  re_compile : string -> exn + Pattern
}.

(** [fuzzywuzzy.fuzz] *)
Record FuzzModule : Type := mkFuzzModule {
  partial_ratio : string -> string -> Z;
  ratio : string -> string -> Z
}.

(** An [os.DirEntry] of [os.scandir], or a [pathlib.Path] of the wildcard
    branch: its [name], its [str()], and [is_dir()], [is_file()], which may
    raise [OSError]. *)
Record DirEntry : Type := mkDirEntry {
  name : string;
  entry_str : string;
  is_dir : exn + bool;
  is_file : exn + bool
}.

Record Env : Type := mkEnv {
  (** [importlib.import_module(name)] for a pattern engine *)
  import_module : string -> exn + ReModule;
  (** [importlib.import_module(name).match(pattern, string)] *)
  module_match : string -> ustr -> ustr -> exn + option Match;
  (** [importlib.import_module('fuzzywuzzy.fuzz')] *)
  import_fuzzywuzzy : exn + FuzzModule;
  (** the [pw_name]s of [pwd.getpwall()] *)
  getpwall : exn + list string;
  (** [fnmatch.fnmatch(name, pattern)] *)
  fnmatch : string -> string -> bool;
  (** [os.scandir(path)] *)
  scandir : string -> exn + list DirEntry;
  (** [os.path.expandvars] *)
  expandvars : string -> string;
  (** the paths of [glob.iglob(wildcard, recursive=True)] *)
  iglob : string -> list string;
  (** [Path(p)], made relative to [directory] by [relative_to] where that
      does not raise [ValueError] *)
  Path_relative : string -> string -> DirEntry;
  (** [Path(entry) == Path(path_prefix)] *)
  Path_eq : DirEntry -> string -> bool;
  (** [os.access(path, os.X_OK)] *)
  access_X_OK : string -> bool;
  (** [os.environ['PATH']] *)
  environ_PATH : exn + string;
  (** [nvim.options.get('wildignore')], [nvim.options.get('path')] *)
  option_wildignore : string;
  option_path : string;
  (** [nvim.current.window.cursor[0]] (at least 1) and
      [nvim.current.buffer] *)
  cursor_row : nat;
  current_buffer : list string;
  (** the sleep of the operating system, for a length of seconds that
      [time.sleep] has accepted: it fails with [OSError] when the system
      cannot represent the deadline *)
  nanosleep : Z -> exn + unit
}.

(** The greatest number of seconds that fits the interpreter's clock
    type, a signed 64-bit count of nanoseconds. *)
Definition PyTime_MAX_seconds : Z := (2 ^ 63 - 1) / 10 ^ 9.

(** [time.sleep(t)] for an integer [t] (CPython 3.11). The length is first
    converted to nanoseconds, which raises [OverflowError] outside the
    clock type; a negative length then raises [ValueError]; what is left
    is up to the operating system. The delay itself is not modelled. *)
Definition time_sleep (env : Env) (t : Z) : exn + unit :=
  if (t <? - PyTime_MAX_seconds) || (PyTime_MAX_seconds <? t)
  then inl (mkExn OverflowError "timestamp too large to convert to C _PyTime_t")
  else if t <? 0 then inl (mkExn ValueError "sleep length must be non-negative")
  else nanosleep env t.

(** ** The handler monad

    A handler runs on a worker thread. Its effects are the polls of its
    event ([event.is_set()]), the tuples it puts on the queue and, for the
    search handler, the removal of its event from [self.events]. The
    answer of the [n]-th poll is given by an oracle, so that a run can be
    cancelled at any poll. *)

Record hstate : Type := mkHstate {
  polls : nat;
  emitted : list QueueEntry;
  removals : list Event
}.

Definition hstate0 : hstate := mkHstate 0 [] [].

(** How a block ends: normally with a value, by [return], by [continue],
    or by an exception. *)
Inductive hres (A : Type) : Type :=
| Val (a : A)
| Return_
| Continue
| Raise (e : exn).
Arguments Val {A} a.
Arguments Return_ {A}.
Arguments Continue {A}.
Arguments Raise {A} e.

Definition H (A : Type) : Type := (nat -> bool) -> hstate -> hres A * hstate.

Definition ret {A : Type} (a : A) : H A := fun _ s => (Val a, s).

Definition bind {A B : Type} (m : H A) (f : A -> H B) : H B :=
  fun o s =>
    match m o s with
    | (Val a, s') => f a o s'
    | (Return_, s') => (Return_, s')
    | (Continue, s') => (Continue, s')
    | (Raise e, s') => (Raise e, s')
    end.

Declare Scope H_scope.
Delimit Scope H_scope with H.
Notation "x <- m ;; k" := (bind m (fun x => k))
  (at level 100, m at next level, right associativity) : H_scope.
Notation "m ;;; k" := (bind m (fun _ => k))
  (at level 100, right associativity) : H_scope.
Local Open Scope H_scope.

Definition return_ {A : Type} : H A := fun _ s => (Return_, s).
Definition continue {A : Type} : H A := fun _ s => (Continue, s).
Definition raise {A : Type} (e : exn) : H A := fun _ s => (Raise e, s).

Definition lift {A : Type} (r : exn + A) : H A :=
  match r with
  | inl e => raise e
  | inr a => ret a
  end.

(** [event.is_set()] *)
Definition event_is_set : H bool :=
  fun o s => (Val (o (polls s)), mkHstate (S (polls s)) (emitted s) (removals s)).

(** [self.queue.put(entry)] *)
Definition queue_put (entry : QueueEntry) : H unit :=
  fun _ s => (Val tt, mkHstate (polls s) (emitted s ++ [entry]) (removals s)).

(** [with self.lock: self.events.remove(event)]. The run records the
    removal it asks for. Whether [event] is still in [self.events] then
    depends on the admissions made meanwhile, which the run does not see:
    the removal is carried out, or fails, against the pending set when
    the run is put back into the plugin ([commit], [call_end]). In the
    source the one removal is the last statement its handler executes
    (the [finally] clause of [search_handler]), so nothing of the handler
    would run after a removal that fails. *)
Definition events_remove (event : Event) : H unit :=
  fun _ s => (Val tt, mkHstate (polls s) (emitted s) (removals s ++ [event])).

(** [try: body  except C as e: handler], where [catches] tells the
    instances of [C]. *)
Definition try_except {A : Type} (body : H A) (catches : exn -> bool)
    (handler : exn -> H A) : H A :=
  fun o s =>
    match body o s with
    | (Raise e, s') => if catches e then handler e o s' else (Raise e, s')
    | r => r
    end.

Definition any_Exception (e : exn) : bool := true.

(** [try: body  finally: fin] *)
Definition try_finally {A : Type} (body : H A) (fin : H unit) : H A :=
  fun o s =>
    let '(r, s') := body o s in
    match fin o s' with
    | (Val _, s'') => (r, s'')
    | (Return_, s'') => (Return_, s'')
    | (Continue, s'') => (Continue, s'')
    | (Raise e, s'') => (Raise e, s'')
    end.

(** [for a in l: body], with the loop's variables as accumulator; a
    [continue] keeps the accumulator of the iteration's start. *)
Fixpoint for_fold {A S : Type} (l : list A) (acc : S) (body : A -> S -> H S) : H S :=
  match l with
  | [] => ret acc
  | a :: l' =>
      fun o s =>
        match body a acc o s with
        | (Val acc', s') => for_fold l' acc' body o s'
        | (Continue, s') => for_fold l' acc body o s'
        | (Return_, s') => (Return_, s')
        | (Raise e, s') => (Raise e, s')
        end
  end.

(** ** The operation handlers *)

Definition reject (ctx : Ctx) (prefix : string) (e : exn) : QueueEntry :=
  entry3 ctx (PStr (prefix +:+ exn_msg e)) "reject".

Definition sleep_handler (env : Env) (ctx : Ctx) (t : Z) (x : pyval) : H unit :=
  b <- event_is_set;;
  if b then return_ else
  lift (time_sleep env t);;;
  queue_put (entry2 ctx x).

Definition search_handler (env : Env) (event : Event) (ctx : Ctx) (opts : SearchOpts)
    (x : string) (buf : list string) : H unit :=
  b <- event_is_set;;
  if b then return_ else
  try_finally
    (try_except
       (let module_name := match opt_engine opts with Some e => e | None => "re" end in
        let max_candidates :=
          match opt_max_candidates opts with Some n => n | None => 300 end in
        re <- lift (import_module env module_name);;
        pattern <- lift (re_compile re x);;
        acc <- for_fold buf (∅ : gset string, [] : list string)
                 (fun line acc =>
                    b <- event_is_set;;
                    if b then return_ else
                    for_fold (finditer pattern line) acc
                      (fun candidate '(seen, candidates) =>
                         b <- event_is_set;;
                         if b then return_ else
                         if negb (bool_decide (candidate ∈ seen)) then
                           let seen := {[candidate]} ∪ seen in
                           let candidates := candidates ++ [candidate] in
                           if (max_candidates >? 0)
                              && (Z.of_nat (length candidates) >=? max_candidates)
                           then queue_put (entry2 ctx (str_list candidates));;; return_
                           else ret (seen, candidates)
                         else ret (seen, candidates)));;
        queue_put (entry2 ctx (str_list (snd acc))))
       any_Exception
       (fun e => queue_put (reject ctx "python_search: " e)))
    (events_remove event).

Definition uniq_handler (ctx : Ctx) (candidates : list string) : H unit :=
  b <- event_is_set;;
  if b then return_ else
  let seen : gset string := ∅ in
  try_except
    (let res := uniq_from seen candidates in
     queue_put (entry2 ctx (str_list res)))
    any_Exception
    (fun e => queue_put (reject ctx "python_uniq: " e)).

Definition sort_handler (ctx : Ctx) (candidates : list string) : H unit :=
  b <- event_is_set;;
  if b then return_ else
  try_except
    (let res := sorted candidates in
     queue_put (entry2 ctx (str_list res)))
    any_Exception
    (fun e => queue_put (reject ctx "python_sort: " e)).

(** The body of the loop [for entry in it] of the file completion, with
    [res] as accumulator. *)
Definition completion_entry (env : Env) (expand_type : string) (has_wildcard : bool)
    (path_prefix directory : string) (wildignore_list : list string)
    (show_hidden : bool) (pattern : string) (entry : DirEntry) (res : list string)
    : H (list string) :=
  b <- event_is_set;;
  if b then return_ else
  try_except
    (if startswith (name entry) "." && negb show_hidden then continue else
     not_dir <- (if String.eqb expand_type "dir"
                 then d <- lift (is_dir entry);; ret (negb d)
                 else ret false);;
     if not_dir then continue else
     let ignore := existsb (fnmatch env (name entry)) wildignore_list in
     if ignore then continue else
     if negb has_wildcard && negb (String.eqb pattern "")
        && negb (fnmatch env (name entry) pattern) then continue else
     not_cmd <- (if String.eqb expand_type "shellcmd"
                 then f <- lift (is_file entry);;
                      ret (negb f
                           || negb (access_X_OK env (os_path_join directory (name entry))))
                 else ret false);;
     if not_cmd then continue else
     if has_wildcard && Path_eq env entry path_prefix then continue else
     d <- lift (is_dir entry);;
     if d then
       ret (res ++ [(if has_wildcard then entry_str entry else name entry) +:+ sep])
     else
       ret (res ++ [if has_wildcard then entry_str entry else name entry]))
    is_OSError
    (fun _ => ret res).

(** The body of the loop [for directory in directories]. *)
Definition completion_directory (env : Env) (expand_arg expand_type : string)
    (has_wildcard : bool) (path_prefix : string) (wildignore_list : list string)
    (directory : string) (res : list string) : H (list string) :=
  b <- event_is_set;;
  if b then return_ else
  if String.eqb directory "" then continue else
  sel <- (if has_wildcard then
            let tail := os_path_basename expand_arg in
            let show_hidden := startswith tail "." in
            let pattern := "" in
            let wildcard := os_path_join directory expand_arg in
            let wildcard := expandvars env wildcard in
            (* the [Path] of each glob result is taken here rather than at
               the head of the loop body *)
            let it := map (Path_relative env directory) (iglob env wildcard) in
            ret (show_hidden, pattern, it)
          else
            let path := os_path_join directory expand_arg in
            let '(head, tail) := os_path_split path in
            let show_hidden := startswith tail "." in
            let pattern := tail +:+ "*" in
            try_except
              (it <- lift (scandir env head);;
               ret (show_hidden, pattern, it))
              is_FileNotFoundError
              (fun _ => continue));;
  let '(show_hidden, pattern, it) := sel in
  for_fold it res
    (completion_entry env expand_type has_wildcard path_prefix directory wildignore_list
       show_hidden pattern).

(** The lines after the loops: sort, put the directory of [expand_arg]
    back in front, and add the navigation entries. *)
Definition completion_result (expand_arg : string) (has_wildcard : bool)
    (res : list string) : list string :=
  let res := sorted res in
  let head := os_path_dirname expand_arg in
  let res := if negb has_wildcard
             then map (fun f => if negb (String.eqb head "")
                                then os_path_join head f else f) res
             else res in
  if String.eqb expand_arg "." then insert0 "./" (insert0 "../" res)
  else if String.eqb expand_arg ".." then insert0 "../" res
  else res.

Definition get_file_completion_handler (env : Env) (ctx : Ctx)
    (working_directory expand_arg expand_type : string) (has_wildcard : bool)
    (path_prefix : string) (directories : list string) (wildignore_opt : string)
    : H unit :=
  b <- event_is_set;;
  if b then return_ else
  try_except
    (let wildignore_list := split "," wildignore_opt in
     res <- for_fold directories ([] : list string)
              (completion_directory env expand_arg expand_type has_wildcard path_prefix
                 wildignore_list);;
     let res := completion_result expand_arg has_wildcard res in
     queue_put (entry2 ctx (str_list res)))
    any_Exception
    (fun e => queue_put (reject ctx "python_get_file_completion: " e)).

Definition get_basename (f : string) : string :=
  if endswith_char f "/" || endswith_char f "/" then os_path_basename (drop_last f)
  else os_path_basename f.

Definition get_users_handler (env : Env) (ctx : Ctx) (expand_arg expand_type : string)
    : H unit :=
  b <- event_is_set;;
  if b then return_ else
  try_except
    (users <- lift (getpwall env);;
     let res := List.filter (fun pw_name => startswith pw_name expand_arg) users in
     let res := sorted res in
     queue_put (entry2 ctx (str_list res)))
    any_Exception
    (fun e => queue_put (reject ctx "python_get_users: " e)).

Definition filter_handler (env : Env) (ctx : Ctx) (pattern : string)
    (candidates : list string) (engine : string) (has_file_args : bool) : H unit :=
  b <- event_is_set;;
  if b then return_ else
  try_except
    (re <- lift (import_module env engine);;
     pattern <- lift (re_compile re pattern);;
     let res :=
       List.filter
         (fun x => search_ pattern (if negb has_file_args then x else get_basename x))
         candidates in
     queue_put (entry2 ctx (str_list res)))
    any_Exception
    (fun e => queue_put (reject ctx "python_filter: " e)).

Definition fuzzywuzzy_handler (env : Env) (ctx : Ctx) (candidates : list string)
    (query : string) (partial : option bool) : H unit :=
  let partial := match partial with Some p => p | None => true end in
  b <- event_is_set;;
  if b then return_ else
  try_except
    (fuzzy <- lift (import_fuzzywuzzy env);;
     let res :=
       if partial
       then sorted_key (fun x => - partial_ratio fuzzy x query) candidates
       else sorted_key (fun x => - ratio fuzzy x query) candidates in
     queue_put (entry2 ctx (str_list res)))
    any_Exception
    (fun e => queue_put (reject ctx "python_filter: " e)).

(** The call [fn(event, *args)] made by a worker for a submitted closure. *)
Definition run_handler (env : Env) (t : Task) : H unit :=
  let event := task_event t in
  match task_req t with
  | ReqSleep ctx t x => sleep_handler env ctx t x
  | ReqSearch ctx opts x buf => search_handler env event ctx opts x buf
  | ReqUniq ctx candidates => uniq_handler ctx candidates
  | ReqSort ctx candidates => sort_handler ctx candidates
  | ReqFileCompletion ctx wd expand_arg expand_type has_wildcard path_prefix dirs wi =>
      get_file_completion_handler env ctx wd expand_arg expand_type has_wildcard
        path_prefix dirs wi
  | ReqUsers ctx expand_arg expand_type => get_users_handler env ctx expand_arg expand_type
  | ReqFilter ctx pattern candidates engine has_file_args =>
      filter_handler env ctx pattern candidates engine has_file_args
  | ReqFuzzywuzzy ctx candidates query partial =>
      fuzzywuzzy_handler env ctx candidates query partial
  end.

(** The run of a closure under a poll oracle, from a fresh handler state:
    the way the block of the handler ends, with the polls made, the tuples
    put and the removals asked for. *)
Definition handler_run (env : Env) (oracle : nat -> bool) (t : Task) : hres unit * hstate :=
  run_handler env t oracle hstate0.

(** *** A worker running a closure against the plugin state *)

(** [l.remove(x)]: the first occurrence; [None] when [x] is not in [l]
    ([ValueError]). *)
Fixpoint list_remove (x : Event) (l : list Event) : option (list Event) :=
  match l with
  | [] => None
  | y :: l' => if Nat.eqb x y then Some l'
               else match list_remove x l' with
                    | Some r => Some (y :: r)
                    | None => None
                    end
  end.

Fixpoint apply_removals (rs : list Event) (evs : list Event) : list Event * option exn :=
  match rs with
  | [] => (evs, None)
  | e :: rs' =>
      match list_remove e evs with
      | Some evs' => apply_removals rs' evs'
      | None => (evs, Some (mkExn ValueError "list.remove(x): x not in list"))
      end
  end.

(** The effects of a finished run on the plugin: its tuples join the
    queue, its removals act on [self.events]. The exception, if any, is
    the one that leaves the handler. *)
Definition commit (w : Runtime) (r : hres unit * hstate) : Runtime * option exn :=
  let s := self w in
  let '(evs, rm_exn) := apply_removals (removals (snd r)) (events s) in
  (with_self w (mkWilder (has_init s) (queue s ++ emitted (snd r)) evs (executor s) (run_id s)),
   match rm_exn with
   | Some e => Some e
   | None => match fst r with
             | Raise e => Some e
             | _ => None
             end
   end).

(** How the call [fn(event, *args)] ends for a worker, where [evs] is the
    pending set when the handler's removals are made: with the exception
    of the removal that fails, and otherwise the way the block of the
    handler ends. What ends as [Raise] here is what [commit] reports. *)
Definition call_end (evs : list Event) (r : hres unit * hstate) : hres unit :=
  match snd (apply_removals (removals (snd r)) evs) with
  | Some e => Raise e
  | None => fst r
  end.

(** A worker runs closure [t] to its end with no admission in between:
    every poll reads the flag of the closure's event in [w]. *)
Definition run_task (env : Env) (w : Runtime) (t : Task) : Runtime * option exn :=
  commit w (handler_run env (fun _ => is_set w (task_event t)) t).

(** ** The remote functions *)

Definition sleep (w : Runtime) (ctx : Ctx) (t : Z) (x : pyval) : Runtime * option exn :=
  run_in_background w (ReqSleep ctx t x).

(** [search(args)] with [args = [ctx, opts, x]]: the handler is called as
    [search_handler(event, ctx, opts, x, buf)]. *)
Definition search (env : Env) (w : Runtime) (ctx : Ctx) (opts : SearchOpts) (x : string)
    : Runtime * option exn :=
  let args0 := ctx in
  let args1 := opts in
  let args2 := x in
  if String.eqb args2 "" then (handle w (opts_val args1) (PList []) "resolve", None)
  else
    let line_num := (cursor_row env - 1)%nat in
    let current_buf := current_buffer env in
    let buf := drop line_num current_buf ++ take line_num current_buf in
    run_in_background w (ReqSearch args0 args1 args2 buf).

Definition uniq (w : Runtime) (ctx : Ctx) (candidates : list string) : Runtime * option exn :=
  run_in_background w (ReqUniq ctx candidates).

Definition sort (w : Runtime) (ctx : Ctx) (candidates : list string) : Runtime * option exn :=
  run_in_background w (ReqSort ctx candidates).

Definition get_file_completion (env : Env) (w : Runtime) (ctx : Ctx)
    (working_directory expand_arg expand_type : string) (has_wildcard : bool)
    (path_prefix : string) : Runtime * option exn :=
  let wildignore := option_wildignore env in
  let dirs : exn + list string :=
    if String.eqb expand_type "file_in_path" then
      let path_opt := option_path env in
      inr (split "," path_opt)
    else if String.eqb expand_type "shellcmd" then
      match environ_PATH env with
      | inl e => inl e
      | inr path => inr (split ":" path)
      end
    else inr [working_directory] in
  match dirs with
  | inl e => (w, Some e)
  | inr directories =>
      run_in_background w
        (ReqFileCompletion ctx working_directory expand_arg expand_type has_wildcard
           path_prefix directories wildignore)
  end.

Definition get_users (w : Runtime) (ctx : Ctx) (expand_arg expand_type : string)
    : Runtime * option exn :=
  run_in_background w (ReqUsers ctx expand_arg expand_type).

Definition filter_ (w : Runtime) (ctx : Ctx) (pattern : string) (candidates : list string)
    (engine : string) (has_file_args : bool) : Runtime * option exn :=
  run_in_background w (ReqFilter ctx pattern candidates engine has_file_args).

Definition fuzzywuzzy (w : Runtime) (ctx : Ctx) (candidates : list string) (query : string)
    (partial : option bool) : Runtime * option exn :=
  run_in_background w (ReqFuzzywuzzy ctx candidates query partial).

(** ** [extract_captures] *)

(** [len(s.encode('utf-8'))] *)
Definition utf8_len (s : ustr) : exn + Z :=
  match encode_utf8 s with
  | inl e => inl e
  | inr bs => inr (Z.of_nat (length bs))
  end.

(** The loop [for i in range(1, match.lastindex + 1)], over the list of
    group numbers, with [captures] as accumulator. *)
Fixpoint captures_loop (m : Match) (string : ustr) (groups : list nat)
    (captures : list (Z * Z)) : exn + list (Z * Z) :=
  match groups with
  | [] => inr captures
  | i :: groups' =>
      let start := m_start m i in
      let end_ := m_end m i in
      if (start =? -1) || (end_ =? -1) || (start =? end_) then
        captures_loop m string groups' captures
      else
        match utf8_len (take (Z.to_nat start) string) with
        | inl e => inl e
        | inr byte_start =>
            match utf8_len (drop (Z.to_nat start) (take (Z.to_nat end_) string)) with
            | inl e => inl e
            | inr n =>
                let byte_end := byte_start + n - 1 in
                captures_loop m string groups' (captures ++ [(byte_start, byte_end)])
            end
        end
  end.

(** [extract_captures(args)] with [pattern = args[0]], [string = args[1]]
    and [args[2]], when present, the module name. *)
Definition extract_captures (env : Env) (pattern string : ustr) (args2 : option String.string)
    : exn + list (Z * Z) :=
  let module_name := match args2 with Some n => n | None => "re" end in
  match module_match env module_name pattern string with
  | inl e => inl e
  | inr match_ =>
      match match_ with
      | None => inr []
      | Some m =>
          match lastindex m with
          | None | Some O => inr []
          | Some n => captures_loop m string (seq 1 n) []
          end
      end
  end.

(** ** A reference pattern engine

    An engine for the fragment of the [re] syntax made of literal
    characters, [.], capturing groups, [|] and [?], with the matching
    order of a backtracking engine. It serves to run [extract_captures]
    on concrete patterns; any other pattern is outside its domain and is
    refused. *)
Module MiniRe.

Inductive regex : Type :=
| Eps
| Chr (c : N)
| Dot
| Cat (r1 r2 : regex)
| Alt (r1 r2 : regex)
| Opt (r : regex)
| Group (i : nat) (r : regex).

(** A group being parsed: its number, the alternatives closed so far and
    the items of the current alternative, last first. *)
Record frame : Type := mkFrame {
  f_group : nat;
  f_alts : option regex;
  f_cur : list regex
}.

Definition seq_of (cur : list regex) : regex :=
  fold_left (fun acc r => Cat r acc) cur Eps.

Definition finish (f : frame) : regex :=
  match f_alts f with
  | None => seq_of (f_cur f)
  | Some a => Alt a (seq_of (f_cur f))
  end.

Definition push (f : frame) (r : regex) : frame :=
  mkFrame (f_group f) (f_alts f) (r :: f_cur f).

Definition is_unsupported (c : N) : bool :=
  existsb (N.eqb c) (ustr_of "\[]{}^$*+").

Fixpoint parse (p : ustr) (next : nat) (cur : frame) (stack : list frame)
    : option regex :=
  match p with
  | [] => match stack with
          | [] => Some (finish cur)
          | _ :: _ => None
          end
  | c :: p' =>
      if (c =? 40)%N then parse p' (S next) (mkFrame next None []) (cur :: stack)
      else if (c =? 41)%N then
        match stack with
        | [] => None
        | parent :: stack' =>
            parse p' next (push parent (Group (f_group cur) (finish cur))) stack'
        end
      else if (c =? 124)%N then
        parse p' next (mkFrame (f_group cur) (Some (finish cur)) []) stack
      else if (c =? 63)%N then
        match f_cur cur with
        | [] | Opt _ :: _ => None
        | r :: rs => parse p' next (mkFrame (f_group cur) (f_alts cur) (Opt r :: rs)) stack
        end
      else if (c =? 46)%N then parse p' next (push cur Dot) stack
      else if is_unsupported c then None
      else parse p' next (push cur (Chr c)) stack
  end.

Definition compile (p : ustr) : option regex := parse p 1%nat (mkFrame 0 None []) [].

(** The spans of the groups closed so far, latest first, and the number
    of the group closed last. *)
Record mstate : Type := mkMstate {
  spans : list (nat * (nat * nat));
  last : option nat
}.

Definition close (i start stop : nat) (st : mstate) : mstate :=
  mkMstate ((i, (start, stop)) :: spans st) (Some i).

(** Match [r] at offset [pos], where [s] is the rest of the subject,
    then continue with [k]; the first success in priority order. *)
Fixpoint run (r : regex) (pos : nat) (s : ustr) (st : mstate)
    (k : nat -> ustr -> mstate -> option mstate) {struct r} : option mstate :=
  match r with
  | Eps => k pos s st
  | Chr c => match s with
             | x :: s' => if (x =? c)%N then k (S pos) s' st else None
             | [] => None
             end
  | Dot => match s with
           | x :: s' => if (x =? 10)%N then None else k (S pos) s' st
           | [] => None
           end
  | Cat r1 r2 => run r1 pos s st (fun pos' s' st' => run r2 pos' s' st' k)
  | Alt r1 r2 => match run r1 pos s st k with
                 | Some st' => Some st'
                 | None => run r2 pos s st k
                 end
  | Opt r1 => match run r1 pos s st k with
              | Some st' => Some st'
              | None => k pos s st
              end
  | Group i r1 => run r1 pos s st (fun pos' s' st' => k pos' s' (close i pos pos' st'))
  end.

Fixpoint span_of (i : nat) (l : list (nat * (nat * nat))) : option (nat * nat) :=
  match l with
  | [] => None
  | (j, sp) :: l' => if Nat.eqb i j then Some sp else span_of i l'
  end.

Definition match_object (st : mstate) : Match :=
  mkMatch (last st)
    (fun i => match span_of i (spans st) with
              | Some (a, _) => Z.of_nat a
              | None => -1
              end)
    (fun i => match span_of i (spans st) with
              | Some (_, b) => Z.of_nat b
              | None => -1
              end).

(** [re.match(pattern, string)]: a match that starts at offset 0. *)
Definition re_match (pattern string : ustr) : exn + option Match :=
  match compile pattern with
  | None => inl (mkExn Exception "pattern outside the supported fragment")
  | Some r =>
      inr (match run r 0%nat string (mkMstate [] None) (fun _ _ st => Some st) with
           | Some st => Some (match_object st)
           | None => None
           end)
  end.

End MiniRe.

(** ** Concrete environments *)

(** [fnmatch.fnmatch] on POSIX for patterns made of literal characters,
    [*] and [?]. A bracket is taken as a literal character, as [fnmatch]
    does for a bracket that is not closed. *)
Fixpoint glob_match (name pat : string) {struct pat} : bool :=
  match pat with
  | "" => String.eqb name ""
  | String p pat' =>
      if Ascii.eqb p "*" then
        (fix star (n : string) : bool :=
           glob_match n pat'
           || match n with
              | "" => false
              | String _ n' => star n'
              end) name
      else
        match name with
        | "" => false
        | String c name' =>
            (Ascii.eqb p "?" || Ascii.eqb p c) && glob_match name' pat'
        end
  end.

Definition no_module (n : string) : exn := mkExn Exception ("No module named '" +:+ n +:+ "'").

(** A machine with an empty file system, no pattern engine for the
    handlers, no [fuzzywuzzy], and [re.match] given by [MiniRe]. *)
Definition bare_env : Env :=
  {| import_module := fun n => inl (no_module n);
     module_match := fun n p s =>
       if String.eqb n "re" then MiniRe.re_match p s else inl (no_module n);
     import_fuzzywuzzy := inl (no_module "fuzzywuzzy");
     getpwall := inr [];
     fnmatch := glob_match;
     scandir := fun p => inl (mkExn FileNotFoundError ("No such file or directory: '" +:+ p +:+ "'"));
     expandvars := fun p => p;
     iglob := fun _ => [];
     Path_relative := fun _ p => mkDirEntry (os_path_basename p) p (inr false) (inr false);
     Path_eq := fun e p => String.eqb (entry_str e) p;
     access_X_OK := fun _ => false;
     environ_PATH := inr "";
     option_wildignore := "";
     option_path := "";
     cursor_row := 1;
     current_buffer := [];
     nanosleep := fun _ => inr tt |}.

Definition file_entry (n : string) : DirEntry := mkDirEntry n n (inr false) (inr true).
Definition dir_entry (n : string) : DirEntry := mkDirEntry n n (inr true) (inr false).

(** A machine whose directory [/wd] holds the files [a.txt] and [.hidden]
    and the directory [sub]. *)
Definition wd_env : Env :=
  {| import_module := import_module bare_env;
     module_match := module_match bare_env;
     import_fuzzywuzzy := import_fuzzywuzzy bare_env;
     getpwall := getpwall bare_env;
     fnmatch := glob_match;
     scandir := fun p =>
       if String.eqb p "/wd"
       then inr [dir_entry "sub"; file_entry ".hidden"; file_entry "a.txt"]
       else scandir bare_env p;
     expandvars := expandvars bare_env;
     iglob := iglob bare_env;
     Path_relative := Path_relative bare_env;
     Path_eq := Path_eq bare_env;
     access_X_OK := access_X_OK bare_env;
     environ_PATH := environ_PATH bare_env;
     option_wildignore := "";
     option_path := "";
     cursor_row := 1;
     current_buffer := [];
     nanosleep := nanosleep bare_env |}.

(** ** Executions *)

(** A sequence of submissions, in order. *)
Definition submit_all (w : Runtime) (rs : list Request) : Runtime :=
  fold_left (fun w r => fst (run_in_background w r)) rs w.

(** A sequence of [init] calls, each with its [num_workers]. *)
Definition init_all (w : Runtime) (ns : list Z) : Runtime :=
  fold_left (fun w n => fst (init w n)) ns w.

(** The moves of the plugin: a call of [init], a submission, a search
    request, a worker finishing a closure under some schedule of polls,
    and a cycle of the consumer that reads some of the entries of the
    queue. *)
Inductive step (env : Env) : Runtime -> Runtime -> Prop :=
| step_init w n : step env w (fst (init w n))
| step_submit w r : step env w (fst (run_in_background w r))
| step_search w ctx opts x : step env w (fst (search env w ctx opts x))
| step_worker w oracle t : step env w (fst (commit w (handler_run env oracle t)))
| step_consumer w n w' : consumer_cycle_upto n w = Some w' -> step env w w'.

(** The states the plugin can be in, from its construction on. *)
Definition reachable (env : Env) (w : Runtime) : Prop := rtc (step env) boot w.

(** The tokens of the pending set that are not cancelled. *)
Definition live_tokens (w : Runtime) : list Event :=
  List.filter (fun e => negb (is_set w e)) (events (self w)).

(** *** The claims' own words, for comparison *)

(** The order on contexts: [(run_id, step)], lexicographic. *)
Definition ctx_le (a b : Ctx) : Prop :=
  ctx_run_id a < ctx_run_id b \/ (ctx_run_id a = ctx_run_id b /\ ctx_step a <= ctx_step b).

(** Admission as the specification words it: of a sequence of run ids,
    those not below the greatest seen before them, [m] being the greatest
    so far. *)
Fixpoint admitted_ids (m : Z) (ids : list Z) : list bool :=
  match ids with
  | [] => []
  | i :: ids' => (m <=? i) :: admitted_ids (Z.max m i) ids'
  end.

Definition mk_ctx (r s : Z) : Ctx := mkCtx r s [].

(** The run id of a submission. *)
Definition rid (r : Request) : Z := ctx_run_id (req_ctx r).

(** The elements of [l] whose mark is [true]. *)
Fixpoint select {A : Type} (mask : list bool) (l : list A) : list A :=
  match mask, l with
  | b :: mask', a :: l' => if b then a :: select mask' l' else select mask' l'
  | _, _ => []
  end.

(** The state a stale submission leaves: [w] with one more event object
    constructed and nothing else changed. *)
Definition dropped (w : Runtime) : Runtime := snd (Event_new w).

(** The state an admitted submission leaves. *)
Definition admitted (w : Runtime) (ex : ThreadPoolExecutor) (r : Request) : Runtime :=
  mkRuntime
    (mkWilder (has_init (self w)) (queue (self w)) [created w]
       (Some (submit ex (mkTask (created w) r))) (rid r))
    (S (created w)) (list_to_set (events (self w)) ∪ flagged w)
    (host_calls w) (consumer_threads w).

(** The pending set is well formed: at most one token, created and not
    cancelled; only created tokens are cancelled. *)
Definition pending_ok (w : Runtime) : Prop :=
  (length (events (self w)) <= 1)%nat
  /\ (forall e : Event, e ∈ events (self w) -> (e < created w)%nat /\ e ∉ flagged w)
  /\ (forall e : Event, e ∈ flagged w -> (e < created w)%nat).

(** The four submissions of the example, with run ids 3, 5, 2 and 5. *)
Definition example_submissions : list Request :=
  [ReqUniq (mk_ctx 3 0) ["a"]; ReqUniq (mk_ctx 5 0) ["b"];
   ReqUniq (mk_ctx 2 0) ["c"]; ReqUniq (mk_ctx 5 1) ["d"]].

(** The entries of the coalescing example, run 1, steps 1 to 3. *)
Definition backlog : list QueueEntry :=
  [entry2 (mk_ctx 1 1) (str_list ["a"]);
   entry2 (mk_ctx 1 2) (str_list ["b"]);
   entry2 (mk_ctx 1 3) (str_list ["c"])].

(** The single call a consumer cycle makes for entry [best]. *)
Definition delivery (best : QueueEntry) : HostCall :=
  mkCall ("wilder#pipeline#" +:+ default "resolve" (qe_command best))
    (ctx_val (qe_ctx best)) (qe_res best).

(** *** Cancellation, as seen from a run

    [quiet]: nothing was put and no poll so far found the event set.
    [stopped]: nothing was put and the last poll, and only it, found the
    event set. [calm]: no poll found the event set. *)
Definition quiet (o : nat -> bool) (s : hstate) : Prop :=
  emitted s = [] /\ forall k : nat, (k < polls s)%nat -> o k = false.

Definition stopped (o : nat -> bool) (s : hstate) : Prop :=
  emitted s = []
  /\ exists k : nat, polls s = S k /\ o k = true /\ forall j : nat, (j < k)%nat -> o j = false.

Definition calm (o : nat -> bool) (s : hstate) : Prop :=
  forall k : nat, (k < polls s)%nat -> o k = false.

(** A block that can be followed by further polls: from a quiet state it
    ends quiet, or it has returned, stopped or calm. *)
Definition safe {A : Type} (m : H A) : Prop :=
  forall o s, quiet o s ->
    quiet o (snd (m o s))
    \/ (fst (m o s) = Return_ /\ (stopped o (snd (m o s)) \/ calm o (snd (m o s)))).

(** The property of a whole run: a poll that finds the event set is the
    last one, the run returns and has put nothing. *)
Definition fine {A : Type} (o : nat -> bool) (r : hres A * hstate) : Prop :=
  forall k : nat, (k < polls (snd r))%nat -> o k = true ->
    fst r = Return_ /\ emitted (snd r) = [] /\ polls (snd r) = S k.

Definition cancel_ok {A : Type} (m : H A) : Prop :=
  forall o s, quiet o s -> fine o (m o s).

(** A block that leaves a component [f] of the handler state as it is:
    [polls] for a block that does not poll, [removals] for one that
    leaves [self.events] alone, [emitted] for one that puts nothing. *)
Definition preserves {X A : Type} (f : hstate -> X) (m : H A) : Prop :=
  forall o s, f (snd (m o s)) = f s.

Definition is_search (r : Request) : bool :=
  match r with
  | ReqSearch _ _ _ _ => true
  | _ => false
  end.

(** A uniq request, admitted by a fresh plugin with two workers; its
    closure holds event 0. *)
Definition uniq_request : Request := ReqUniq (mk_ctx 1 0) ["b"; "a"; "b"].
Definition uniq_pending : Runtime :=
  fst (uniq (fst (init boot 2)) (mk_ctx 1 0) ["b"; "a"; "b"]).

(** A search request whose context and options differ. *)
Definition search_ctx : Ctx := mkCtx 1 0 [("handler_id", PInt 7)].
Definition search_opts : SearchOpts := mkSearchOpts None None.

(** *** Byte offsets, as the specification words them *)

(** The number of bytes of a code point in UTF-8. *)
Definition utf8_width (cp : N) : nat :=
  if (cp <? 0x80)%N then 1%nat
  else if (cp <? 0x800)%N then 2%nat
  else if (cp <? 0x10000)%N then 3%nat
  else 4%nat.

(** The byte offset of character offset [k] in [s]: the bytes of the
    characters before it. *)
Definition byte_offset (s : ustr) (k : Z) : Z :=
  Z.of_nat (list_sum (map utf8_width (take (Z.to_nat k) s))).

(** The end-inclusive byte span of group [i], if the group took part in
    the match and is not empty. *)
Definition group_span (m : Match) (s : ustr) (i : nat) : option (Z * Z) :=
  if (m_start m i =? -1) || (m_end m i =? -1) || (m_start m i =? m_end m i) then None
  else Some (byte_offset s (m_start m i), byte_offset s (m_end m i) - 1).

(** *** File completion, as the specification words it *)

(** The typed prefix: the last component of what is completed in
    [directory]. *)
Definition typed_tail (has_wildcard : bool) (directory expand_arg : string) : string :=
  if has_wildcard then os_path_basename expand_arg
  else snd (os_path_split (os_path_join directory expand_arg)).

(** The entries enumerated for [directory]. *)
Definition listing (env : Env) (has_wildcard : bool) (directory expand_arg : string)
    : list DirEntry :=
  if has_wildcard then
    map (Path_relative env directory)
      (iglob env (expandvars env (os_path_join directory expand_arg)))
  else
    match scandir env (fst (os_path_split (os_path_join directory expand_arg))) with
    | inr it => it
    | inl _ => []
    end.

(** The text an entry is shown as, before the separator of a directory. *)
Definition shown (has_wildcard : bool) (entry : DirEntry) : string :=
  if has_wildcard then entry_str entry else name entry.

(** [f] is the text of an enumerated entry that the hidden rule lets
    through: an entry whose name starts with a dot is shown only when the
    typed prefix starts with a dot. *)
Definition visible_entry (env : Env) (has_wildcard : bool) (directories : list string)
    (expand_arg : string) (f : string) : Prop :=
  exists directory entry,
    directory ∈ directories
    /\ entry ∈ listing env has_wildcard directory expand_arg
    /\ (startswith (name entry) "." = true ->
        startswith (typed_tail has_wildcard directory expand_arg) "." = true)
    /\ (f = shown has_wildcard entry \/ f = shown has_wildcard entry +:+ sep).

(** The directory of [expand_arg], put back in front of a candidate. *)
Definition with_head (has_wildcard : bool) (expand_arg : string) (f : string) : string :=
  if negb has_wildcard && negb (String.eqb (os_path_dirname expand_arg) "")
  then os_path_join (os_path_dirname expand_arg) f
  else f.

(** The file completion of the example: directory [/wd], typed [arg], for
    completions of type [expand_type]. *)
Definition wd_completion (arg expand_type : string) : Task :=
  mkTask 0%nat (ReqFileCompletion (mk_ctx 1 0) "/wd" arg expand_type false "" ["/wd"] "").

(** What no move changes once [init] has run. *)
Definition init_view (w : Runtime) : bool * nat * option Z :=
  (has_init (self w), consumer_threads w, option_map max_workers (executor (self w))).

(** *** Further notions *)

Definition is_sleep (r : Request) : bool :=
  match r with
  | ReqSleep _ _ _ => true
  | _ => false
  end.

(** [r] is a sleep request of a length for which [time.sleep] raises. *)
Definition refused (env : Env) (r : Request) : bool :=
  match r with
  | ReqSleep _ t _ => match time_sleep env t with
                      | inl _ => true
                      | inr _ => false
                      end
  | _ => false
  end.

(** A plugin with two workers that has admitted [uniq_request] and then a
    request of run id 2. *)
Definition uniq_superseded : Runtime :=
  fst (run_in_background uniq_pending (ReqSort (mk_ctx 2 0) ["z"; "y"])).

(** Some poll of the run found the event set. *)
Definition observed (o : nat -> bool) (s : hstate) : Prop :=
  exists k : nat, (k < polls s)%nat /\ o k = true.

(** A block that puts nothing unless it returns right after: started with
    nothing put, it ends with nothing put (and a [return] then means that
    a poll found the event set), or it returns with exactly one tuple
    put. *)
Definition tidy {A : Type} (m : H A) : Prop :=
  forall o s, emitted s = [] ->
    (emitted (snd (m o s)) = []
     /\ (fst (m o s) = Return_ -> observed o (snd (m o s))))
    \/ (fst (m o s) = Return_ /\ length (emitted (snd (m o s))) = 1%nat).

(** The three ways a [try] body ends: cancelled with nothing put, one
    tuple put and no exception, or an exception with nothing put. *)
Definition closing {A : Type} (m : H A) : Prop :=
  forall o s, emitted s = [] ->
    (fst (m o s) = Return_ /\ emitted (snd (m o s)) = [] /\ observed o (snd (m o s)))
    \/ (length (emitted (snd (m o s))) = 1%nat
        /\ (fst (m o s) = Return_ \/ exists a, fst (m o s) = Val a))
    \/ (emitted (snd (m o s)) = [] /\ exists e, fst (m o s) = Raise e).

(** The two ways a handler with a [try] ends: cancelled with nothing put,
    or one tuple put; never by an exception. *)
Definition answers {A : Type} (m : H A) : Prop :=
  forall o s, emitted s = [] ->
    (fst (m o s) = Return_ /\ emitted (snd (m o s)) = [] /\ observed o (snd (m o s)))
    \/ (length (emitted (snd (m o s))) = 1%nat
        /\ (fst (m o s) = Return_ \/ exists a, fst (m o s) = Val a)).

(** A block that never ends by [continue]. *)
Definition loop_free {A : Type} (m : H A) : Prop :=
  forall o s, fst (m o s) <> Continue.

(** A block that puts only tuples with property [P]. *)
Definition emits_only (P : QueueEntry -> Prop) {A : Type} (m : H A) : Prop :=
  forall o s, Forall P (emitted s) -> Forall P (emitted (snd (m o s))).

(** What every handler's tuples look like for request context [ctx]: the
    context itself, and a candidate list to resolve or a message to
    reject. *)
Definition well_formed_entry (ctx : Ctx) (e : QueueEntry) : Prop :=
  qe_ctx e = ctx
  /\ ((qe_command e = None /\ exists l, qe_res e = str_list l)
      \/ (qe_command e = Some "reject" /\ exists msg, qe_res e = PStr msg)).

(** The order of [sorted]: [a <= b] on [str]. *)
Definition str_le (a b : string) : Prop := String.leb a b = true.

(** The score the fuzzy match sorts by, for the value of [partial]. *)
Definition fuzzy_score (fuzzy : FuzzModule) (partial : option bool) (query : string)
    (x : string) : Z :=
  if default true partial then partial_ratio fuzzy x query else ratio fuzzy x query.

(** The body of the loop [for match in pattern.finditer(line)] of the
    search handler, with [seen] and [candidates] as accumulator. *)
Definition search_inner (ctx : Ctx) (max_candidates : Z) (candidate : string)
    (acc : gset string * list string) : H (gset string * list string) :=
  let '(seen, candidates) := acc in
  b <- event_is_set;;
  if b then return_ else
  if negb (bool_decide (candidate ∈ seen)) then
    let seen := {[candidate]} ∪ seen in
    let candidates := candidates ++ [candidate] in
    if (max_candidates >? 0) && (Z.of_nat (length candidates) >=? max_candidates)
    then queue_put (entry2 ctx (str_list candidates));;; return_
    else ret (seen, candidates)
  else ret (seen, candidates).

(** The body of the loop [for line in buf] of the search handler. *)
Definition search_outer (ctx : Ctx) (max_candidates : Z) (pattern : Pattern)
    (line : string) (acc : gset string * list string) : H (gset string * list string) :=
  b <- event_is_set;;
  if b then return_ else
  for_fold (finditer pattern line) acc (search_inner ctx max_candidates).

(** The candidates of a search, as a function of the buffer: the matches
    of the lines in order, each value once, cut at [max_candidates] when
    that is positive. *)
Definition search_candidates (pattern : Pattern) (max_candidates : Z) (buf : list string)
    : list string :=
  let all := uniq_from ∅ (concat (map (finditer pattern) buf)) in
  if 0 <? max_candidates then take (Z.to_nat max_candidates) all else all.

(** A machine with three users, a fuzzy scorer that gives 100 to a
    candidate that starts with the query (for [ratio]: that equals it) and
    0 to any other, and a pattern engine [re] for which the matches of [x]
    in a line are its space-separated words that start with [x]. *)
Definition demo_env : Env :=
  {| import_module := fun n =>
       if String.eqb n "re"
       then inr (mkReModule
                   (fun x =>
                      if String.eqb x "(" then inl (mkExn Exception "missing )")
                      else inr (mkPattern
                                  (fun line =>
                                     List.filter (fun w => startswith w x) (split " " line))
                                  (fun s => startswith s x))))
       else inl (no_module n);
     module_match := module_match bare_env;
     import_fuzzywuzzy :=
       inr (mkFuzzModule (fun x q => if startswith x q then 100 else 0)
              (fun x q => if String.eqb x q then 100 else 0));
     getpwall := inr ["root"; "daemon"; "rob"];
     fnmatch := glob_match;
     scandir := scandir wd_env;
     expandvars := expandvars bare_env;
     iglob := iglob bare_env;
     Path_relative := Path_relative bare_env;
     Path_eq := Path_eq bare_env;
     access_X_OK := access_X_OK bare_env;
     environ_PATH := inr "/bin:/usr/bin";
     option_wildignore := "*.o,*.pyc";
     option_path := ".,/usr/include,,";
     cursor_row := 3;
     current_buffer := ["ab ba"; "abc ab"; "b abd"; "ab"];
     nanosleep := fun t =>
       if 9223000000 <? t then inl (mkExn OSError "[Errno 22] Invalid argument")
       else inr tt |}.

(** [s] holds no character [c]. *)
Fixpoint no_char (c : ascii) (s : string) : bool :=
  match s with
  | "" => true
  | String a s' => negb (Ascii.eqb a c) && no_char c s'
  end.

(** The end-inclusive span of group [i] in characters, if the group took
    part in the match and is not empty. *)
Definition char_span (m : Match) (i : nat) : option (Z * Z) :=
  if (m_start m i =? -1) || (m_end m i =? -1) || (m_start m i =? m_end m i) then None
  else Some (m_start m i, m_end m i - 1).

(** A block whose outcome does not depend on the handler state it starts
    from, as long as no poll finds the event set. *)
Definition steady {A : Type} (m : H A) : Prop :=
  forall o s1 s2, (forall k, o k = false) -> fst (m o s1) = fst (m o s2).

(** The machine of [wd_env] with one more directory, [/locked], that
    cannot be read. *)
Definition locked_env : Env :=
  {| import_module := import_module wd_env;
     module_match := module_match wd_env;
     import_fuzzywuzzy := import_fuzzywuzzy wd_env;
     getpwall := getpwall wd_env;
     fnmatch := glob_match;
     scandir := fun p =>
       if String.eqb p "/locked"
       then inl (mkExn OSError "[Errno 13] Permission denied: '/locked'")
       else scandir wd_env p;
     expandvars := expandvars wd_env;
     iglob := iglob wd_env;
     Path_relative := Path_relative wd_env;
     Path_eq := Path_eq wd_env;
     access_X_OK := access_X_OK wd_env;
     environ_PATH := environ_PATH wd_env;
     option_wildignore := "";
     option_path := "";
     cursor_row := 1;
     current_buffer := [];
     nanosleep := nanosleep wd_env |}.

(** The file completion of [arg] over the directories [dirs]. *)
Definition dirs_completion (arg : string) (dirs : list string) : Task :=
  mkTask 0%nat (ReqFileCompletion (mk_ctx 1 0) "/wd" arg "file" false "" dirs "").

(** [f] is the text of [entry], enumerated for [directory], and [entry]
    passes every test of the loop body: the hidden rule, the completion
    type, the [wildignore] patterns, the typed prefix. A directory is
    shown with a separator at its end, anything else without. *)
Definition passes (env : Env) (expand_type : string) (has_wildcard : bool)
    (path_prefix directory : string) (wildignore_list : list string)
    (show_hidden : bool) (pattern : string) (entry : DirEntry) (f : string) : Prop :=
  (startswith (name entry) "." = true -> show_hidden = true)
  /\ (expand_type = "dir" -> is_dir entry = inr true)
  /\ (forall p, p ∈ wildignore_list -> fnmatch env (name entry) p = false)
  /\ (has_wildcard = false -> pattern <> "" -> fnmatch env (name entry) pattern = true)
  /\ (expand_type = "shellcmd" ->
      is_file entry = inr true
      /\ access_X_OK env (os_path_join directory (name entry)) = true)
  /\ (has_wildcard = true -> Path_eq env entry path_prefix = false)
  /\ ((is_dir entry = inr true /\ f = shown has_wildcard entry +:+ sep)
      \/ (is_dir entry = inr false /\ f = shown has_wildcard entry)).

(** [f] is the text of an entry of one of the directories that passes
    every test, for the typed prefix and the pattern that the handler
    derives from [expand_arg]. *)
Definition completed (env : Env) (expand_type : string) (has_wildcard : bool)
    (path_prefix wildignore_opt : string) (directories : list string)
    (expand_arg : string) (f : string) : Prop :=
  exists directory entry,
    directory ∈ directories
    /\ directory <> ""
    /\ entry ∈ listing env has_wildcard directory expand_arg
    /\ passes env expand_type has_wildcard path_prefix directory (split "," wildignore_opt)
         (startswith (typed_tail has_wildcard directory expand_arg) ".")
         (if has_wildcard then ""
          else typed_tail has_wildcard directory expand_arg +:+ "*")
         entry f.

(** The completion of directories only, in [/wd]. *)
Definition wd_dirs : Task := wd_completion "" "dir".

(** The navigation entries that go in front of the candidates. *)
Definition navigation (expand_arg : string) : list string :=
  if String.eqb expand_arg "." then ["./"; "../"]
  else if String.eqb expand_arg ".." then ["../"]
  else [].

(** The tests of the loop body other than the hidden rule, for [entry]
    listed for [directory]: the completion type, the [wildignore]
    patterns, the typed prefix, the path prefix. A test that cannot be
    made, because [is_dir] or [is_file] raises, counts as failed. *)
Definition other_tests (env : Env) (expand_type : string) (has_wildcard : bool)
    (path_prefix directory : string) (wildignore_list : list string) (pattern : string)
    (entry : DirEntry) : bool :=
  (if String.eqb expand_type "dir"
   then match is_dir entry with inr true => true | _ => false end
   else true)
  && negb (existsb (fnmatch env (name entry)) wildignore_list)
  && (has_wildcard || String.eqb pattern "" || fnmatch env (name entry) pattern)
  && (if String.eqb expand_type "shellcmd"
      then match is_file entry with
           | inr true => access_X_OK env (os_path_join directory (name entry))
           | _ => false
           end
      else true)
  && negb (has_wildcard && Path_eq env entry path_prefix)
  && match is_dir entry with inr _ => true | inl _ => false end.

(** The hidden rule: an entry whose name starts with a dot is shown iff
    the typed prefix starts with a dot. *)
Definition hidden_rule (show_hidden : bool) (entry : DirEntry) : bool :=
  negb (startswith (name entry) ".") || show_hidden.

(** The text of an entry in the result: a directory with a separator at
    its end. *)
Definition entry_text (has_wildcard : bool) (entry : DirEntry) : string :=
  match is_dir entry with
  | inr true => shown has_wildcard entry +:+ sep
  | _ => shown has_wildcard entry
  end.

(** The candidates of one directory, in the order of its listing: the
    entries that pass the hidden rule and the other tests. The empty
    directory name has none. *)
Definition directory_candidates (env : Env) (expand_arg expand_type : string)
    (has_wildcard : bool) (path_prefix : string) (wildignore_list : list string)
    (directory : string) : list string :=
  if String.eqb directory "" then []
  else
    let tail := typed_tail has_wildcard directory expand_arg in
    let pattern := if has_wildcard then "" else tail +:+ "*" in
    map (entry_text has_wildcard)
      (List.filter
         (fun entry =>
            hidden_rule (startswith tail ".") entry
            && other_tests env expand_type has_wildcard path_prefix directory
                 wildignore_list pattern entry)
         (listing env has_wildcard directory expand_arg)).

(** * Properties *)

(** ** Admission *)

Lemma cancel_pending_spec (evs : list Event) (fl : gset Event) :
  cancel_pending evs fl = ([], list_to_set evs ∪ fl).
Proof.
  revert fl; induction evs as [|e evs IH]; intros fl; simpl.
  - by rewrite (left_id_L ∅ (∪)).
  - rewrite IH. f_equal.
    by rewrite (comm_L (∪) {[e]} (list_to_set evs)), <- (assoc_L (∪)).
Qed.

Lemma run_in_background_stale (w : Runtime) (r : Request) :
  rid r < run_id (self w) ->
  run_in_background w r = (dropped w, None).
Proof.
  intros Hlt. unfold run_in_background, admit_locked, dropped, rid in *. simpl.
  apply Z.ltb_lt in Hlt. rewrite Hlt. reflexivity.
Qed.

Lemma run_in_background_admit (w : Runtime) (ex : ThreadPoolExecutor) (r : Request) :
  executor (self w) = Some ex ->
  run_id (self w) <= rid r ->
  run_in_background w r = (admitted w ex r, None).
Proof.
  intros Hex Hle. unfold run_in_background, admit_locked, admitted, rid in *. simpl.
  apply Z.ltb_ge in Hle. rewrite Hle, cancel_pending_spec. simpl.
  rewrite Hex. reflexivity.
Qed.

(** Whatever the submission, the executor stays in place and the tracked
    run id becomes the greater of the two. *)
Lemma run_in_background_run_id (w : Runtime) (r : Request) :
  run_id (self (fst (run_in_background w r))) = Z.max (run_id (self w)) (rid r).
Proof.
  destruct (Z.lt_ge_cases (rid r) (run_id (self w))) as [Hlt|Hge].
  - rewrite run_in_background_stale by done. simpl. lia.
  - unfold run_in_background, admit_locked, rid in *. simpl.
    apply Z.ltb_ge in Hge as Hb. rewrite Hb, cancel_pending_spec. simpl.
    destruct (executor (self w)); simpl; lia.
Qed.

Lemma submit_all_app (w : Runtime) (rs1 rs2 : list Request) :
  submit_all w (rs1 ++ rs2) = submit_all (submit_all w rs1) rs2.
Proof. unfold submit_all. apply fold_left_app. Qed.

Lemma submit_all_run_id (w : Runtime) (rs : list Request) :
  run_id (self (submit_all w rs)) = fold_left Z.max (map rid rs) (run_id (self w)).
Proof.
  revert w; induction rs as [|r rs IH]; intros w; simpl; [done|].
  unfold submit_all in *. simpl. rewrite IH, run_in_background_run_id. done.
Qed.

Lemma submit_all_created (w : Runtime) (rs : list Request) :
  created (submit_all w rs) = (created w + length rs)%nat.
Proof.
  revert w; induction rs as [|r rs IH]; intros w; simpl; [lia|].
  unfold submit_all in *. simpl. rewrite IH.
  assert (created (fst (run_in_background w r)) = S (created w)) as ->; [|lia].
  unfold run_in_background, admit_locked. simpl.
  destruct (_ <? _); [done|]. rewrite cancel_pending_spec. simpl.
  destruct (executor (self w)); done.
Qed.

Lemma submit_all_executor (w : Runtime) (ex : ThreadPoolExecutor) (rs : list Request) :
  executor (self w) = Some ex ->
  exists ex',
    executor (self (submit_all w rs)) = Some ex'
    /\ max_workers ex' = max_workers ex
    /\ map task_req (submitted ex')
       = map task_req (submitted ex) ++ select (admitted_ids (run_id (self w)) (map rid rs)) rs.
Proof.
  revert w ex; induction rs as [|r rs IH]; intros w ex Hex.
  - exists ex. simpl. by rewrite app_nil_r.
  - unfold submit_all in *. simpl.
    destruct (Z.lt_ge_cases (rid r) (run_id (self w))) as [Hlt|Hge].
    + rewrite run_in_background_stale by done. simpl.
      destruct (IH (dropped w) ex Hex) as (ex' & H1 & H2 & H3).
      exists ex'. split_and!; [done..|].
      rewrite (proj2 (Z.leb_gt _ _) Hlt), H3. simpl.
      by replace (Z.max (run_id (self w)) (rid r)) with (run_id (self w)) by lia.
    + rewrite (run_in_background_admit w ex) by done. simpl.
      destruct (IH (admitted w ex r) (submit ex (mkTask (created w) r)) eq_refl)
        as (ex' & H1 & H2 & H3).
      exists ex'. split_and!; [done..|].
      rewrite (proj2 (Z.leb_le _ _) Hge), H3. simpl.
      rewrite map_app, <- app_assoc. simpl.
      by replace (Z.max (run_id (self w)) (rid r)) with (rid r) by lia.
Qed.

(** C1 (amended). For every sequence of submissions made once the pool
    exists, the tracked run id is the greatest of its initial value (-1
    after construction) and the run ids seen; each submission constructs
    its token object; a submission whose run id is below the tracked
    maximum changes nothing else: no token is registered, none is
    cancelled, no closure is submitted; a submission whose run id is not
    below it is admitted: it becomes the tracked maximum, its token is
    the pending set and its closure is submitted. The closures submitted
    are those of the submissions not below the maximum before them. *)
Theorem admission_monotone (w : Runtime) (ex : ThreadPoolExecutor) (rs : list Request) :
  executor (self w) = Some ex ->
  let w' := submit_all w rs in
  run_id (self w') = fold_left Z.max (map rid rs) (run_id (self w))
  /\ created w' = (created w + length rs)%nat
  /\ (exists ex',
        executor (self w') = Some ex'
        /\ map task_req (submitted ex')
           = map task_req (submitted ex)
             ++ select (admitted_ids (run_id (self w)) (map rid rs)) rs)
  /\ (forall (i : nat) (r : Request),
        rs !! i = Some r ->
        let before := submit_all w (take i rs) in
        let m := fold_left Z.max (map rid (take i rs)) (run_id (self w)) in
        (rid r < m -> run_in_background before r = (dropped before, None))
        /\ (m <= rid r ->
            exists ex0,
              executor (self before) = Some ex0
              /\ run_in_background before r = (admitted before ex0 r, None))).
Proof.
  intros Hex w'. split_and!.
  - apply submit_all_run_id.
  - apply submit_all_created.
  - destruct (submit_all_executor w ex rs Hex) as (ex' & H1 & _ & H3). eauto.
  - intros i r Hi before m.
    assert (run_id (self before) = m) as Hm by apply submit_all_run_id.
    destruct (submit_all_executor w ex (take i rs) Hex) as (ex0 & H1 & _ & _).
    split.
    + intros Hlt. apply run_in_background_stale. by rewrite Hm.
    + intros Hge. exists ex0. split; [done|].
      apply run_in_background_admit; [done|]. by rewrite Hm.
Qed.

(** Submitting run ids 3, 5, 2, 5 to a fresh plugin submits the closures
    of the first, second and fourth submission, and constructs four
    tokens. *)
Lemma admission_monotone_witness :
  let w := fst (init boot 2) in
  let w' := submit_all w example_submissions in
  run_id (self w') = 5
  /\ created w' = 4%nat
  /\ exists ex',
       executor (self w') = Some ex'
       /\ map task_req (submitted ex')
          = [ReqUniq (mk_ctx 3 0) ["a"]; ReqUniq (mk_ctx 5 0) ["b"];
             ReqUniq (mk_ctx 5 1) ["d"]].
Proof.
  intros w w'.
  destruct (admission_monotone w (mkExecutor 2 []) example_submissions eq_refl)
    as (H1 & H2 & H3 & _).
  split; [exact H1|]. split; [exact H2|]. exact H3.
Defined.

(** C1, as stated, fails: a stale submission does construct a token (the
    event object is made before the run id is compared), and the first
    submission of a fresh plugin is dropped when its run id is below -1,
    although no run id was seen before it. *)
Lemma admission_counterexample :
  let w := submit_all (fst (init boot 2))
             [ReqUniq (mk_ctx 3 0) ["a"]; ReqUniq (mk_ctx 5 0) ["b"]] in
  let stale := ReqUniq (mk_ctx 2 0) ["c"] in
  (rid stale < run_id (self w)
   /\ created (fst (run_in_background w stale)) = S (created w))
  /\ executor (self (fst (run_in_background (fst (init boot 2))
                           (ReqUniq (mk_ctx (-2) 0) ["a"]))))
     = Some (mkExecutor 2 []).
Proof. vm_compute. split; [split|]; reflexivity. Qed.

(** ** The pending set *)

Lemma list_remove_absent (x : Event) (l : list Event) : x ∉ l -> list_remove x l = None.
Proof.
  induction l as [|y l IH]; simpl; [done|].
  intros [Hne Hnin]%not_elem_of_cons.
  rewrite (proj2 (Nat.eqb_neq x y) Hne). by rewrite IH.
Qed.

Lemma list_remove_present (x : Event) (l : list Event) :
  x ∈ l -> exists l', list_remove x l = Some l'.
Proof.
  induction l as [|y l IH]; simpl; [by intros ?%elem_of_nil|].
  intros Hin. destruct (Nat.eqb_spec x y) as [|Hne]; [eauto|].
  apply elem_of_cons in Hin as [|Hin]; [done|].
  destruct (IH Hin) as [l' ->]. eauto.
Qed.

Lemma list_remove_Some (x : Event) (l l' : list Event) :
  list_remove x l = Some l' ->
  S (length l') = length l /\ (forall e, e ∈ l' -> e ∈ l).
Proof.
  revert l'; induction l as [|y l IH]; intros l'; simpl; [done|].
  destruct (Nat.eqb x y).
  - intros [= <-]. split; [done|]. intros e He. by apply list_elem_of_further.
  - destruct (list_remove x l) as [r|]; [|done].
    intros [= <-]. destruct (IH r eq_refl) as [Hlen Hin]. split; [simpl; lia|].
    intros e [->|He]%elem_of_cons; [apply list_elem_of_here|].
    apply list_elem_of_further; auto.
Qed.

Lemma apply_removals_sub (rs evs : list Event) :
  (length (fst (apply_removals rs evs)) <= length evs)%nat
  /\ (forall e, e ∈ fst (apply_removals rs evs) -> e ∈ evs).
Proof.
  revert evs; induction rs as [|r rs IH]; intros evs; simpl; [done|].
  destruct (list_remove r evs) as [evs'|] eqn:Hr; [|done].
  destruct (list_remove_Some _ _ _ Hr) as [Hlen Hin].
  destruct (IH evs') as [Hlen' Hin']. split; [lia|auto].
Qed.

Lemma pending_ok_boot : pending_ok boot.
Proof.
  split_and!; simpl; [lia| |]; intros e He.
  - by apply elem_of_nil in He.
  - by apply elem_of_empty in He.
Qed.

(** What a submission does to the pending set and the flags, whether or
    not the pool exists. *)
Lemma run_in_background_events (w : Runtime) (r : Request) :
  let w' := fst (run_in_background w r) in
  created w' = S (created w)
  /\ ((rid r < run_id (self w)
       /\ events (self w') = events (self w) /\ flagged w' = flagged w)
      \/ (run_id (self w) <= rid r
          /\ events (self w') = [created w]
          /\ flagged w' = list_to_set (events (self w)) ∪ flagged w)).
Proof.
  destruct (Z.lt_ge_cases (rid r) (run_id (self w))) as [Hlt|Hge]; simpl.
  - rewrite run_in_background_stale by done. simpl. split; [done|]. left. done.
  - unfold run_in_background, admit_locked, rid in *. simpl.
    rewrite (proj2 (Z.ltb_ge _ _) Hge), cancel_pending_spec. simpl.
    destruct (executor (self w)); simpl; (split; [done|]); right; done.
Qed.

Lemma pending_ok_submit (w : Runtime) (r : Request) :
  pending_ok w -> pending_ok (fst (run_in_background w r)).
Proof.
  intros (Hlen & Hev & Hfl).
  destruct (run_in_background_events w r) as [Hc [(_ & He & Hf)|(_ & He & Hf)]];
    unfold pending_ok; rewrite Hc, He, Hf.
  - split_and!; [done| |].
    + intros e Hin. destruct (Hev e Hin). split; [lia|done].
    + intros e Hin. specialize (Hfl e Hin). lia.
  - split_and!; [simpl; lia| |].
    + intros e ->%list_elem_of_singleton. split; [lia|].
      intros [Hin|Hin]%elem_of_union.
      * apply elem_of_list_to_set in Hin. destruct (Hev _ Hin). lia.
      * specialize (Hfl _ Hin). lia.
    + intros e [Hin|Hin]%elem_of_union.
      * apply elem_of_list_to_set in Hin. destruct (Hev _ Hin). lia.
      * specialize (Hfl _ Hin). lia.
Qed.

Lemma pending_ok_step (env : Env) (w w' : Runtime) :
  step env w w' -> pending_ok w -> pending_ok w'.
Proof.
  intros Hstep Hok. destruct Hstep as [w n|w r|w ctx opts x|w oracle t|w k w' Hc].
  - unfold init. destruct (has_init (self w)); [done|].
    destruct (ThreadPoolExecutor_new n); exact Hok.
  - by apply pending_ok_submit.
  - unfold search. destruct (String.eqb x ""); [exact Hok|].
    by apply pending_ok_submit.
  - destruct Hok as (Hlen & Hev & Hfl).
    unfold commit.
    pose proof (apply_removals_sub (removals (snd (handler_run env oracle t)))
                  (events (self w))) as [Hl Hi].
    destruct (apply_removals _ _) as [evs rm]. simpl in *.
    split_and!; simpl; [lia| |done].
    intros e He. auto.
  - unfold consumer_cycle_upto in Hc. destruct (queue (self w)) as [|a q]; [done|].
    injection Hc as <-. unfold deliver, handle, with_queue, with_self.
    destruct (qe_command _); exact Hok.
Qed.

Lemma pending_ok_reachable (env : Env) (w : Runtime) :
  reachable env w -> pending_ok w.
Proof.
  unfold reachable. intros Hr. revert w Hr.
  apply (rtc_ind_r pending_ok boot); [apply pending_ok_boot|].
  intros y z _ Hstep IH. eapply pending_ok_step; eauto.
Qed.

(** Every remote function other than [init] and [search] is a submission,
    or, for a file completion that cannot read [PATH], no move at all. *)
Lemma remote_functions_reachable (env : Env) (w : Runtime) (ctx : Ctx) :
  reachable env w ->
  (forall t x, reachable env (fst (sleep w ctx t x)))
  /\ (forall candidates, reachable env (fst (uniq w ctx candidates)))
  /\ (forall candidates, reachable env (fst (sort w ctx candidates)))
  /\ (forall wd expand_arg expand_type has_wildcard path_prefix,
        reachable env (fst (get_file_completion env w ctx wd expand_arg expand_type
                              has_wildcard path_prefix)))
  /\ (forall expand_arg expand_type, reachable env (fst (get_users w ctx expand_arg expand_type)))
  /\ (forall pattern candidates engine has_file_args,
        reachable env (fst (filter_ w ctx pattern candidates engine has_file_args)))
  /\ (forall candidates query partial,
        reachable env (fst (fuzzywuzzy w ctx candidates query partial))).
Proof.
  intros Hr.
  assert (forall r, reachable env (fst (run_in_background w r))) as Hsub.
  { intros r. eapply rtc_r; [exact Hr|apply step_submit]. }
  split_and!; intros; try apply Hsub.
  unfold get_file_completion.
  destruct (String.eqb expand_type "file_in_path"); [apply Hsub|].
  destruct (String.eqb expand_type "shellcmd"); [|apply Hsub].
  destruct (environ_PATH env); [exact Hr|apply Hsub].
Qed.

Lemma live_tokens_length (w : Runtime) :
  (length (live_tokens w) <= length (events (self w)))%nat.
Proof. unfold live_tokens. apply List.filter_length_le. Qed.

(** C4. When a submission is admitted, every token that was in the
    pending set is set and is no longer in the set, and the pending set is
    the fresh token alone, which is not set; at every moment the pending
    set holds at most one token that is not cancelled. *)
Theorem single_winner_cancellation (env : Env) (w : Runtime) (r : Request) :
  reachable env w ->
  (length (live_tokens w) <= 1)%nat
  /\ (run_id (self w) <= rid r ->
      let w' := fst (run_in_background w r) in
      (forall e : Event, e ∈ events (self w) -> is_set w' e = true /\ e ∉ events (self w'))
      /\ events (self w') = [created w]
      /\ is_set w' (created w) = false
      /\ (length (live_tokens w') <= 1)%nat).
Proof.
  intros Hr. pose proof (pending_ok_reachable env w Hr) as Hok.
  split.
  { destruct Hok as (Hlen & _). pose proof (live_tokens_length w). lia. }
  intros Hge w'.
  pose proof (pending_ok_submit w r Hok) as Hok'. fold w' in Hok'.
  destruct (run_in_background_events w r) as [Hc [(Hlt & _)|(_ & He & Hf)]]; [lia|].
  fold w' in Hc, He, Hf. destruct Hok as (Hlen & Hev & Hfl).
  split_and!.
  - intros e Hin. split.
    + unfold is_set. apply bool_decide_eq_true. rewrite Hf.
      apply elem_of_union_l, elem_of_list_to_set, Hin.
    + rewrite He. intros ->%list_elem_of_singleton. destruct (Hev _ Hin). lia.
  - exact He.
  - unfold is_set. apply bool_decide_eq_false.
    destruct Hok' as (_ & Hev' & _). apply Hev'. rewrite He. apply list_elem_of_here.
  - destruct Hok' as (Hlen' & _). pose proof (live_tokens_length w'). lia.
Qed.

(** Admitting run id 2 after the token of run id 1 was handed out leaves
    that token (event 0) set, and the new token (event 1) alone pending. *)
Lemma single_winner_cancellation_witness :
  let w := fst (run_in_background (fst (init boot 2)) (ReqUniq (mk_ctx 1 0) ["a"])) in
  let w' := fst (run_in_background w (ReqUniq (mk_ctx 2 0) ["b"])) in
  (forall e : Event, e ∈ events (self w) -> is_set w' e = true /\ e ∉ events (self w'))
  /\ events (self w') = [created w]
  /\ is_set w' (created w) = false
  /\ (length (live_tokens w') <= 1)%nat.
Proof.
  intros w w'.
  assert (reachable bare_env w) as Hr.
  { unfold reachable, w.
    eapply rtc_l; [apply (step_init bare_env boot 2)|].
    eapply rtc_l; [apply step_submit|]. apply rtc_refl. }
  refine (proj2 (single_winner_cancellation bare_env w (ReqUniq (mk_ctx 2 0) ["b"]) Hr) _).
  vm_compute. discriminate.
Defined.

(** ** The consumer *)

Lemma newer_true (a b : Ctx) :
  newer a b = true
  <-> ctx_run_id b < ctx_run_id a
      \/ (ctx_run_id a = ctx_run_id b /\ ctx_step b < ctx_step a).
Proof.
  unfold newer. rewrite orb_true_iff, andb_true_iff, !Z.gtb_ltb, !Z.ltb_lt, Z.eqb_eq.
  reflexivity.
Qed.

Lemma newer_false (a b : Ctx) : newer a b = false <-> ctx_le a b.
Proof.
  unfold ctx_le. rewrite <- not_true_iff_false, newer_true. lia.
Qed.

Lemma newer_iff_not_le (a b : Ctx) : newer a b = true <-> ~ ctx_le a b.
Proof. rewrite <- newer_false. destruct (newer a b); split; congruence. Qed.

Lemma drain_position (args : QueueEntry) (q : list QueueEntry) :
  exists l1 l2,
    args :: q = l1 ++ drain args q :: l2
    /\ (forall e, e ∈ l1 -> newer (qe_ctx (drain args q)) (qe_ctx e) = true)
    /\ (forall e, e ∈ l2 -> newer (qe_ctx e) (qe_ctx (drain args q)) = false).
Proof.
  revert args; induction q as [|new q IH]; intros args; simpl.
  - exists [], []. split_and!; [done|intros e He; by apply elem_of_nil in He..].
  - destruct (newer (qe_ctx new) (qe_ctx args)) eqn:Hn.
    + destruct (IH new) as (l1 & l2 & Heq & H1 & H2).
      exists (args :: l1), l2. split_and!; [by rewrite Heq| |done].
      intros e [->|He]%elem_of_cons; [|auto].
      destruct l1 as [|x l1]; simpl in Heq.
      * injection Heq as Heq _. by rewrite <- Heq.
      * injection Heq as <- _.
        specialize (H1 new (list_elem_of_here _ _)).
        apply newer_true in H1, Hn. apply newer_true. lia.
    + destruct (IH args) as (l1 & l2 & Heq & H1 & H2).
      destruct l1 as [|x l1]; simpl in Heq.
      * injection Heq as Heq Hq. exists [], (new :: l2). rewrite <- Heq.
        split_and!; [by rewrite Hq|intros e He; by apply elem_of_nil in He|].
        intros e [->|He]%elem_of_cons; [done|]. rewrite Heq. auto.
      * injection Heq as <- Hq. exists (args :: new :: l1), l2.
        split_and!; [simpl; by rewrite <- Hq| |done].
        intros e [->|[->|He]%elem_of_cons]%elem_of_cons.
        -- apply H1, list_elem_of_here.
        -- specialize (H1 args (list_elem_of_here _ _)).
           apply newer_true in H1. apply newer_false in Hn. unfold ctx_le in Hn.
           apply newer_true. lia.
        -- apply H1. by apply list_elem_of_further.
Qed.

Lemma drain_max (args : QueueEntry) (q : list QueueEntry) (e : QueueEntry) :
  e ∈ args :: q -> ctx_le (qe_ctx e) (qe_ctx (drain args q)).
Proof.
  destruct (drain_position args q) as (l1 & l2 & Heq & H1 & H2). rewrite Heq.
  intros [He|[->|He]%elem_of_cons]%elem_of_app.
  - specialize (H1 e He). apply newer_true in H1. unfold ctx_le. lia.
  - unfold ctx_le. lia.
  - by apply newer_false, H2.
Qed.

(** C2 (amended). One cycle of the consumer in which, after the first
    entry, [n] further entries of the queue come through in time to be
    read: the cycle takes the first entry as the best, replaces it by
    each entry it reads that is strictly greater in [(run_id, step)],
    makes exactly one call to the host, for the earliest of the entries
    read that is greatest in the lexicographic order, and leaves the
    entries it did not read in the queue. When every entry comes
    through, the queue is left empty. *)
Theorem consumer_coalesces (w : Runtime) (args : QueueEntry) (q : list QueueEntry)
    (n : nat) :
  queue (self w) = args :: q ->
  let read := take n q in
  let best := drain args read in
  (exists w',
      consumer_cycle_upto n w = Some w'
      /\ queue (self w') = drop n q
      /\ host_calls w' = host_calls w ++ [delivery best])
  /\ (forall e, e ∈ args :: read -> ctx_le (qe_ctx e) (qe_ctx best))
  /\ (exists l1 l2,
        args :: read = l1 ++ best :: l2
        /\ (forall e, e ∈ l1 -> ~ ctx_le (qe_ctx best) (qe_ctx e))
        /\ (forall e, e ∈ l2 -> ctx_le (qe_ctx e) (qe_ctx best)))
  /\ (forall new q',
        drain args (new :: q')
        = drain (if newer (qe_ctx new) (qe_ctx args) then new else args) q')
  /\ (forall a b, newer a b = true <-> ~ ctx_le a b)
  /\ ((length q <= n)%nat ->
      read = q /\ drop n q = [] /\ consumer_cycle w = consumer_cycle_upto n w).
Proof.
  intros Hq read best. split_and!.
  - unfold consumer_cycle_upto. rewrite Hq. eexists. split; [reflexivity|].
    fold read best. unfold deliver, delivery, handle, with_queue, with_self.
    destruct (qe_command best); simpl; done.
  - intros e He. by apply drain_max.
  - destruct (drain_position args read) as (l1 & l2 & Heq & H1 & H2).
    exists l1, l2. split_and!; [done| |].
    + intros e He. by apply newer_iff_not_le, H1.
    + intros e He. by apply newer_false, H2.
  - intros new q'. simpl. by destruct (newer _ _).
  - apply newer_iff_not_le.
  - intros Hn. unfold read, consumer_cycle, consumer_cycle_upto. rewrite Hq.
    rewrite !take_ge, !drop_ge by (simpl; lia). done.
Qed.

(** With the entries (1,1), (1,2), (1,3) queued and all come through
    before the consumer wakes, the cycle makes one call, for (1,3). *)
Lemma consumer_coalesces_witness :
  exists w',
    consumer_cycle (with_queue boot backlog) = Some w'
    /\ queue (self w') = []
    /\ host_calls w'
       = [mkCall "wilder#pipeline#resolve" (ctx_val (mk_ctx 1 3)) (str_list ["c"])].
Proof.
  exact (proj1 (consumer_coalesces (with_queue boot backlog)
                  (entry2 (mk_ctx 1 1) (str_list ["a"]))
                  [entry2 (mk_ctx 1 2) (str_list ["b"]);
                   entry2 (mk_ctx 1 3) (str_list ["c"])] 2%nat eq_refl)).
Defined.

(** C2, as stated, fails when the three entries are enqueued before the
    consumer wakes but only the first has come through by then: the cycle
    calls the host for (1,1) and leaves the other two in the queue, and
    the next cycle calls it for (1,3). Two deliveries occur, and (1,1) is
    not discarded. *)
Lemma consumer_coalesces_counterexample :
  queue (self (with_queue boot backlog)) = backlog
  /\ exists w1 w2,
       consumer_cycle_upto 0 (with_queue boot backlog) = Some w1
       /\ host_calls w1
          = [mkCall "wilder#pipeline#resolve" (ctx_val (mk_ctx 1 1)) (str_list ["a"])]
       /\ queue (self w1)
          = [entry2 (mk_ctx 1 2) (str_list ["b"]); entry2 (mk_ctx 1 3) (str_list ["c"])]
       /\ consumer_cycle_upto 1 w1 = Some w2
       /\ host_calls w2
          = [mkCall "wilder#pipeline#resolve" (ctx_val (mk_ctx 1 1)) (str_list ["a"]);
             mkCall "wilder#pipeline#resolve" (ctx_val (mk_ctx 1 3)) (str_list ["c"])]
       /\ queue (self w2) = [].
Proof. split; [reflexivity|]. eexists _, _. split_and!; reflexivity. Qed.

(** ** Initialisation *)

Lemma init_noop (w : Runtime) (n : Z) :
  has_init (self w) = true -> init w n = (w, None).
Proof. intros H. unfold init. by rewrite H. Qed.

Lemma init_sets_flag (w : Runtime) (n : Z) : has_init (self (fst (init w n))) = true.
Proof.
  unfold init. destruct (has_init (self w)) eqn:H; [done|].
  by destruct (ThreadPoolExecutor_new n).
Qed.

Lemma init_first (w : Runtime) (n : Z) :
  has_init (self w) = false -> 0 < n ->
  consumer_threads (fst (init w n)) = S (consumer_threads w)
  /\ executor (self (fst (init w n))) = Some (mkExecutor n []).
Proof.
  intros H Hn. unfold init, ThreadPoolExecutor_new. rewrite H.
  by rewrite (proj2 (Z.leb_gt _ _) Hn).
Qed.

Lemma run_in_background_init_view (w : Runtime) (r : Request) :
  init_view (fst (run_in_background w r)) = init_view w.
Proof.
  unfold run_in_background, admit_locked, init_view. simpl.
  destruct (_ <? _); [done|]. rewrite cancel_pending_spec. simpl.
  by destruct (executor (self w)).
Qed.

Lemma step_init_view (env : Env) (w w' : Runtime) :
  step env w w' -> has_init (self w) = true -> init_view w' = init_view w.
Proof.
  intros Hstep Hi. destruct Hstep as [w n|w r|w ctx opts x|w oracle t|w k w' Hc].
  - by rewrite init_noop.
  - apply run_in_background_init_view.
  - unfold search. destruct (String.eqb x ""); [done|].
    apply run_in_background_init_view.
  - unfold commit. by destruct (apply_removals _ _).
  - unfold consumer_cycle_upto in Hc. destruct (queue (self w)); [done|].
    injection Hc as <-. unfold deliver. by destruct (qe_command _).
Qed.

Lemma later_init_view (env : Env) (w w' : Runtime) :
  rtc (step env) w w' -> has_init (self w) = true -> init_view w' = init_view w.
Proof.
  intros Hr Hi. revert w' Hr.
  apply (rtc_ind_r (fun w' => init_view w' = init_view w) w); [done|].
  intros y z _ Hstep IH. rewrite <- IH. eapply step_init_view; [done|].
  unfold init_view in IH. injection IH as -> _ _. done.
Qed.

(** C10 (amended). Once [init] has been called, a call of [init] at any
    later moment, with any options, changes nothing: the flag stays set,
    no further consumer thread is started and the pool keeps its size.
    When the first call finds the flag clear and a positive number of
    workers, exactly one consumer thread has been started since and the
    pool has the size given by that first call. When it finds the flag
    clear and a number of workers that is not positive, it sets the flag
    and raises [ValueError]; no consumer thread has been started since
    and the pool is as it was before the call. *)
Theorem init_idempotent (env : Env) (w : Runtime) (n : Z) (w' : Runtime) :
  rtc (step env) (fst (init w n)) w' ->
  (forall n', init w' n' = (w', None))
  /\ consumer_threads w' = consumer_threads (fst (init w n))
  /\ option_map max_workers (executor (self w'))
     = option_map max_workers (executor (self (fst (init w n))))
  /\ (has_init (self w) = false -> 0 < n ->
      consumer_threads w' = S (consumer_threads w)
      /\ option_map max_workers (executor (self w')) = Some n)
  /\ (has_init (self w) = false -> n <= 0 ->
      snd (init w n) = Some (mkExn ValueError "max_workers must be greater than 0")
      /\ has_init (self w') = true
      /\ consumer_threads w' = consumer_threads w
      /\ option_map max_workers (executor (self w'))
         = option_map max_workers (executor (self w))).
Proof.
  intros Hr.
  pose proof (later_init_view env _ _ Hr (init_sets_flag w n)) as Hv.
  unfold init_view in Hv. rewrite init_sets_flag in Hv. injection Hv as Hi Ht Hm.
  split_and!; [|done|done| |].
  - intros n'. by apply init_noop.
  - intros Hf Hn. destruct (init_first w n Hf Hn) as [H1 H2].
    by rewrite Ht, Hm, H1, H2.
  - intros Hf Hn. rewrite Hi, Ht, Hm. unfold init, ThreadPoolExecutor_new.
    rewrite Hf, (proj2 (Z.leb_le n 0) Hn). done.
Qed.

(** A plugin initialised with 2 workers, used, and initialised again with
    7: the second call is void, one thread runs, the pool has 2 workers. *)
Lemma init_idempotent_witness :
  let w1 := fst (init boot 2) in
  let w2 := fst (run_in_background w1 (ReqUniq (mk_ctx 1 0) ["a"])) in
  init w2 7 = (w2, None)
  /\ consumer_threads w2 = 1%nat
  /\ option_map max_workers (executor (self w2)) = Some 2.
Proof.
  intros w1 w2.
  assert (rtc (step bare_env) (fst (init boot 2)) w2) as Hr.
  { eapply rtc_l; [apply step_submit|]. apply rtc_refl. }
  destruct (init_idempotent bare_env boot 2 w2 Hr) as (H1 & _ & _ & H4 & _).
  destruct (H4 eq_refl eq_refl) as [H5 H6].
  split; [exact (H1 7)|]. split; [exact H5|exact H6].
Defined.

(** C10, as stated, fails for a first call with no workers: it raises
    after the flag is set, so the pool is not constructed and the
    consumer thread not started, and the later call with 4 workers is
    void. Pool and thread are made not once but never. *)
Lemma init_idempotent_counterexample :
  snd (init boot 0) = Some (mkExn ValueError "max_workers must be greater than 0")
  /\ init (fst (init boot 0)) 4 = (fst (init boot 0), None)
  /\ init_view (fst (init (fst (init boot 0)) 4)) = (true, 0%nat, None).
Proof. split_and!; reflexivity. Qed.

(** ** Cancellation *)

Lemma quiet_hstate0 (o : nat -> bool) : quiet o hstate0.
Proof. split; [done|]. simpl. intros k Hk. lia. Qed.

Lemma quiet_calm (o : nat -> bool) (s : hstate) : quiet o s -> calm o s.
Proof. by intros [_ H]. Qed.

Lemma calm_fine {A : Type} (o : nat -> bool) (r : hres A * hstate) :
  calm o (snd r) -> fine o r.
Proof. intros Hc k Hk Ho. rewrite (Hc k Hk) in Ho. discriminate. Qed.

Lemma stopped_fine {A : Type} (o : nat -> bool) (s : hstate) :
  stopped o s -> fine o (@Return_ A, s).
Proof.
  intros (He & k0 & Hp & Hk0 & Hlt) k Hk Ho. simpl in *.
  assert (k = k0) as ->.
  { destruct (decide (k < k0)%nat) as [Hl|Hl]; [|lia].
    rewrite (Hlt k Hl) in Ho. discriminate. }
  done.
Qed.

Lemma safe_cancel_ok {A : Type} (m : H A) : safe m -> cancel_ok m.
Proof.
  intros Hs o s Hq. destruct (Hs o s Hq) as [Hq'|[Hr [Hst|Hc]]].
  - by apply calm_fine, quiet_calm.
  - destruct (m o s) as [r s']. simpl in *. subst r. by apply stopped_fine.
  - by apply calm_fine.
Qed.

Lemma safe_ret {A : Type} (a : A) : safe (ret a).
Proof. intros o s Hq. by left. Qed.

Lemma safe_raise {A : Type} (e : exn) : safe (@raise A e).
Proof. intros o s Hq. by left. Qed.

Lemma safe_continue {A : Type} : safe (@continue A).
Proof. intros o s Hq. by left. Qed.

Lemma safe_return {A : Type} : safe (@return_ A).
Proof. intros o s Hq. by left. Qed.

Lemma safe_lift {A : Type} (r : exn + A) : safe (lift r).
Proof. destruct r; [apply safe_raise|apply safe_ret]. Qed.

Lemma safe_bind {A B : Type} (m : H A) (f : A -> H B) :
  safe m -> (forall a, safe (f a)) -> safe (bind m f).
Proof.
  intros Hm Hf o s Hq. unfold bind. specialize (Hm o s Hq).
  destruct (m o s) as [[a| | |e] s']; simpl in *.
  - destruct Hm as [Hq'|[Hr _]]; [|done]. by apply Hf.
  - destruct Hm as [Hq'|[_ Hst]]; [by left|by right].
  - destruct Hm as [Hq'|[Hr _]]; [by left|done].
  - destruct Hm as [Hq'|[Hr _]]; [by left|done].
Qed.

(** [if event.is_set(): return], then [m]. *)
Lemma safe_guard {A : Type} (m : H A) :
  safe m -> safe (bind event_is_set (fun b : bool => if b then return_ else m)).
Proof.
  intros Hm o s [He Hq]. unfold bind, event_is_set. simpl.
  destruct (o (polls s)) eqn:Ho.
  - right. simpl. split; [done|]. left. split; [done|]. exists (polls s). done.
  - apply Hm. split; [done|]. simpl. intros k Hk.
    destruct (decide (k = polls s)) as [->|Hne]; [done|]. apply Hq. lia.
Qed.

Lemma safe_put_return {A : Type} (entry : QueueEntry) :
  safe (bind (queue_put entry) (fun _ => @return_ A)).
Proof.
  intros o s [He Hq]. right. simpl. split; [done|]. right. exact Hq.
Qed.

Lemma safe_try_except {A : Type} (body : H A) (catches : exn -> bool) (h : exn -> H A) :
  safe body -> (forall e, safe (h e)) -> safe (try_except body catches h).
Proof.
  intros Hb Hh o s Hq. unfold try_except. specialize (Hb o s Hq).
  destruct (body o s) as [[a| | |e] s']; simpl in *; try exact Hb.
  destruct (catches e); [|exact Hb].
  destruct Hb as [Hq'|[Hr _]]; [|done]. by apply Hh.
Qed.

Lemma safe_for_fold {A S : Type} (l : list A) (acc : S) (body : A -> S -> H S) :
  (forall a acc, safe (body a acc)) -> safe (for_fold l acc body).
Proof.
  intros Hb. revert acc. induction l as [|a l IH]; intros acc; simpl.
  - apply safe_ret.
  - intros o s Hq. specialize (Hb a acc o s Hq).
    destruct (body a acc o s) as [[acc'| | |e] s']; simpl in *.
    + destruct Hb as [Hq'|[Hr _]]; [|done]. by apply IH.
    + exact Hb.
    + destruct Hb as [Hq'|[Hr _]]; [|done]. by apply IH.
    + destruct Hb as [Hq'|[Hr _]]; [by left|done].
Qed.

Lemma cancel_ok_bind {A B : Type} (m : H A) (f : A -> H B) :
  safe m -> (forall a, cancel_ok (f a)) -> cancel_ok (bind m f).
Proof.
  intros Hm Hf o s Hq. unfold bind. specialize (Hm o s Hq).
  destruct (m o s) as [[a| | |e] s']; simpl in *.
  - destruct Hm as [Hq'|[Hr _]]; [|done]. by apply Hf.
  - destruct Hm as [Hq'|[_ [Hst|Hc]]].
    + by apply calm_fine, quiet_calm.
    + by apply stopped_fine.
    + by apply calm_fine.
  - destruct Hm as [Hq'|[Hr _]]; [|done]. by apply calm_fine, quiet_calm.
  - destruct Hm as [Hq'|[Hr _]]; [|done]. by apply calm_fine, quiet_calm.
Qed.

Lemma cancel_ok_guard {A : Type} (m : H A) :
  cancel_ok m -> cancel_ok (bind event_is_set (fun b : bool => if b then return_ else m)).
Proof.
  intros Hm o s [He Hq]. unfold bind, event_is_set. simpl.
  destruct (o (polls s)) eqn:Ho.
  - apply stopped_fine. split; [done|]. exists (polls s). done.
  - apply Hm. split; [done|]. simpl. intros k Hk.
    destruct (decide (k = polls s)) as [->|Hne]; [done|]. apply Hq. lia.
Qed.

Lemma cancel_ok_nopoll {A : Type} (m : H A) : preserves polls m -> cancel_ok m.
Proof.
  intros Hn o s [_ Hq]. apply calm_fine. intros k Hk. apply Hq.
  by rewrite Hn in Hk.
Qed.

Lemma nopoll_queue_put (entry : QueueEntry) : preserves polls (queue_put entry).
Proof. done. Qed.

Lemma cancel_ok_try_except {A : Type} (body : H A) (catches : exn -> bool)
    (h : exn -> H A) :
  cancel_ok body -> (forall e, preserves polls (h e)) ->
  cancel_ok (try_except body catches h).
Proof.
  intros Hb Hh o s Hq. unfold try_except. specialize (Hb o s Hq).
  destruct (body o s) as [[a| | |e] s'] eqn:Hrun; try exact Hb.
  destruct (catches e); [|exact Hb].
  apply calm_fine. intros k Hk. rewrite Hh in Hk.
  destruct (o k) eqn:Ho; [|done]. by destruct (Hb k Hk Ho).
Qed.

Lemma cancel_ok_finally_remove {A : Type} (body : H A) (event : Event) :
  cancel_ok body -> cancel_ok (try_finally body (events_remove event)).
Proof.
  intros Hb o s Hq. unfold try_finally, events_remove. specialize (Hb o s Hq).
  destruct (body o s) as [r s']. exact Hb.
Qed.

(** The tactic that walks a handler's body. *)
Ltac walk :=
  repeat first
    [ apply safe_guard
    | apply safe_put_return
    | apply safe_ret
    | apply safe_continue
    | apply safe_return
    | apply safe_lift
    | apply safe_for_fold; intros
    | apply safe_try_except; [|intros]
    | apply safe_bind; [|intros]
    | match goal with
      | |- safe (let _ := _ in _) => progress cbv zeta
      | |- safe (if ?b then _ else _) => destruct b
      | |- safe (let '(_, _) := ?p in _) => destruct p
      | |- safe (match ?p with _ => _ end) => destruct p
      end ].

Lemma cancel_ok_run_handler (env : Env) (t : Task) : cancel_ok (run_handler env t).
Proof.
  destruct t as [event [ctx t x|ctx opts x buf|ctx cs|ctx cs
                       |ctx wd ea et hw pp dirs wi|ctx ea et|ctx pat cs eng hf
                       |ctx cs q part]]; simpl.
  - apply cancel_ok_guard, cancel_ok_bind; [apply safe_lift|].
    intros _. apply cancel_ok_nopoll, nopoll_queue_put.
  - apply cancel_ok_guard, cancel_ok_finally_remove, cancel_ok_try_except;
      [|intros; apply nopoll_queue_put].
    apply cancel_ok_bind; [apply safe_lift|intros re].
    apply cancel_ok_bind; [apply safe_lift|intros pattern].
    apply cancel_ok_bind; [|intros; apply cancel_ok_nopoll, nopoll_queue_put].
    walk.
  - apply cancel_ok_guard, cancel_ok_try_except; [|intros; apply nopoll_queue_put].
    apply cancel_ok_nopoll, nopoll_queue_put.
  - apply cancel_ok_guard, cancel_ok_try_except; [|intros; apply nopoll_queue_put].
    apply cancel_ok_nopoll, nopoll_queue_put.
  - apply cancel_ok_guard, cancel_ok_try_except; [|intros; apply nopoll_queue_put].
    apply cancel_ok_bind; [|intros; apply cancel_ok_nopoll, nopoll_queue_put].
    apply safe_for_fold. intros. unfold completion_directory. walk.
  - apply cancel_ok_guard, cancel_ok_try_except; [|intros; apply nopoll_queue_put].
    apply cancel_ok_bind; [apply safe_lift|].
    intros; apply cancel_ok_nopoll, nopoll_queue_put.
  - apply cancel_ok_guard, cancel_ok_try_except; [|intros; apply nopoll_queue_put].
    apply cancel_ok_bind; [apply safe_lift|intros re].
    apply cancel_ok_bind; [apply safe_lift|].
    intros; apply cancel_ok_nopoll, nopoll_queue_put.
  - apply cancel_ok_guard, cancel_ok_try_except; [|intros; apply nopoll_queue_put].
    apply cancel_ok_bind; [apply safe_lift|].
    intros; apply cancel_ok_nopoll, nopoll_queue_put.
Qed.

Lemma handler_run_cancelled_first (env : Env) (o : nat -> bool) (t : Task) :
  o 0%nat = true -> handler_run env o t = (Return_, mkHstate 1 [] []).
Proof.
  intros Ho. unfold handler_run.
  destruct t as [event []]; unfold run_handler, task_req, task_event;
    [unfold sleep_handler|unfold search_handler|unfold uniq_handler|unfold sort_handler
    |unfold get_file_completion_handler|unfold get_users_handler|unfold filter_handler
    |unfold fuzzywuzzy_handler];
    unfold bind at 1, event_is_set, hstate0; cbn [polls]; by rewrite Ho.
Qed.

(** ** Token removal *)

Section Frame.

Context {X : Type} (f : hstate -> X).

Lemma preserves_ret {A : Type} (a : A) : preserves f (ret a).
Proof. done. Qed.

Lemma preserves_return {A : Type} : preserves f (@return_ A).
Proof. done. Qed.

Lemma preserves_continue {A : Type} : preserves f (@continue A).
Proof. done. Qed.

Lemma preserves_lift {A : Type} (r : exn + A) : preserves f (lift r).
Proof. by destruct r. Qed.

Lemma preserves_bind {A B : Type} (m : H A) (g : A -> H B) :
  preserves f m -> (forall a, preserves f (g a)) -> preserves f (bind m g).
Proof.
  intros Hm Hg o s. unfold bind. specialize (Hm o s).
  destruct (m o s) as [[a| | |e] s']; simpl in *; try done.
  by rewrite Hg.
Qed.

Lemma preserves_try_except {A : Type} (body : H A) (catches : exn -> bool)
    (h : exn -> H A) :
  preserves f body -> (forall e, preserves f (h e)) ->
  preserves f (try_except body catches h).
Proof.
  intros Hb Hh o s. unfold try_except. specialize (Hb o s).
  destruct (body o s) as [[a| | |e] s']; simpl in *; try done.
  destruct (catches e); [|done]. by rewrite Hh.
Qed.

Lemma preserves_for_fold {A S : Type} (l : list A) (acc : S) (body : A -> S -> H S) :
  (forall a acc, preserves f (body a acc)) -> preserves f (for_fold l acc body).
Proof.
  intros Hb. revert acc. induction l as [|a l IH]; intros acc o s; simpl; [done|].
  specialize (Hb a acc o s).
  destruct (body a acc o s) as [[acc'| | |e] s']; simpl in *; try done;
    by rewrite IH.
Qed.

End Frame.

Lemma keeps_event_is_set : preserves removals event_is_set.
Proof. done. Qed.

Lemma keeps_queue_put (entry : QueueEntry) : preserves removals (queue_put entry).
Proof. done. Qed.

Lemma silent_event_is_set : preserves emitted event_is_set.
Proof. done. Qed.

(** The tactic that walks a block for a frame property. *)
Ltac walk_frame :=
  repeat first
    [ apply keeps_event_is_set
    | apply keeps_queue_put
    | apply silent_event_is_set
    | apply preserves_ret
    | apply preserves_return
    | apply preserves_continue
    | apply preserves_lift
    | apply preserves_for_fold; intros
    | apply preserves_try_except; [|intros]
    | apply preserves_bind; [|intros]
    | match goal with
      | |- preserves _ (let _ := _ in _) => progress cbv zeta
      | |- preserves _ (if ?b then _ else _) => destruct b
      | |- preserves _ (let '(_, _) := ?p in _) => destruct p
      | |- preserves _ (match ?p with _ => _ end) => destruct p
      end ].

Lemma keeps_non_search (env : Env) (t : Task) :
  is_search (task_req t) = false -> preserves removals (run_handler env t).
Proof.
  destruct t as [event []]; simpl; [|done|..]; intros _;
    unfold sleep_handler, uniq_handler, sort_handler, get_file_completion_handler,
      get_users_handler, filter_handler, fuzzywuzzy_handler;
    walk_frame; unfold completion_directory; walk_frame;
    unfold completion_entry; walk_frame.
Qed.

(** The search handler does remove its event, on every exit but the one
    of its first poll. *)
Lemma search_handler_removes (env : Env) (o : nat -> bool) (event : Event) (ctx : Ctx)
    (opts : SearchOpts) (x : string) (buf : list string) :
  o 0%nat = false ->
  removals (snd (handler_run env o (mkTask event (ReqSearch ctx opts x buf)))) = [event].
Proof.
  intros Ho. unfold handler_run, run_handler, task_req, task_event, search_handler.
  unfold bind at 1, event_is_set, hstate0. cbn [polls]. rewrite Ho.
  unfold try_finally.
  match goal with |- context [try_except ?b ?c ?h o ?s] =>
    pose proof (fun Hk : preserves removals (try_except b c h) => Hk o s) as Hk;
    destruct (try_except b c h o s) as [r s']
  end.
  simpl in *. rewrite Hk; [done|]. walk_frame.
Qed.

(** C3 (the code falls short of it). For every handler and every
    schedule of cancellations, a poll that finds the event set is the
    last poll and nothing has been put on the queue. If it is the first
    poll, the call returns. If it is a later poll, the call returns for
    every handler but the search handler: there the [finally] clause
    still runs [self.events.remove(event)], and the call ends with
    [ValueError] when the event is no longer pending. It never is, at any
    moment of the plugin, once it is set: the admission that sets an
    event has taken it out of the pending set before. *)
Theorem cancelled_never_emits (env : Env) (o : nat -> bool) (t : Task)
    (evs : list Event) :
  let run := handler_run env o t in
  (o 0%nat = true -> run = (Return_, mkHstate 1 [] []) /\ call_end evs run = Return_)
  /\ (forall k : nat,
        (k < polls (snd run))%nat -> o k = true ->
        emitted (snd run) = [] /\ polls (snd run) = S k
        /\ (is_search (task_req t) = false -> call_end evs run = Return_)
        /\ (is_search (task_req t) = true -> (0 < k)%nat ->
            (task_event t ∉ evs ->
             call_end evs run = Raise (mkExn ValueError "list.remove(x): x not in list"))
            /\ (task_event t ∈ evs -> call_end evs run = Return_)))
  /\ (forall w : Runtime,
        reachable env w -> is_set w (task_event t) = true ->
        task_event t ∉ events (self w)).
Proof.
  intros run. split_and!.
  - intros Ho. unfold run. by rewrite (handler_run_cancelled_first env o t Ho).
  - intros k Hk Hset.
    destruct (cancel_ok_run_handler env t o hstate0 (quiet_hstate0 o) k Hk Hset)
      as (Hret & Hem & Hpolls).
    fold (handler_run env o t) in Hret, Hem, Hpolls. fold run in Hret, Hem, Hpolls.
    split_and!; [done|done| |].
    + intros Hns. unfold call_end. fold (handler_run env o t).
      assert (removals (snd run) = []) as ->; [|done].
      unfold run, handler_run. by rewrite (keeps_non_search env t Hns).
    + intros Hs Hpos.
      assert (o 0%nat = false) as Ho.
      { destruct (o 0%nat) eqn:Ho; [|done].
        unfold run in Hpolls. rewrite (handler_run_cancelled_first env o t Ho) in Hpolls.
        simpl in Hpolls. lia. }
      assert (removals (snd run) = [task_event t]) as Hrm.
      { unfold run. destruct t as [event []]; try done. by apply search_handler_removes. }
      unfold call_end. rewrite Hrm. simpl. split.
      * intros Hnin. by rewrite (list_remove_absent _ _ Hnin).
      * intros Hin. by destruct (list_remove_present _ _ Hin) as [l' ->].
  - intros w Hr Hset Hin.
    destruct (pending_ok_reachable env w Hr) as (_ & Hev & _).
    destruct (Hev _ Hin) as [_ Hnf].
    unfold is_set in Hset. by apply bool_decide_eq_true in Hset.
Qed.

(** The run of the example: a search is admitted and passes its first
    poll; a request with run id 2 is admitted, which takes the event of
    the search out of the pending set and sets it; the search finds its
    event set at its second poll. Nothing is put, and the call ends with
    [ValueError]. *)
Lemma cancelled_never_emits_witness :
  let request := ReqSearch (mk_ctx 1 0) search_opts "ab" ["ab"] in
  let w1 := fst (run_in_background (fst (init boot 2)) request) in
  let w2 := fst (run_in_background w1 (ReqUniq (mk_ctx 2 0) ["b"])) in
  let run := handler_run demo_env (fun k => Nat.eqb k 1) (mkTask 0%nat request) in
  events (self w1) = [0%nat]
  /\ is_set w2 0%nat = true
  /\ events (self w2) = [1%nat]
  /\ emitted (snd run) = []
  /\ polls (snd run) = 2%nat
  /\ call_end (events (self w2)) run
     = Raise (mkExn ValueError "list.remove(x): x not in list")
  /\ snd (commit w2 run) = Some (mkExn ValueError "list.remove(x): x not in list").
Proof.
  intros request w1 w2 run.
  destruct (proj1 (proj2 (cancelled_never_emits demo_env (fun k => Nat.eqb k 1)
                            (mkTask 0%nat request) (events (self w2))))
              1%nat) as (Hem & Hpolls & _ & Hsearch).
  { vm_compute. apply le_n. }
  { reflexivity. }
  split_and!; [reflexivity|reflexivity|reflexivity|exact Hem|exact Hpolls| |reflexivity].
  apply (Hsearch eq_refl); [lia|]. vm_compute. by intros [=]%list_elem_of_singleton.
Defined.

(** C6 (the code falls short of it). A handler other than the search
    handler never touches the pending set: whatever way it ends, the
    events pending before its run are pending after it. *)
Theorem token_stays_pending (env : Env) (w : Runtime) (o : nat -> bool) (t : Task) :
  is_search (task_req t) = false ->
  removals (snd (handler_run env o t)) = []
  /\ events (self (fst (commit w (handler_run env o t)))) = events (self w).
Proof.
  intros Hns.
  assert (removals (snd (handler_run env o t)) = []) as Hr.
  { unfold handler_run. by rewrite (keeps_non_search env t Hns). }
  split; [done|]. unfold commit. by rewrite Hr.
Qed.

(** The uniq handler of an admitted request runs to its end and puts its
    result on the queue; its token, event 0, is still pending. *)
Lemma token_stays_pending_witness :
  let w := fst (run_task bare_env uniq_pending (mkTask 0%nat uniq_request)) in
  events (self uniq_pending) = [0%nat]
  /\ queue (self w) = [entry2 (mk_ctx 1 0) (str_list ["b"; "a"])]
  /\ events (self w) = [0%nat].
Proof.
  intros w. split; [reflexivity|]. split; [reflexivity|].
  exact (proj2 (token_stays_pending bare_env uniq_pending
                  (fun _ => is_set uniq_pending 0%nat) (mkTask 0%nat uniq_request)
                  eq_refl)).
Defined.

(** ** Failures *)

(** C8 (the code falls short of it). When the import of [fuzzywuzzy.fuzz]
    fails, the fuzzy-match handler puts exactly one reject entry on the
    queue, and its message carries the prefix of the filter operation:
    the entry is the one the filter handler puts when the import of its
    engine fails with the same error. *)
Theorem fuzzywuzzy_failure_prefix (env : Env) (o : nat -> bool) (event : Event) (ctx : Ctx)
    (candidates : list string) (query : string) (partial : option bool) (e : exn) :
  o 0%nat = false ->
  import_fuzzywuzzy env = inl e ->
  handler_run env o (mkTask event (ReqFuzzywuzzy ctx candidates query partial))
  = (Val tt, mkHstate 1 [entry3 ctx (PStr ("python_filter: " +:+ exn_msg e)) "reject"] [])
  /\ forall pattern engine has_file_args,
       import_module env engine = inl e ->
       handler_run env o
         (mkTask event (ReqFilter ctx pattern candidates engine has_file_args))
       = handler_run env o (mkTask event (ReqFuzzywuzzy ctx candidates query partial)).
Proof.
  intros Ho He.
  assert (handler_run env o (mkTask event (ReqFuzzywuzzy ctx candidates query partial))
          = (Val tt, mkHstate 1 [reject ctx "python_filter: " e] [])) as Hf.
  { unfold handler_run, run_handler, task_req, fuzzywuzzy_handler.
    unfold bind at 1, event_is_set, hstate0. cbn [polls]. rewrite Ho.
    unfold try_except, bind, lift. by rewrite He. }
  split; [exact Hf|].
  intros pattern engine hfa Hi. rewrite Hf.
  unfold handler_run, run_handler, task_req, filter_handler.
  unfold bind at 1, event_is_set, hstate0. cbn [polls]. rewrite Ho.
  unfold try_except, bind, lift. by rewrite Hi.
Qed.

(** On a machine without [fuzzywuzzy], the failure of the fuzzy-match
    handler reads as one of the filter operation. *)
Lemma fuzzywuzzy_failure_prefix_witness :
  handler_run bare_env (fun _ => false)
    (mkTask 0%nat (ReqFuzzywuzzy (mk_ctx 1 0) ["a"] "a" None))
  = (Val tt,
     mkHstate 1
       [entry3 (mk_ctx 1 0) (PStr "python_filter: No module named 'fuzzywuzzy'") "reject"]
       []).
Proof.
  exact (proj1 (fuzzywuzzy_failure_prefix bare_env (fun _ => false) 0%nat (mk_ctx 1 0)
                  ["a"] "a" None (no_module "fuzzywuzzy") eq_refl eq_refl)).
Defined.

(** The other handlers name their own operation. *)
Lemma sibling_failure_prefixes (env : Env) (o : nat -> bool) (event : Event) (ctx : Ctx)
    (e : exn) :
  o 0%nat = false ->
  (forall opts x buf,
      import_module env (default "re" (opt_engine opts)) = inl e ->
      emitted (snd (handler_run env o (mkTask event (ReqSearch ctx opts x buf))))
      = [reject ctx "python_search: " e])
  /\ (forall expand_arg expand_type,
        getpwall env = inl e ->
        emitted (snd (handler_run env o (mkTask event (ReqUsers ctx expand_arg expand_type))))
        = [reject ctx "python_get_users: " e])
  /\ (forall pattern candidates engine has_file_args,
        import_module env engine = inl e ->
        emitted (snd (handler_run env o
                        (mkTask event (ReqFilter ctx pattern candidates engine has_file_args))))
        = [reject ctx "python_filter: " e]).
Proof.
  intros Ho. split_and!; intros;
    unfold handler_run, run_handler, task_req, task_event,
      search_handler, get_users_handler, filter_handler;
    unfold bind at 1, event_is_set, hstate0; cbn [polls]; rewrite Ho;
    unfold try_finally, try_except, bind, lift.
  - destruct (opt_engine opts); simpl in *; by rewrite H0.
  - by rewrite H0.
  - by rewrite H0.
Qed.

(** ** The empty search pattern *)

Lemma opts_val_not_ctx (opts : SearchOpts) (ctx : Ctx) : opts_val opts <> ctx_val ctx.
Proof.
  unfold opts_val, ctx_val. destruct (opt_engine opts), (opt_max_candidates opts);
    simpl; discriminate.
Qed.

(** C9 (the code falls short of it). A search with the empty pattern does
    bypass the scheduler: it raises nothing, leaves the plugin object and
    the events as they are, and makes one call to the host, a resolve
    with the empty list. The context of that call is [args[1]], the
    options of the request, which is never the request's context
    [args[0]]. *)
Theorem empty_search_resolves_options (env : Env) (w : Runtime) (ctx : Ctx)
    (opts : SearchOpts) :
  let r := search env w ctx opts "" in
  snd r = None
  /\ self (fst r) = self w
  /\ created (fst r) = created w
  /\ flagged (fst r) = flagged w
  /\ host_calls (fst r)
     = host_calls w ++ [mkCall "wilder#pipeline#resolve" (opts_val opts) (PList [])]
  /\ opts_val opts <> ctx_val ctx.
Proof.
  intros r. split_and!; try reflexivity. apply opts_val_not_ctx.
Qed.

(** The request of context [{run_id: 1, step: 0, handler_id: 7}] and
    options [{}] with the empty pattern: the host is called with [{}] in
    the place of the context. *)
Lemma empty_search_example :
  host_calls (fst (search bare_env (fst (init boot 2)) search_ctx search_opts ""))
  = [mkCall "wilder#pipeline#resolve" (PDict []) (PList [])]
  /\ ctx_val search_ctx
     = PDict [("run_id", PInt 1); ("step", PInt 0); ("handler_id", PInt 7)].
Proof. split; reflexivity. Qed.

(** ** Capture spans *)

Lemma utf8_encode_cp_length (cp : N) (bs : list N) :
  utf8_encode_cp cp = inr bs -> length bs = utf8_width cp.
Proof.
  unfold utf8_encode_cp, utf8_width.
  repeat case_match; intros [= <-]; reflexivity.
Qed.

Lemma encode_utf8_app (s1 s2 : ustr) (bs : list N) :
  encode_utf8 (s1 ++ s2) = inr bs ->
  exists b1 b2, encode_utf8 s1 = inr b1 /\ encode_utf8 s2 = inr b2 /\ bs = b1 ++ b2.
Proof.
  revert bs; induction s1 as [|cp s1 IH]; intros bs; simpl.
  - intros ->. by exists [], bs.
  - destruct (utf8_encode_cp cp) as [e|b]; [done|].
    destruct (encode_utf8 (s1 ++ s2)) as [e|bs'] eqn:Hr; [done|].
    intros [= <-]. destruct (IH bs' eq_refl) as (b1 & b2 & -> & -> & ->).
    exists (b ++ b1), b2. by rewrite app_assoc.
Qed.

Lemma encode_utf8_length (s : ustr) (bs : list N) :
  encode_utf8 s = inr bs -> length bs = list_sum (map utf8_width s).
Proof.
  revert bs; induction s as [|cp s IH]; intros bs; simpl.
  - by intros [= <-].
  - destruct (utf8_encode_cp cp) as [e|b] eqn:Hcp; [done|].
    destruct (encode_utf8 s) as [e|bs']; [done|].
    intros [= <-]. rewrite length_app, (utf8_encode_cp_length _ _ Hcp), (IH bs' eq_refl).
    done.
Qed.

Lemma utf8_len_take (s : ustr) (bs : list N) (k : Z) :
  encode_utf8 s = inr bs -> utf8_len (take (Z.to_nat k) s) = inr (byte_offset s k).
Proof.
  intros He. rewrite <- (take_drop (Z.to_nat k) s) in He.
  destruct (encode_utf8_app _ _ _ He) as (b1 & b2 & H1 & _ & _).
  unfold utf8_len, byte_offset. rewrite H1. by rewrite (encode_utf8_length _ _ H1).
Qed.

Lemma utf8_len_slice (s : ustr) (bs : list N) (a b : Z) :
  encode_utf8 s = inr bs -> 0 <= a <= b ->
  utf8_len (drop (Z.to_nat a) (take (Z.to_nat b) s))
  = inr (byte_offset s b - byte_offset s a).
Proof.
  intros He Hab.
  rewrite <- (take_drop (Z.to_nat b) s) in He.
  destruct (encode_utf8_app _ _ _ He) as (b1 & _ & H1 & _ & _).
  rewrite <- (take_drop (Z.to_nat a) (take (Z.to_nat b) s)) in H1.
  destruct (encode_utf8_app _ _ _ H1) as (c1 & c2 & Hc1 & Hc2 & _).
  unfold utf8_len, byte_offset. rewrite Hc2, (encode_utf8_length _ _ Hc2).
  f_equal.
  rewrite <- (take_drop (Z.to_nat a) (take (Z.to_nat b) s)) at 2.
  rewrite map_app, list_sum_app, take_take.
  replace (Z.to_nat a `min` Z.to_nat b)%nat with (Z.to_nat a) by lia. lia.
Qed.

Lemma captures_loop_spec (m : Match) (s : ustr) (bs : list N) (groups : list nat)
    (captures : list (Z * Z)) :
  encode_utf8 s = inr bs ->
  (forall i, i ∈ groups -> m_start m i <> -1 -> m_end m i <> -1 ->
             0 <= m_start m i <= m_end m i) ->
  captures_loop m s groups captures = inr (captures ++ omap (group_span m s) groups).
Proof.
  intros He. revert captures. induction groups as [|i groups IH]; intros captures Hwf; simpl.
  - by rewrite app_nil_r.
  - assert (forall j, j ∈ groups -> m_start m j <> -1 -> m_end m j <> -1 ->
                      0 <= m_start m j <= m_end m j) as Hwf'.
    { intros j Hj. apply Hwf. by apply list_elem_of_further. }
    unfold group_span at 1.
    destruct ((m_start m i =? -1) || (m_end m i =? -1) || (m_start m i =? m_end m i))
      eqn:Hskip.
    + by apply IH.
    + apply orb_false_iff in Hskip as [[H1 H2]%orb_false_iff H3].
      apply Z.eqb_neq in H1, H2, H3.
      specialize (Hwf i (list_elem_of_here _ _) H1 H2).
      rewrite (utf8_len_take s bs _ He), (utf8_len_slice s bs _ _ He Hwf).
      rewrite IH by done. rewrite <- app_assoc. simpl. do 4 f_equal. lia.
Qed.

(** C5 (amended). [extract_captures] matches the pattern at the start of
    the string only ([re.match]). It returns the empty list when the
    pattern does not match there or no group took part; otherwise, for a
    string that UTF-8 can encode, it returns in group order the
    end-inclusive byte spans of the groups numbered 1 to [lastindex] that
    took part in the match and are not empty. *)
Theorem extract_captures_spans (env : Env) (pattern string : ustr) (name : String.string) :
  extract_captures env pattern string None = extract_captures env pattern string (Some "re")
  /\ (module_match env name pattern string = inr None ->
      extract_captures env pattern string (Some name) = inr [])
  /\ (forall m : Match,
        module_match env name pattern string = inr (Some m) ->
        lastindex m = None ->
        extract_captures env pattern string (Some name) = inr [])
  /\ (forall (m : Match) (n : nat) (bs : list N),
        module_match env name pattern string = inr (Some m) ->
        lastindex m = Some n ->
        encode_utf8 string = inr bs ->
        (forall i : nat, (1 <= i <= n)%nat -> m_start m i <> -1 -> m_end m i <> -1 ->
                         0 <= m_start m i <= m_end m i) ->
        extract_captures env pattern string (Some name)
        = inr (omap (group_span m string) (seq 1 n))).
Proof.
  split_and!.
  - reflexivity.
  - intros Hm. unfold extract_captures. by rewrite Hm.
  - intros m Hm Hl. unfold extract_captures. by rewrite Hm, Hl.
  - intros m n bs Hm Hl He Hwf. unfold extract_captures. rewrite Hm, Hl.
    destruct n as [|n]; [done|].
    rewrite (captures_loop_spec m string bs _ [] He); [done|].
    intros i Hi. apply Hwf. apply list_elem_of_In, in_seq in Hi. lia.
Qed.

(** At the start of ["abcdyy"] the pattern ["(ab)(cd)"] matches, and the
    spans are those of ["ab"] and ["cd"]. *)
Lemma extract_captures_spans_witness :
  extract_captures bare_env (ustr_of "(ab)(cd)") (ustr_of "abcdyy") (Some "re")
  = inr [(0, 1); (2, 3)].
Proof.
  refine (proj2 (proj2 (proj2
            (extract_captures_spans bare_env (ustr_of "(ab)(cd)") (ustr_of "abcdyy") "re")))
            (MiniRe.match_object
               (MiniRe.mkMstate [(2, (2, 4)); (1, (0, 2))]%nat (Some 2%nat)))
            2%nat (ustr_of "abcdyy") eq_refl eq_refl eq_refl _).
  intros i Hi _ _.
  destruct i as [|[|[|i]]]; [lia|vm_compute; split; discriminate..|lia].
Defined.

(** C5, as stated, fails on its own example: ["(ab)(cd)"] does not match
    at the start of ["xxabcdyy"], and the result is empty. *)
Lemma extract_captures_counterexample :
  extract_captures bare_env (ustr_of "(ab)(cd)") (ustr_of "xxabcdyy") None = inr []
  /\ extract_captures bare_env (ustr_of "(ab)(cd)") (ustr_of "xxabcdyy") None
     <> inr [(2, 3); (4, 5)].
Proof. split; [reflexivity|discriminate]. Qed.

(** ** File completion *)

Lemma insert_by_elem {A : Type} (le : A -> A -> bool) (x y : A) (l : list A) :
  x ∈ insert_by le y l <-> x = y \/ x ∈ l.
Proof.
  induction l as [|z l IH]; simpl.
  - rewrite list_elem_of_singleton. split; [auto|]. intros [H|H]; [done|].
    by apply elem_of_nil in H.
  - destruct (le y z); rewrite !elem_of_cons; [done|]. rewrite IH. tauto.
Qed.

Lemma sorted_by_elem {A : Type} (le : A -> A -> bool) (x : A) (l : list A) :
  x ∈ sorted_by le l <-> x ∈ l.
Proof.
  induction l as [|y l IH]; simpl; [done|].
  rewrite insert_by_elem, elem_of_cons, IH. done.
Qed.

Lemma for_fold_inv {A S : Type} (P : S -> Prop) (l : list A) (body : A -> S -> H S) :
  (forall a acc o s acc' s', a ∈ l -> P acc -> body a acc o s = (Val acc', s') -> P acc') ->
  forall acc o s acc' s', P acc -> for_fold l acc body o s = (Val acc', s') -> P acc'.
Proof.
  induction l as [|a l IH]; intros Hb acc o s acc' s' HP; simpl.
  - by intros [= <- _].
  - assert (forall a0 acc0 o0 s0 acc0' s0', a0 ∈ l -> P acc0 ->
              body a0 acc0 o0 s0 = (Val acc0', s0') -> P acc0') as Hb'.
    { intros a0 ? ? ? ? ? Hin. apply Hb. by apply list_elem_of_further. }
    destruct (body a acc o s) as [[acc1| | |e] s1] eqn:Hrun; try done.
    + apply (IH Hb'). eapply Hb; [apply list_elem_of_here|done|done].
    + by apply (IH Hb').
Qed.

(** The hidden rule, one entry at a time: the entry's text joins the
    result only if it is not hidden or hidden entries are shown. *)
Lemma completion_entry_inv (env : Env) (expand_type : string) (has_wildcard : bool)
    (path_prefix directory : string) (wildignore_list : list string)
    (show_hidden : bool) (pattern : string) (entry : DirEntry) (res : list string)
    (o : nat -> bool) (s : hstate) (res' : list string) (s' : hstate) :
  completion_entry env expand_type has_wildcard path_prefix directory wildignore_list
    show_hidden pattern entry res o s = (Val res', s') ->
  res' = res
  \/ ((startswith (name entry) "." = true -> show_hidden = true)
      /\ (res' = res ++ [shown has_wildcard entry]
          \/ res' = res ++ [shown has_wildcard entry +:+ sep])).
Proof.
  unfold completion_entry, try_except, bind, event_is_set, lift, ret, continue, return_,
    raise, shown.
  destruct (o (polls s)); [done|].
  destruct (startswith (name entry) ".") eqn:Hdot, show_hidden; simpl;
    try done;
    repeat (case_match; simplify_eq; try done);
    intros; simplify_eq; try (by left); right; (split; [done|]); auto.
Qed.

Lemma completion_directory_inv (env : Env) (expand_arg expand_type : string)
    (has_wildcard : bool) (path_prefix : string) (wildignore_list directories : list string)
    (directory : string) (res : list string) (o : nat -> bool) (s : hstate)
    (res' : list string) (s' : hstate) :
  directory ∈ directories ->
  (forall f, f ∈ res -> visible_entry env has_wildcard directories expand_arg f) ->
  completion_directory env expand_arg expand_type has_wildcard path_prefix wildignore_list
    directory res o s = (Val res', s') ->
  forall f, f ∈ res' -> visible_entry env has_wildcard directories expand_arg f.
Proof.
  intros Hd HP. unfold completion_directory, bind at 1, event_is_set.
  destruct (o (polls s)); [done|].
  destruct (String.eqb directory ""); [done|].
  set (P := fun r : list string =>
              forall f, f ∈ r -> visible_entry env has_wildcard directories expand_arg f).
  assert (forall show_hidden pattern it o1 s1,
             (forall e, e ∈ it -> e ∈ listing env has_wildcard directory expand_arg) ->
             show_hidden = startswith (typed_tail has_wildcard directory expand_arg) "." ->
             for_fold it res
               (completion_entry env expand_type has_wildcard path_prefix directory
                  wildignore_list show_hidden pattern) o1 s1 = (Val res', s') ->
             P res') as Hloop.
  { intros show_hidden pattern it o1 s1 Hit Hsh.
    apply (for_fold_inv P); [|exact HP].
    intros entry acc o2 s2 acc' s2' Hin Hacc Hrun f Hf.
    destruct (completion_entry_inv _ _ _ _ _ _ _ _ _ _ _ _ _ _ Hrun)
      as [->|[Hhid Hres]]; [by apply Hacc|].
    assert (f ∈ acc \/ f = shown has_wildcard entry
            \/ f = shown has_wildcard entry +:+ sep) as [Hold|Hnew].
    { destruct Hres as [-> | ->]; apply elem_of_app in Hf as [Hf|Hf%list_elem_of_singleton];
        auto. }
    - by apply Hacc.
    - exists directory, entry. split_and!; [done|by apply Hit| |done].
      intros Hdot. rewrite <- Hsh. by apply Hhid. }
  unfold bind. destruct has_wildcard.
  - simpl. apply Hloop; [done|done].
  - unfold typed_tail, listing in Hloop. simpl in Hloop.
    destruct (os_path_split (os_path_join directory expand_arg)) as [head tail] eqn:Hsplit.
    simpl in Hloop. unfold try_except, bind, lift.
    destruct (scandir env head) as [e|it]; simpl.
    + by destruct (is_FileNotFoundError e).
    + apply Hloop; [done|done].
Qed.

Lemma map_PStr_inj (l1 l2 : list string) : map PStr l1 = map PStr l2 -> l1 = l2.
Proof.
  revert l2. induction l1 as [|a l1 IH]; intros [|b l2]; simpl; try done.
  intros [= -> Heq]. f_equal. by apply IH.
Qed.

Lemma completion_result_elem (expand_arg : string) (has_wildcard : bool)
    (res : list string) (c : string) :
  c ∈ completion_result expand_arg has_wildcard res ->
  c = "./" \/ c = "../" \/ exists f, f ∈ res /\ c = with_head has_wildcard expand_arg f.
Proof.
  unfold completion_result, insert0, with_head.
  set (head := os_path_dirname expand_arg).
  assert (c ∈ (if negb has_wildcard
               then map (fun f => if negb (String.eqb head "")
                                  then os_path_join head f else f) (sorted res)
               else sorted res) ->
          exists f, f ∈ res /\
            c = (if negb has_wildcard && negb (String.eqb head "")
                 then os_path_join head f else f)) as Hmain.
  { destruct has_wildcard; simpl.
    - intros Hc%sorted_by_elem. eauto.
    - intros (f & -> & Hf%sorted_by_elem)%list_elem_of_fmap. eauto. }
  destruct (String.eqb expand_arg "."); [|destruct (String.eqb expand_arg "..")].
  - intros [->|[->|Hc]%elem_of_cons]%elem_of_cons; auto.
  - intros [->|Hc]%elem_of_cons; auto.
  - auto.
Qed.

(** What the handler puts on success: the result of the lines after the
    loops, applied to texts of entries the hidden rule lets through. *)
Lemma file_completion_emitted (env : Env) (o : nat -> bool) (event : Event) (ctx : Ctx)
    (working_directory expand_arg expand_type : string) (has_wildcard : bool)
    (path_prefix : string) (directories : list string) (wildignore_opt : string)
    (res : list string) :
  entry2 ctx (str_list res)
    ∈ emitted (snd (handler_run env o
                      (mkTask event
                         (ReqFileCompletion ctx working_directory expand_arg expand_type
                            has_wildcard path_prefix directories wildignore_opt)))) ->
  exists res0,
    res = completion_result expand_arg has_wildcard res0
    /\ forall f, f ∈ res0 -> visible_entry env has_wildcard directories expand_arg f.
Proof.
  unfold handler_run, run_handler, task_req, get_file_completion_handler.
  unfold bind at 1, event_is_set, hstate0. cbn [polls emitted removals].
  destruct (o 0%nat).
  { simpl. by intros ?%elem_of_nil. }
  unfold try_except, bind.
  set (s1 := mkHstate 1 [] []).
  set (body := completion_directory env expand_arg expand_type has_wildcard path_prefix
                 (split "," wildignore_opt)).
  assert (preserves emitted (for_fold directories [] body)) as Hsilent.
  { unfold body. apply preserves_for_fold. intros. unfold completion_directory.
    walk_frame. }
  specialize (Hsilent o s1).
  destruct (for_fold directories [] body o s1) as [[res0| | |e] s2] eqn:Hrun;
    simpl in *; rewrite ?Hsilent; simpl.
  - intros [= Heq%map_PStr_inj]%list_elem_of_singleton.
    exists res0. split; [done|].
    eapply (for_fold_inv
              (fun r => forall f, f ∈ r ->
                          visible_entry env has_wildcard directories expand_arg f)
              directories body); [| |exact Hrun].
    + intros d acc o1 s3 acc' s3' Hd Hacc Hstep.
      by eapply completion_directory_inv.
    + by intros ? ?%elem_of_nil.
  - by intros ?%elem_of_nil.
  - by intros ?%elem_of_nil.
  - by intros [=]%list_elem_of_singleton.
Qed.

(** * Further properties *)

(** ** What no move undoes *)

Lemma run_in_background_host_calls (w : Runtime) (r : Request) :
  host_calls (fst (run_in_background w r)) = host_calls w.
Proof.
  unfold run_in_background, admit_locked. simpl.
  destruct (_ <? _); [done|]. rewrite cancel_pending_spec. simpl.
  by destruct (executor (self w)).
Qed.

Lemma step_monotone (env : Env) (w w' : Runtime) :
  step env w w' ->
  flagged w ⊆ flagged w'
  /\ (created w <= created w')%nat
  /\ run_id (self w) <= run_id (self w')
  /\ host_calls w `prefix_of` host_calls w'.
Proof.
  assert (forall w0 r,
             flagged w0 ⊆ flagged (fst (run_in_background w0 r))
             /\ (created w0 <= created (fst (run_in_background w0 r)))%nat
             /\ run_id (self w0) <= run_id (self (fst (run_in_background w0 r)))
             /\ host_calls w0 `prefix_of` host_calls (fst (run_in_background w0 r)))
    as Hsub.
  { intros w0 r. rewrite run_in_background_run_id, run_in_background_host_calls.
    destruct (run_in_background_events w0 r) as [Hc [(_ & _ & Hf)|(_ & _ & Hf)]];
      rewrite Hc, Hf; split_and!; try done; try lia.
    apply union_subseteq_r. }
  intros Hstep. destruct Hstep as [w n|w r|w ctx opts x|w oracle t|w k w' Hc].
  - unfold init. destruct (has_init (self w)); [by split_and!|].
    destruct (ThreadPoolExecutor_new n); by split_and!.
  - apply Hsub.
  - unfold search. destruct (String.eqb x ""); [|apply Hsub].
    simpl. split_and!; try done. by apply prefix_app_r.
  - unfold commit. destruct (apply_removals _ _). by split_and!.
  - unfold consumer_cycle_upto in Hc. destruct (queue (self w)); [done|].
    injection Hc as <-. unfold deliver.
    destruct (qe_command _); simpl; split_and!; try done; by apply prefix_app_r.
Qed.

(** X1. Nothing the plugin does is ever undone by a later move: an event
    that is set stays set, the count of constructed events and the
    tracked run id never decrease, and the calls made to the host are
    only ever extended. *)
Theorem never_undone (env : Env) (w w' : Runtime) :
  rtc (step env) w w' ->
  flagged w ⊆ flagged w'
  /\ (created w <= created w')%nat
  /\ run_id (self w) <= run_id (self w')
  /\ host_calls w `prefix_of` host_calls w'.
Proof.
  intros Hr. revert w' Hr.
  apply (rtc_ind_r
           (fun w' => flagged w ⊆ flagged w'
                      /\ (created w <= created w')%nat
                      /\ run_id (self w) <= run_id (self w')
                      /\ host_calls w `prefix_of` host_calls w') w).
  - by split_and!.
  - intros y z _ Hstep (H1 & H2 & H3 & H4).
    destruct (step_monotone env y z Hstep) as (H1' & H2' & H3' & H4').
    split_and!; [set_solver|lia|lia|by etrans].
Qed.

(** From the admission of [uniq_request] to the state after a newer
    admission, a stale submission and a second [init]. *)
Lemma never_undone_witness :
  let w' := fst (init (fst (run_in_background uniq_superseded
                              (ReqUniq (mk_ctx 0 0) []))) 9) in
  flagged uniq_pending ⊆ flagged w'
  /\ (created uniq_pending <= created w')%nat
  /\ run_id (self uniq_pending) <= run_id (self w')
  /\ host_calls uniq_pending `prefix_of` host_calls w'.
Proof.
  intros w'.
  refine (never_undone bare_env uniq_pending w' _).
  eapply rtc_l; [apply step_submit|].
  eapply rtc_l; [apply step_submit|].
  eapply rtc_l; [apply step_init|]. apply rtc_refl.
Defined.

(** ** Before and after [init] *)

(** X2. A submission made before [init] that is not stale raises
    [AttributeError], but only after the block under the lock has run: the
    pending tokens are cancelled, the tracked run id is raised, and the
    fresh token stays registered although no closure holds it. A stale
    submission made before [init] raises nothing. *)
Theorem submit_before_init (w : Runtime) (r : Request) :
  executor (self w) = None ->
  (rid r < run_id (self w) -> run_in_background w r = (dropped w, None))
  /\ (run_id (self w) <= rid r ->
      let w' := fst (run_in_background w r) in
      snd (run_in_background w r)
      = Some (mkExn AttributeError "'NoneType' object has no attribute 'submit'")
      /\ executor (self w') = None
      /\ run_id (self w') = rid r
      /\ events (self w') = [created w]
      /\ flagged w' = list_to_set (events (self w)) ∪ flagged w).
Proof.
  intros Hex. split.
  - apply run_in_background_stale.
  - intros Hge. unfold run_in_background, admit_locked, rid in *. simpl.
    rewrite (proj2 (Z.ltb_ge _ _) Hge), cancel_pending_spec. simpl.
    by rewrite Hex.
Qed.

(** The first submission to a plugin that was constructed and never
    initialised. *)
Lemma submit_before_init_witness :
  let w' := fst (run_in_background boot uniq_request) in
  snd (run_in_background boot uniq_request)
  = Some (mkExn AttributeError "'NoneType' object has no attribute 'submit'")
  /\ executor (self w') = None
  /\ run_id (self w') = 1
  /\ events (self w') = [0%nat]
  /\ flagged w' = list_to_set (events (self boot)) ∪ flagged boot.
Proof.
  refine (proj2 (submit_before_init boot uniq_request eq_refl) _).
  vm_compute. discriminate.
Defined.

(** X3. A first [init] with a number of workers that is not positive
    raises [ValueError] after the flag is set, so it cannot be repeated:
    at every later moment the plugin still has no pool and no consumer
    thread, and a further [init], whatever its options, does nothing. *)
Theorem failed_init_is_final (env : Env) (w : Runtime) (n : Z) (w' : Runtime) :
  has_init (self w) = false ->
  executor (self w) = None ->
  n <= 0 ->
  rtc (step env) (fst (init w n)) w' ->
  snd (init w n) = Some (mkExn ValueError "max_workers must be greater than 0")
  /\ executor (self w') = None
  /\ consumer_threads w' = consumer_threads w
  /\ forall n', init w' n' = (w', None).
Proof.
  intros Hf Hex Hn Hr.
  pose proof (later_init_view env _ _ Hr (init_sets_flag w n)) as Hv.
  unfold init_view in Hv. injection Hv as Hi Ht Hm.
  revert Hi Ht Hm. unfold init, ThreadPoolExecutor_new.
  rewrite Hf, (proj2 (Z.leb_le _ _) Hn). simpl. rewrite Hex. simpl.
  intros Hi Ht Hm. split_and!; [done| |done|].
  - by destruct (executor (self w')).
  - intros n'. by apply init_noop.
Qed.

(** [init] with no worker, then a submission and an [init] with two. *)
Lemma failed_init_is_final_witness :
  let w' := fst (run_in_background (fst (init boot 0)) uniq_request) in
  snd (init boot 0) = Some (mkExn ValueError "max_workers must be greater than 0")
  /\ executor (self w') = None
  /\ consumer_threads w' = consumer_threads boot
  /\ forall n', init w' n' = (w', None).
Proof.
  intros w'.
  refine (failed_init_is_final bare_env boot 0 w' eq_refl eq_refl _ _).
  - vm_compute. discriminate.
  - eapply rtc_l; [apply step_submit|]. apply rtc_refl.
Defined.

(** ** A superseded closure *)

(** X4. When a request is admitted and another one, not older, is
    admitted before a worker starts the first closure, that closure is
    still in the pool, finds its event set at its first poll and leaves
    the plugin as it is: nothing is put on the queue, the pending set is
    untouched and nothing is raised. *)
Theorem superseded_closure_is_silent (env : Env) (w : Runtime) (ex : ThreadPoolExecutor)
    (r1 r2 : Request) :
  executor (self w) = Some ex ->
  run_id (self w) <= rid r1 ->
  rid r1 <= rid r2 ->
  let w1 := fst (run_in_background w r1) in
  let w2 := fst (run_in_background w1 r2) in
  let t1 := mkTask (created w) r1 in
  executor (self w2) = Some (submit (submit ex t1) (mkTask (S (created w)) r2))
  /\ is_set w2 (created w) = true
  /\ run_task env w2 t1 = (w2, None).
Proof.
  intros Hex H1 H2 w1 w2 t1.
  assert (w1 = admitted w ex r1) as Hw1.
  { unfold w1. by rewrite (run_in_background_admit w ex r1 Hex H1). }
  assert (w2 = admitted w1 (submit ex t1) r2) as Hw2.
  { unfold w2. rewrite (run_in_background_admit w1 (submit ex t1) r2); [done| |].
    - by rewrite Hw1.
    - by rewrite Hw1. }
  assert (is_set w2 (created w) = true) as Hset.
  { unfold is_set. apply bool_decide_eq_true. rewrite Hw2.
    change (flagged (admitted w1 (submit ex t1) r2))
      with (list_to_set (events (self w1)) ∪ flagged w1).
    rewrite Hw1. change (events (self (admitted w ex r1))) with [created w].
    apply elem_of_union_l, elem_of_list_to_set, list_elem_of_here. }
  split_and!; [by rewrite Hw2, Hw1|done|].
  unfold run_task. rewrite handler_run_cancelled_first by done.
  unfold commit. simpl. rewrite app_nil_r. by rewrite Hw2.
Qed.

(** The closure of [uniq_request] after the admission of run id 2. *)
Lemma superseded_closure_is_silent_witness :
  executor (self uniq_superseded)
  = Some (submit (submit (mkExecutor 2 []) (mkTask 0%nat uniq_request))
            (mkTask 1%nat (ReqSort (mk_ctx 2 0) ["z"; "y"])))
  /\ is_set uniq_superseded 0%nat = true
  /\ run_task bare_env uniq_superseded (mkTask 0%nat uniq_request)
     = (uniq_superseded, None).
Proof.
  refine (superseded_closure_is_silent bare_env (fst (init boot 2)) (mkExecutor 2 [])
            uniq_request (ReqSort (mk_ctx 2 0) ["z"; "y"]) eq_refl _ _);
    vm_compute; discriminate.
Defined.

(** ** One answer per run *)

Lemma tidy_ret {A : Type} (a : A) : tidy (ret a).
Proof. intros o s He. left. by split. Qed.

Lemma tidy_continue {A : Type} : tidy (@continue A).
Proof. intros o s He. left. by split. Qed.

Lemma tidy_lift {A : Type} (r : exn + A) : tidy (lift r).
Proof. intros o s He. left. destruct r; by split. Qed.

Lemma tidy_put_return {A : Type} (entry : QueueEntry) :
  tidy (bind (queue_put entry) (fun _ => @return_ A)).
Proof. intros o s He. right. simpl. by rewrite He. Qed.

Lemma tidy_bind {A B : Type} (m : H A) (f : A -> H B) :
  tidy m -> (forall a, tidy (f a)) -> tidy (bind m f).
Proof.
  intros Hm Hf o s He. unfold bind. specialize (Hm o s He).
  destruct (m o s) as [[a| | |e] s']; simpl in *.
  - destruct Hm as [[He' _]|[Hr _]]; [|done]. by apply Hf.
  - destruct Hm as [[He' Hobs]|[_ Hlen]]; [left|right]; auto.
  - destruct Hm as [[He' _]|[Hr _]]; [|done]. left. by split.
  - destruct Hm as [[He' _]|[Hr _]]; [|done]. left. by split.
Qed.

Lemma tidy_guard {A : Type} (m : H A) :
  tidy m -> tidy (bind event_is_set (fun b : bool => if b then return_ else m)).
Proof.
  intros Hm o s He. unfold bind, event_is_set. simpl.
  destruct (o (polls s)) eqn:Ho.
  - left. simpl. split; [done|]. intros _. exists (polls s). simpl. split; [lia|done].
  - by apply Hm.
Qed.

Lemma tidy_try_except {A : Type} (body : H A) (catches : exn -> bool) (h : exn -> H A) :
  tidy body -> (forall e, tidy (h e)) -> tidy (try_except body catches h).
Proof.
  intros Hb Hh o s He. unfold try_except. specialize (Hb o s He).
  destruct (body o s) as [[a| | |e] s']; simpl in *; try exact Hb.
  destruct (catches e); [|exact Hb].
  destruct Hb as [[He' _]|[Hr _]]; [|done]. by apply Hh.
Qed.

Lemma tidy_for_fold {A S : Type} (l : list A) (acc : S) (body : A -> S -> H S) :
  (forall a acc, tidy (body a acc)) -> tidy (for_fold l acc body).
Proof.
  intros Hb. revert acc. induction l as [|a l IH]; intros acc; simpl.
  - apply tidy_ret.
  - intros o s He. specialize (Hb a acc o s He).
    destruct (body a acc o s) as [[acc'| | |e] s']; simpl in *.
    + destruct Hb as [[He' _]|[Hr _]]; [|done]. by apply IH.
    + exact Hb.
    + destruct Hb as [[He' _]|[Hr _]]; [|done]. by apply IH.
    + destruct Hb as [[He' _]|[Hr _]]; [|done]. left. by split.
Qed.

Lemma loop_free_lift {A : Type} (r : exn + A) : loop_free (lift r).
Proof. intros o s. by destruct r. Qed.

Lemma loop_free_for_fold {A S : Type} (l : list A) (acc : S) (body : A -> S -> H S) :
  loop_free (for_fold l acc body).
Proof.
  revert acc. induction l as [|a l IH]; intros acc o s; simpl; [done|].
  destruct (body a acc o s) as [[acc'| | |e] s']; simpl; try done; apply IH.
Qed.

Lemma closing_queue_put (entry : QueueEntry) : closing (queue_put entry).
Proof.
  intros o s He. right; left. simpl. rewrite He. split; [done|]. right. by exists tt.
Qed.

Lemma closing_bind {A B : Type} (m : H A) (f : A -> H B) :
  tidy m -> loop_free m -> (forall a, closing (f a)) -> closing (bind m f).
Proof.
  intros Hm Hl Hf o s He. unfold bind. specialize (Hm o s He). specialize (Hl o s).
  destruct (m o s) as [[a| | |e] s']; simpl in *.
  - destruct Hm as [[He' _]|[Hr _]]; [|done]. by apply Hf.
  - destruct Hm as [[He' Hobs]|[_ Hlen]].
    + left. auto.
    + right; left. auto.
  - done.
  - destruct Hm as [[He' _]|[Hr _]]; [|done]. right; right. eauto.
Qed.

Lemma answers_try_except (body : H unit) (h : exn -> QueueEntry) :
  closing body -> answers (try_except body any_Exception (fun e => queue_put (h e))).
Proof.
  intros Hb o s He. unfold try_except. specialize (Hb o s He).
  destruct (body o s) as [[a| | |e] s']; simpl in *.
  - destruct Hb as [(Hr & _)|[Hb|(_ & e & He')]]; [done|by right|done].
  - destruct Hb as [Hb|[Hb|(_ & e & He')]]; [by left|by right|done].
  - destruct Hb as [(Hr & _)|[(_ & [Hr|[a Hr]])|(_ & e & He')]]; done.
  - destruct Hb as [(Hr & _)|[(_ & [Hr|[a Hr]])|(He' & _)]]; try done.
    right. simpl. rewrite He'. split; [done|]. right. by exists tt.
Qed.

Lemma answers_guard {A : Type} (m : H A) :
  answers m -> answers (bind event_is_set (fun b : bool => if b then return_ else m)).
Proof.
  intros Hm o s He. unfold bind, event_is_set. simpl.
  destruct (o (polls s)) eqn:Ho.
  - left. simpl. split_and!; [done..|]. exists (polls s). simpl. split; [lia|done].
  - by apply Hm.
Qed.

Lemma answers_finally_remove {A : Type} (body : H A) (event : Event) :
  answers body -> answers (try_finally body (events_remove event)).
Proof.
  intros Hb o s He. unfold try_finally, events_remove. specialize (Hb o s He).
  destruct (body o s) as [r s']. exact Hb.
Qed.

Ltac walk_tidy :=
  repeat first
    [ apply tidy_guard
    | apply tidy_put_return
    | apply tidy_ret
    | apply tidy_continue
    | apply tidy_lift
    | apply tidy_for_fold; intros
    | apply tidy_try_except; [|intros]
    | apply tidy_bind; [|intros]
    | match goal with
      | |- tidy (let _ := _ in _) => progress cbv zeta
      | |- tidy (if ?b then _ else _) => destruct b
      | |- tidy (let '(_, _) := ?p in _) => destruct p
      | |- tidy (match ?p with _ => _ end) => destruct p
      end ].

Lemma answers_run_handler (env : Env) (t : Task) :
  is_sleep (task_req t) = false -> answers (run_handler env t).
Proof.
  destruct t as [event [ctx t x|ctx opts x buf|ctx cs|ctx cs
                       |ctx wd ea et hw pp dirs wi|ctx ea et|ctx pat cs eng hf
                       |ctx cs q part]]; simpl; [done|..]; intros _.
  - apply answers_guard, answers_finally_remove, answers_try_except.
    apply closing_bind; [apply tidy_lift|apply loop_free_lift|intros re].
    apply closing_bind; [apply tidy_lift|apply loop_free_lift|intros pattern].
    apply closing_bind; [|apply loop_free_for_fold|intros; apply closing_queue_put].
    walk_tidy.
  - apply answers_guard, answers_try_except, closing_queue_put.
  - apply answers_guard, answers_try_except, closing_queue_put.
  - apply answers_guard, answers_try_except.
    apply closing_bind; [|apply loop_free_for_fold|intros; apply closing_queue_put].
    apply tidy_for_fold. intros. unfold completion_directory. walk_tidy.
  - apply answers_guard, answers_try_except.
    apply closing_bind; [apply tidy_lift|apply loop_free_lift|].
    intros; apply closing_queue_put.
  - apply answers_guard, answers_try_except.
    apply closing_bind; [apply tidy_lift|apply loop_free_lift|intros re].
    apply closing_bind; [apply tidy_lift|apply loop_free_lift|].
    intros; apply closing_queue_put.
  - apply answers_guard, answers_try_except.
    apply closing_bind; [apply tidy_lift|apply loop_free_lift|].
    intros; apply closing_queue_put.
Qed.

(** X5. Every handler but the sleep handler puts at most one tuple,
    whatever the environment and the schedule of cancellations: either a
    poll found its event set and nothing was put on the queue, or exactly
    one tuple was put. The call ends by a [return] or by reaching its end
    and not by an exception, whatever fails in the operation, with one
    exception to this: the search handler past its first poll, whose last
    statement removes its event from the pending set, ends with
    [ValueError] when the event is no longer there. *)
Theorem one_answer_per_run (env : Env) (o : nat -> bool) (t : Task) (evs : list Event) :
  is_sleep (task_req t) = false ->
  let run := handler_run env o t in
  ((emitted (snd run) = [] /\ exists k : nat, (k < polls (snd run))%nat /\ o k = true)
   \/ length (emitted (snd run)) = 1%nat)
  /\ (is_search (task_req t) = false \/ o 0%nat = true \/ task_event t ∈ evs ->
      call_end evs run = Return_ \/ call_end evs run = Val tt)
  /\ (is_search (task_req t) = true -> o 0%nat = false -> task_event t ∉ evs ->
      call_end evs run = Raise (mkExn ValueError "list.remove(x): x not in list")).
Proof.
  intros Hns run.
  assert (fst run = Return_ \/ fst run = Val tt) as Hend.
  { destruct (answers_run_handler env t Hns o hstate0 eq_refl)
      as [(H1 & _)|(_ & [H2|[[] H2]])]; auto. }
  split_and!.
  - destruct (answers_run_handler env t Hns o hstate0 eq_refl)
      as [(_ & H1 & H2)|(H1 & _)]; auto.
  - intros Hcase. unfold call_end.
    destruct (is_search (task_req t)) eqn:Hs.
    + destruct (o 0%nat) eqn:Ho.
      * unfold run in *. by rewrite (handler_run_cancelled_first env o t Ho) in *.
      * destruct Hcase as [|[|Hin]]; [done..|].
        assert (removals (snd run) = [task_event t]) as ->.
        { unfold run. destruct t as [event []]; try done.
          by apply search_handler_removes. }
        simpl. by destruct (list_remove_present _ _ Hin) as [l' ->].
    + assert (removals (snd run) = []) as ->; [|done].
      unfold run, handler_run. by rewrite (keeps_non_search env t Hs).
  - intros Hs Ho Hnin. unfold call_end.
    assert (removals (snd run) = [task_event t]) as ->.
    { unfold run. destruct t as [event []]; try done. by apply search_handler_removes. }
    simpl. by rewrite (list_remove_absent _ _ Hnin).
Qed.

(** The file completion of [/wd] run to its end, and the fuzzy match on a
    machine without the package: one tuple each. *)
Lemma one_answer_per_run_witness :
  (length (emitted (snd (handler_run wd_env (fun _ => false) (wd_completion "" "file"))))
   = 1%nat)
  /\ (length (emitted (snd (handler_run bare_env (fun _ => false)
                              (mkTask 0%nat (ReqFuzzywuzzy (mk_ctx 1 0) ["a"] "a" None)))))
      = 1%nat).
Proof.
  split.
  - destruct (proj1 (one_answer_per_run wd_env (fun _ => false) (wd_completion "" "file")
                       [] eq_refl))
      as [(_ & k & _ & Hk)|H]; [discriminate Hk|exact H].
  - reflexivity.
Defined.

(** ** The tuples of a run *)

Section Emits.

Context (P : QueueEntry -> Prop).

Lemma emits_only_ret {A : Type} (a : A) : emits_only P (ret a).
Proof. by intros o s. Qed.

Lemma emits_only_return {A : Type} : emits_only P (@return_ A).
Proof. by intros o s. Qed.

Lemma emits_only_continue {A : Type} : emits_only P (@continue A).
Proof. by intros o s. Qed.

Lemma emits_only_lift {A : Type} (r : exn + A) : emits_only P (lift r).
Proof. intros o s. by destruct r. Qed.

Lemma emits_only_event_is_set : emits_only P event_is_set.
Proof. by intros o s. Qed.

Lemma emits_only_events_remove (event : Event) : emits_only P (events_remove event).
Proof. by intros o s. Qed.

Lemma emits_only_queue_put (entry : QueueEntry) : P entry -> emits_only P (queue_put entry).
Proof. intros He o s Hs. simpl. apply Forall_app. split; [done|]. by constructor. Qed.

Lemma emits_only_bind {A B : Type} (m : H A) (f : A -> H B) :
  emits_only P m -> (forall a, emits_only P (f a)) -> emits_only P (bind m f).
Proof.
  intros Hm Hf o s Hs. unfold bind. specialize (Hm o s Hs).
  destruct (m o s) as [[a| | |e] s']; simpl in *; try done. by apply Hf.
Qed.

Lemma emits_only_try_except {A : Type} (body : H A) (catches : exn -> bool)
    (h : exn -> H A) :
  emits_only P body -> (forall e, emits_only P (h e)) ->
  emits_only P (try_except body catches h).
Proof.
  intros Hb Hh o s Hs. unfold try_except. specialize (Hb o s Hs).
  destruct (body o s) as [[a| | |e] s']; simpl in *; try done.
  destruct (catches e); [|done]. by apply Hh.
Qed.

Lemma emits_only_try_finally {A : Type} (body : H A) (fin : H unit) :
  emits_only P body -> emits_only P fin -> emits_only P (try_finally body fin).
Proof.
  intros Hb Hf o s Hs. unfold try_finally. specialize (Hb o s Hs).
  destruct (body o s) as [r s']. specialize (Hf o s' Hb).
  by destruct (fin o s') as [[a| | |e] s''].
Qed.

Lemma emits_only_for_fold {A S : Type} (l : list A) (acc : S) (body : A -> S -> H S) :
  (forall a acc, emits_only P (body a acc)) -> emits_only P (for_fold l acc body).
Proof.
  intros Hb. revert acc. induction l as [|a l IH]; intros acc o s Hs; simpl; [done|].
  specialize (Hb a acc o s Hs).
  destruct (body a acc o s) as [[acc'| | |e] s']; simpl in *; try done; by apply IH.
Qed.

End Emits.

Ltac walk_emits :=
  repeat first
    [ apply emits_only_event_is_set
    | apply emits_only_events_remove
    | apply emits_only_ret
    | apply emits_only_return
    | apply emits_only_continue
    | apply emits_only_lift
    | apply emits_only_for_fold; intros
    | apply emits_only_try_except; [|intros]
    | apply emits_only_try_finally
    | apply emits_only_bind; [|intros]
    | match goal with
      | |- emits_only _ (let _ := _ in _) => progress cbv zeta
      | |- emits_only _ (if ?b then _ else _) => destruct b
      | |- emits_only _ (let '(_, _) := ?p in _) => destruct p
      | |- emits_only _ (match ?p with _ => _ end) => destruct p
      | |- emits_only _ (queue_put _) =>
          apply emits_only_queue_put; unfold well_formed_entry, reject, entry2, entry3;
          simpl; eauto 6
      end ].

Lemma emits_only_run_handler (env : Env) (t : Task) :
  is_sleep (task_req t) = false ->
  emits_only (well_formed_entry (req_ctx (task_req t))) (run_handler env t).
Proof.
  destruct t as [event []]; simpl; [done|..]; intros _;
    unfold search_handler, uniq_handler, sort_handler, get_file_completion_handler,
      get_users_handler, filter_handler, fuzzywuzzy_handler;
    walk_emits; unfold completion_directory; walk_emits.
Qed.

(** X6. Every tuple a handler puts carries the context of its own request,
    unchanged. For every handler but the sleep handler the tuple is
    either a list of candidates with no command, which the consumer
    delivers as a resolve, or a message with the command [reject]. *)
Theorem context_passes_through (env : Env) (o : nat -> bool) (t : Task) (e : QueueEntry) :
  e ∈ emitted (snd (handler_run env o t)) ->
  qe_ctx e = req_ctx (task_req t)
  /\ (is_sleep (task_req t) = false -> well_formed_entry (req_ctx (task_req t)) e).
Proof.
  intros He.
  destruct (is_sleep (task_req t)) eqn:Hs.
  - split; [|done].
    destruct t as [event []]; try done. revert He.
    unfold handler_run, run_handler, task_req, sleep_handler, bind, event_is_set, lift,
      hstate0. simpl.
    destruct (o 0%nat); simpl; [by intros ?%elem_of_nil|].
    destruct (time_sleep env t); simpl; [by intros ?%elem_of_nil|].
    by intros ->%list_elem_of_singleton.
  - pose proof (emits_only_run_handler env t Hs o hstate0 (Forall_nil_2 _)) as Hall.
    rewrite Forall_forall in Hall. specialize (Hall e He).
    split; [by destruct Hall|done].
Qed.

(** The tuple of the uniq handler for [uniq_request]. *)
Lemma context_passes_through_witness :
  entry2 (mk_ctx 1 0) (str_list ["b"; "a"])
    ∈ emitted (snd (handler_run bare_env (fun _ => false) (mkTask 0%nat uniq_request)))
  /\ well_formed_entry (mk_ctx 1 0) (entry2 (mk_ctx 1 0) (str_list ["b"; "a"])).
Proof.
  assert (entry2 (mk_ctx 1 0) (str_list ["b"; "a"])
            ∈ emitted (snd (handler_run bare_env (fun _ => false)
                              (mkTask 0%nat uniq_request)))) as Hin.
  { vm_compute. apply list_elem_of_here. }
  split; [exact Hin|].
  exact (proj2 (context_passes_through bare_env (fun _ => false)
                  (mkTask 0%nat uniq_request) _ Hin) eq_refl).
Defined.

(** ** From the submission to the host *)

Lemma commit_queue (w : Runtime) (r : hres unit * hstate) :
  queue (self (fst (commit w r))) = queue (self w) ++ emitted (snd r)
  /\ host_calls (fst (commit w r)) = host_calls w
  /\ flagged (fst (commit w r)) = flagged w.
Proof. unfold commit. by destruct (apply_removals _ _). Qed.

Lemma fresh_event_not_set (env : Env) (w : Runtime) (r : Request) :
  reachable env w ->
  run_id (self w) <= rid r ->
  is_set (fst (run_in_background w r)) (created w) = false.
Proof.
  intros Hr Hge. pose proof (pending_ok_reachable env w Hr) as (_ & Hev & Hfl).
  destruct (run_in_background_events w r) as [_ [(Hlt & _)|(_ & _ & Hf)]]; [lia|].
  unfold is_set. apply bool_decide_eq_false. rewrite Hf.
  intros [Hin%elem_of_list_to_set|Hin]%elem_of_union.
  - destruct (Hev _ Hin). lia.
  - specialize (Hfl _ Hin). lia.
Qed.

(** X7. A request that is not stale and is not a sleep of a length that
    [time.sleep] refuses, submitted to an initialised plugin whose queue
    is empty, whose closure a worker then runs to its end before any
    newer admission, is answered: the next cycle of the consumer, however
    many entries come through for it, makes exactly one call to the host,
    carrying the context of the request, and leaves the queue empty. For
    a sleep request the call is a resolve with the request's own
    argument; for any other request it is a resolve with a candidate list
    or a reject with a message. *)
Theorem request_is_answered (env : Env) (w : Runtime) (ex : ThreadPoolExecutor)
    (r : Request) :
  reachable env w ->
  executor (self w) = Some ex ->
  queue (self w) = [] ->
  run_id (self w) <= rid r ->
  refused env r = false ->
  let w1 := fst (run_in_background w r) in
  let w2 := fst (run_task env w1 (mkTask (created w) r)) in
  exists w3 e,
    consumer_cycle w2 = Some w3
    /\ (forall n, consumer_cycle_upto n w2 = Some w3)
    /\ qe_ctx e = req_ctx r
    /\ (is_sleep r = false -> well_formed_entry (req_ctx r) e)
    /\ (forall ctx t x, r = ReqSleep ctx t x -> e = entry2 ctx x)
    /\ host_calls w3 = host_calls w ++ [delivery e]
    /\ call_ctx (delivery e) = ctx_val (req_ctx r)
    /\ queue (self w3) = [].
Proof.
  intros Hr Hex Hq Hge Hns w1 w2.
  set (t := mkTask (created w) r).
  set (o := fun _ : nat => is_set w1 (task_event t)).
  assert (forall k, o k = false) as Ho.
  { intros k. unfold o, w1. simpl. by eapply fresh_event_not_set. }
  assert (exists e, emitted (snd (handler_run env o t)) = [e]
                    /\ qe_ctx e = req_ctx r
                    /\ (is_sleep r = false -> well_formed_entry (req_ctx r) e)
                    /\ (forall ctx t x, r = ReqSleep ctx t x -> e = entry2 ctx x))
    as (e & Hem & Hctx & Hwf & Hsl).
  { destruct (is_sleep r) eqn:Hs.
    - destruct r as [ctx len x| | | | | | |]; try done.
      exists (entry2 ctx x). simpl in Hns.
      unfold handler_run, run_handler, t, task_req, sleep_handler, bind, event_is_set,
        lift, hstate0. simpl. rewrite Ho.
      destruct (time_sleep env len) as [e|[]]; [done|]. simpl.
      split_and!; [done|done|done|]. by intros ? ? ? [= <- _ <-].
    - pose proof (emits_only_run_handler env t Hs o hstate0 (Forall_nil_2 _)) as Hall.
      destruct (answers_run_handler env t Hs o hstate0 eq_refl)
        as [(_ & _ & k & _ & Hk)|[Hlen _]].
      + by rewrite Ho in Hk.
      + unfold handler_run. destruct (emitted (snd (run_handler env t o hstate0)))
          as [|e [|]]; try done.
        exists e. apply Forall_inv in Hall.
        split_and!; [done|by destruct Hall|done|]. intros ? ? ? ->. done. }
  assert (queue (self w1) = [] /\ host_calls w1 = host_calls w) as [Hq1 Hh1].
  { unfold w1. rewrite (run_in_background_admit w ex r Hex Hge). simpl. done. }
  assert (queue (self w2) = [e] /\ host_calls w2 = host_calls w1) as [Hq2 Hh2].
  { change w2 with (fst (commit w1 (handler_run env o t))).
    destruct (commit_queue w1 (handler_run env o t)) as (-> & -> & _).
    by rewrite Hq1, Hem. }
  exists (deliver (with_queue w2 []) e), e.
  split_and!; [| |done|done|done| |unfold delivery; simpl; by rewrite Hctx|].
  - unfold consumer_cycle, consumer_cycle_upto. by rewrite Hq2.
  - intros n. unfold consumer_cycle_upto. rewrite Hq2. by rewrite take_nil, drop_nil.
  - rewrite <- Hh1, <- Hh2. unfold deliver, delivery.
    by destruct (qe_command e).
  - unfold deliver. by destruct (qe_command e).
Qed.

(** [uniq_request] on a fresh plugin with two workers: one resolve. *)
Lemma request_is_answered_witness :
  let w := fst (init boot 2) in
  let w1 := fst (run_in_background w uniq_request) in
  let w2 := fst (run_task bare_env w1 (mkTask (created w) uniq_request)) in
  exists w3 e,
    consumer_cycle w2 = Some w3
    /\ (forall n, consumer_cycle_upto n w2 = Some w3)
    /\ qe_ctx e = req_ctx uniq_request
    /\ (is_sleep uniq_request = false -> well_formed_entry (req_ctx uniq_request) e)
    /\ (forall ctx t x, uniq_request = ReqSleep ctx t x -> e = entry2 ctx x)
    /\ host_calls w3 = host_calls w ++ [delivery e]
    /\ call_ctx (delivery e) = ctx_val (req_ctx uniq_request)
    /\ queue (self w3) = [].
Proof.
  refine (request_is_answered bare_env (fst (init boot 2)) (mkExecutor 2 []) uniq_request
            _ eq_refl eq_refl _ eq_refl).
  - eapply rtc_l; [apply (step_init bare_env boot 2)|]. apply rtc_refl.
  - vm_compute. discriminate.
Defined.

(** ** The exits of two handlers *)

(** X8. Past its first poll, the search handler puts its tuples on the
    queue and then removes its event from the pending set. While the event
    is the pending one this empties the set and nothing is raised; once
    the event is no longer pending, as after a newer admission, the
    removal raises [ValueError] out of the handler, with the queue and the
    pending set as they were after the puts. *)
Theorem search_handler_exit (env : Env) (w : Runtime) (o : nat -> bool) (event : Event)
    (ctx : Ctx) (opts : SearchOpts) (x : string) (buf : list string) :
  o 0%nat = false ->
  let run := handler_run env o (mkTask event (ReqSearch ctx opts x buf)) in
  let res := commit w run in
  queue (self (fst res)) = queue (self w) ++ emitted (snd run)
  /\ (events (self w) = [event] -> events (self (fst res)) = [] /\ snd res = None)
  /\ (event ∉ events (self w) ->
      events (self (fst res)) = events (self w)
      /\ snd res = Some (mkExn ValueError "list.remove(x): x not in list")).
Proof.
  intros Ho run res.
  pose proof (search_handler_removes env o event ctx opts x buf Ho) as Hrm.
  fold run in Hrm.
  assert (forall e, fst run <> Raise e) as Hnr.
  { intros e.
    destruct (answers_run_handler env (mkTask event (ReqSearch ctx opts x buf)) eq_refl
                o hstate0 eq_refl) as [(H1 & _)|(_ & [H1|[a H1]])];
      fold (handler_run env o (mkTask event (ReqSearch ctx opts x buf))) in H1;
      fold run in H1; by rewrite H1. }
  split; [apply commit_queue|]. unfold res, commit. rewrite Hrm. simpl. split.
  - intros ->. simpl. rewrite Nat.eqb_refl. simpl. split; [done|].
    destruct (fst run) eqn:Hf; try done. by destruct (Hnr e).
  - intros Hnin. by rewrite (list_remove_absent _ _ Hnin).
Qed.

(** A search on a machine without pattern engine, its event pending: the
    reject is put and the pending set is emptied. *)
Lemma search_handler_exit_witness :
  let w := fst (run_in_background (fst (init boot 2))
                  (ReqSearch (mk_ctx 1 0) search_opts "a" ["a"])) in
  let res := run_task bare_env w (mkTask 0%nat (ReqSearch (mk_ctx 1 0) search_opts "a" ["a"])) in
  queue (self (fst res))
  = [entry3 (mk_ctx 1 0) (PStr "python_search: No module named 're'") "reject"]
  /\ events (self (fst res)) = []
  /\ snd res = None.
Proof.
  intros w res.
  destruct (search_handler_exit bare_env w (fun _ => is_set w 0%nat) 0%nat (mk_ctx 1 0)
              search_opts "a" ["a"] eq_refl) as (H1 & H2 & _).
  split; [exact H1|]. exact (H2 eq_refl).
Defined.



(** ** Uniq *)

Lemma uniq_from_elem (seen : gset string) (l : list string) (x : string) :
  x ∈ uniq_from seen l <-> x ∈ l /\ x ∉ seen.
Proof.
  revert seen. induction l as [|y l IH]; intros seen; simpl.
  - split; [by intros ?%elem_of_nil|by intros [?%elem_of_nil _]].
  - destruct (bool_decide_reflect (y ∈ seen)) as [Hy|Hy].
    + rewrite IH, elem_of_cons. split; [tauto|].
      intros [[->|Hx] Hn]; [done|tauto].
    + rewrite !elem_of_cons, IH. split.
      * intros [->|[Hx Hn]]; [tauto|]. split; [tauto|]. set_solver.
      * intros [[->|Hx] Hn]; [tauto|].
        destruct (decide (x = y)) as [->|Hne]; [tauto|]. right. split; [done|].
        set_solver.
Qed.

Lemma uniq_from_NoDup (seen : gset string) (l : list string) : NoDup (uniq_from seen l).
Proof.
  revert seen. induction l as [|y l IH]; intros seen; simpl; [constructor|].
  destruct (bool_decide_reflect (y ∈ seen)) as [Hy|Hy]; [apply IH|].
  constructor; [|apply IH]. rewrite uniq_from_elem. set_solver.
Qed.

Lemma uniq_from_sublist (seen : gset string) (l : list string) :
  uniq_from seen l `sublist_of` l.
Proof.
  revert seen. induction l as [|y l IH]; intros seen; simpl; [done|].
  destruct (bool_decide (y ∈ seen)); [by apply sublist_cons|by apply sublist_skip].
Qed.

Lemma uniq_from_app (seen : gset string) (l1 l2 : list string) :
  uniq_from seen (l1 ++ l2)
  = uniq_from seen l1 ++ uniq_from (list_to_set l1 ∪ seen) l2.
Proof.
  revert seen. induction l1 as [|y l1 IH]; intros seen; simpl.
  - by rewrite (left_id_L ∅ (∪)).
  - destruct (bool_decide_reflect (y ∈ seen)) as [Hy|Hy].
    + rewrite IH. do 2 f_equal. set_solver.
    + rewrite IH. simpl. do 3 f_equal. set_solver.
Qed.

Lemma uniq_from_id (seen : gset string) (l : list string) :
  NoDup l -> (forall x, x ∈ l -> x ∉ seen) -> uniq_from seen l = l.
Proof.
  revert seen. induction l as [|y l IH]; intros seen Hnd Hdis; simpl; [done|].
  apply NoDup_cons in Hnd as [Hy Hnd].
  rewrite bool_decide_eq_false_2 by (apply Hdis, list_elem_of_here).
  f_equal. apply IH; [done|]. intros x Hx.
  specialize (Hdis x (list_elem_of_further _ _ _ Hx)). set_solver.
Qed.

(** X10. Past its poll the uniq handler puts exactly one tuple, the
    candidates reduced to the first occurrence of each value in the order
    of first appearance: the result has no duplicate, holds the same
    values as the input, is a subsequence of it, and the values of every
    prefix of the input make up a prefix of the result. Applying uniq to
    its own result changes nothing. *)
Theorem uniq_handler_result (env : Env) (o : nat -> bool) (event : Event) (ctx : Ctx)
    (candidates : list string) :
  o 0%nat = false ->
  let res := uniq_from ∅ candidates in
  handler_run env o (mkTask event (ReqUniq ctx candidates))
  = (Val tt, mkHstate 1 [entry2 ctx (str_list res)] [])
  /\ NoDup res
  /\ (forall x, x ∈ res <-> x ∈ candidates)
  /\ res `sublist_of` candidates
  /\ (forall n : nat, exists k : nat,
        forall x, x ∈ take k res <-> x ∈ take n candidates)
  /\ uniq_from ∅ res = res.
Proof.
  intros Ho res. split_and!.
  - unfold handler_run, run_handler, task_req, uniq_handler, bind, event_is_set, hstate0.
    simpl. by rewrite Ho.
  - apply uniq_from_NoDup.
  - intros x. unfold res. rewrite uniq_from_elem. set_solver.
  - apply uniq_from_sublist.
  - intros n. exists (length (uniq_from ∅ (take n candidates))). intros x.
    unfold res. rewrite <- (take_drop n candidates) at 2.
    rewrite uniq_from_app, take_app_length, uniq_from_elem. set_solver.
  - apply uniq_from_id; [apply uniq_from_NoDup|set_solver].
Qed.

(** The example of the specification: b, a, b, c, a gives b, a, c. *)
Lemma uniq_handler_result_witness :
  handler_run bare_env (fun _ => false)
    (mkTask 0%nat (ReqUniq (mk_ctx 1 0) ["b"; "a"; "b"; "c"; "a"]))
  = (Val tt, mkHstate 1 [entry2 (mk_ctx 1 0) (str_list ["b"; "a"; "c"])] []).
Proof.
  exact (proj1 (uniq_handler_result bare_env (fun _ => false) 0%nat (mk_ctx 1 0)
                  ["b"; "a"; "b"; "c"; "a"] eq_refl)).
Defined.

(** ** Sorting *)

Lemma insert_by_perm {A : Type} (le : A -> A -> bool) (x : A) (l : list A) :
  insert_by le x l ≡ₚ x :: l.
Proof.
  induction l as [|y l IH]; simpl; [done|].
  destruct (le x y); [done|]. rewrite IH. apply Permutation_swap.
Qed.

Lemma sorted_by_perm {A : Type} (le : A -> A -> bool) (l : list A) :
  sorted_by le l ≡ₚ l.
Proof.
  induction l as [|x l IH]; simpl; [done|].
  by rewrite insert_by_perm, IH.
Qed.

Section Sorting.

Context {A : Type} (le : A -> A -> bool).
Context (le_total : forall a b, le a b = true \/ le b a = true).
Context (le_trans : forall a b c, le a b = true -> le b c = true -> le a c = true).

Lemma insert_by_sorted (x : A) (l : list A) :
  StronglySorted (fun a b => le a b = true) l ->
  StronglySorted (fun a b => le a b = true) (insert_by le x l).
Proof.
  induction 1 as [|y l Hs IH Hall]; simpl.
  - constructor; [constructor|constructor].
  - destruct (le x y) eqn:Hxy.
    + constructor; [by constructor|].
      constructor; [done|]. eapply Forall_impl; [exact Hall|].
      intros z Hz. by eapply le_trans.
    + constructor; [done|].
      apply Forall_forall. intros z Hz%insert_by_elem.
      destruct Hz as [->|Hz].
      * destruct (le_total x y); congruence.
      * rewrite Forall_forall in Hall. by apply Hall.
Qed.

Lemma sorted_by_sorted (l : list A) :
  StronglySorted (fun a b => le a b = true) (sorted_by le l).
Proof.
  induction l as [|x l IH]; simpl; [constructor|]. by apply insert_by_sorted.
Qed.

Lemma sorted_by_id (l : list A) :
  StronglySorted (fun a b => le a b = true) l -> sorted_by le l = l.
Proof.
  induction 1 as [|x l Hs IH Hall]; simpl; [done|]. rewrite IH.
  destruct l as [|y l]; simpl; [done|].
  apply Forall_inv in Hall. by rewrite Hall.
Qed.

End Sorting.

Lemma StronglySorted_weaken {A : Type} (R R' : A -> A -> Prop) (l : list A) :
  (forall a b, R a b -> R' a b) -> StronglySorted R l -> StronglySorted R' l.
Proof.
  intros HR. induction 1 as [|x l Hs IH Hall]; constructor; [done|].
  eapply Forall_impl; [exact Hall|]. auto.
Qed.

(** A sort by key keeps the elements of equal key in their order. *)
Lemma sorted_key_stable {A : Type} (key : A -> Z) (k : Z) (l : list A) :
  List.filter (fun a => key a =? k) (sorted_key key l)
  = List.filter (fun a => key a =? k) l.
Proof.
  unfold sorted_key, sorted_by. induction l as [|x l IH]; simpl; [done|].
  rewrite <- IH. clear IH.
  generalize (foldr (insert_by (fun a b => key a <=? key b)) [] l). intros l'.
  induction l' as [|y l' IH]; simpl; [done|].
  destruct (key x <=? key y) eqn:Hxy; simpl; [done|].
  rewrite IH. apply Z.leb_gt in Hxy.
  destruct (key x =? k) eqn:Hx; [|done].
  apply Z.eqb_eq in Hx. by rewrite (proj2 (Z.eqb_neq (key y) k)) by lia.
Qed.

Lemma string_compare_cons (a b : ascii) (s t : string) :
  String.compare (String a s) (String b t)
  = match Ascii.compare a b with
    | Eq => String.compare s t
    | c => c
    end.
Proof. simpl. by destruct (Ascii.compare a b). Qed.

Lemma string_compare_trans (s1 s2 s3 : string) :
  String.compare s1 s2 <> Gt -> String.compare s2 s3 <> Gt -> String.compare s1 s3 <> Gt.
Proof.
  revert s2 s3. induction s1 as [|a s1 IH]; intros [|b s2] [|c s3]; try done.
  rewrite !string_compare_cons. unfold Ascii.compare.
  destruct (N.compare_spec (N_of_ascii a) (N_of_ascii b)) as [Hab|Hab|Hab];
    destruct (N.compare_spec (N_of_ascii b) (N_of_ascii c)) as [Hbc|Hbc|Hbc];
    destruct (N.compare_spec (N_of_ascii a) (N_of_ascii c)) as [Hac|Hac|Hac];
    try done; try lia.
  apply IH.
Qed.

Lemma string_leb_trans (a b c : string) :
  String.leb a b = true -> String.leb b c = true -> String.leb a c = true.
Proof.
  unfold String.leb. intros H1 H2.
  pose proof (string_compare_trans a b c) as H.
  destruct (String.compare a b), (String.compare b c), (String.compare a c);
    try done; by destruct H.
Qed.

(** X11. Past its poll the sort handler puts exactly one tuple: a
    rearrangement of the candidates, duplicates kept, in ascending order
    of [str]. Candidates that are already in order are put as they
    are. *)
Theorem sort_handler_result (env : Env) (o : nat -> bool) (event : Event) (ctx : Ctx)
    (candidates : list string) :
  o 0%nat = false ->
  handler_run env o (mkTask event (ReqSort ctx candidates))
  = (Val tt, mkHstate 1 [entry2 ctx (str_list (sorted candidates))] [])
  /\ sorted candidates ≡ₚ candidates
  /\ StronglySorted str_le (sorted candidates)
  /\ (StronglySorted str_le candidates -> sorted candidates = candidates)
  /\ sorted (sorted candidates) = sorted candidates.
Proof.
  intros Ho.
  assert (StronglySorted str_le (sorted candidates)) as Hs.
  { apply (sorted_by_sorted String.leb String.leb_total string_leb_trans). }
  split_and!.
  - unfold handler_run, run_handler, task_req, sort_handler, bind, event_is_set, hstate0.
    simpl. by rewrite Ho.
  - apply sorted_by_perm.
  - done.
  - apply (sorted_by_id String.leb).
  - by apply (sorted_by_id String.leb).
Qed.

(** Upper case sorts before lower case, and the empty string first. *)
Lemma sort_handler_result_witness :
  handler_run bare_env (fun _ => false)
    (mkTask 0%nat (ReqSort (mk_ctx 1 0) ["b"; "a"; "B"; "ab"; ""; "a"]))
  = (Val tt, mkHstate 1 [entry2 (mk_ctx 1 0) (str_list [""; "B"; "a"; "a"; "ab"; "b"])] []).
Proof.
  exact (proj1 (sort_handler_result bare_env (fun _ => false) 0%nat (mk_ctx 1 0)
                  ["b"; "a"; "B"; "ab"; ""; "a"] eq_refl)).
Defined.

(** X12. Past its poll, with [fuzzywuzzy] importable, the fuzzy-match
    handler puts exactly one tuple: a rearrangement of the candidates in
    descending order of their score against the query ([partial_ratio],
    or [ratio] when [partial] is false), in which candidates of equal
    score keep the order they came in. *)
Theorem fuzzywuzzy_handler_result (env : Env) (o : nat -> bool) (event : Event) (ctx : Ctx)
    (candidates : list string) (query : string) (partial : option bool)
    (fuzzy : FuzzModule) :
  o 0%nat = false ->
  import_fuzzywuzzy env = inr fuzzy ->
  let score := fuzzy_score fuzzy partial query in
  exists res,
    handler_run env o (mkTask event (ReqFuzzywuzzy ctx candidates query partial))
    = (Val tt, mkHstate 1 [entry2 ctx (str_list res)] [])
    /\ res ≡ₚ candidates
    /\ StronglySorted (fun a b => score b <= score a) res
    /\ forall k : Z,
         List.filter (fun a => score a =? k) res
         = List.filter (fun a => score a =? k) candidates.
Proof.
  intros Ho Hf score.
  exists (sorted_key (fun x => - score x) candidates). split_and!.
  - unfold handler_run, run_handler, task_req, fuzzywuzzy_handler.
    unfold bind at 1, event_is_set, hstate0. cbn [polls]. rewrite Ho.
    unfold try_except, bind, lift. rewrite Hf. unfold score, fuzzy_score.
    by destruct partial as [[]|].
  - apply sorted_by_perm.
  - eapply StronglySorted_weaken;
      [|apply (sorted_by_sorted (fun a b => - score a <=? - score b))].
    + intros a b Hab%Z.leb_le. lia.
    + intros a b. rewrite !Z.leb_le. lia.
    + intros a b c. rewrite !Z.leb_le. lia.
  - intros k.
    pose proof (sorted_key_stable (fun x => - score x) (- k) candidates) as Hst.
    assert (forall l, List.filter (fun a => score a =? k) l
                      = List.filter (fun a => - score a =? - k) l) as Heq.
    { intros l. apply List.filter_ext. intros a.
      destruct (Z.eqb_spec (score a) k), (Z.eqb_spec (- score a) (- k)); try done; lia. }
    by rewrite !Heq.
Qed.

(** A run of the fuzzy match: the candidates that start with the query
    first, each group in the order it came in. *)
Lemma fuzzywuzzy_handler_result_witness :
  exists res,
    handler_run demo_env (fun _ => false)
      (mkTask 0%nat (ReqFuzzywuzzy (mk_ctx 1 0) ["ba"; "ab"; "c"; "abc"] "ab" None))
    = (Val tt, mkHstate 1 [entry2 (mk_ctx 1 0) (str_list res)] [])
    /\ res ≡ₚ ["ba"; "ab"; "c"; "abc"]
    /\ StronglySorted
         (fun a b => fuzzy_score (mkFuzzModule (fun x q => if startswith x q then 100 else 0)
                                    (fun x q => if String.eqb x q then 100 else 0))
                       None "ab" b
                     <= fuzzy_score (mkFuzzModule (fun x q => if startswith x q then 100 else 0)
                                       (fun x q => if String.eqb x q then 100 else 0))
                          None "ab" a) res
    /\ forall k : Z,
         List.filter
           (fun a => fuzzy_score (mkFuzzModule (fun x q => if startswith x q then 100 else 0)
                                    (fun x q => if String.eqb x q then 100 else 0))
                       None "ab" a =? k) res
         = List.filter
             (fun a => fuzzy_score (mkFuzzModule (fun x q => if startswith x q then 100 else 0)
                                      (fun x q => if String.eqb x q then 100 else 0))
                         None "ab" a =? k) ["ba"; "ab"; "c"; "abc"].
Proof.
  exact (fuzzywuzzy_handler_result demo_env (fun _ => false) 0%nat (mk_ctx 1 0)
           ["ba"; "ab"; "c"; "abc"] "ab" None _ eq_refl eq_refl).
Defined.

(** ** Users *)

(** X13. Past its poll, when the user database can be read, the users
    handler puts exactly one tuple: the names that start with
    [expand_arg], each as often as the database lists it, in ascending
    order; with nothing typed these are all the names. The completion
    type is not looked at. *)
Theorem users_handler_result (env : Env) (o : nat -> bool) (event : Event) (ctx : Ctx)
    (expand_arg expand_type : string) (users : list string) :
  o 0%nat = false ->
  getpwall env = inr users ->
  exists res,
    handler_run env o (mkTask event (ReqUsers ctx expand_arg expand_type))
    = (Val tt, mkHstate 1 [entry2 ctx (str_list res)] [])
    /\ res ≡ₚ List.filter (fun n => startswith n expand_arg) users
    /\ (forall u, u ∈ res <-> u ∈ users /\ startswith u expand_arg = true)
    /\ StronglySorted str_le res
    /\ (expand_arg = "" -> res ≡ₚ users).
Proof.
  intros Ho Hu.
  exists (sorted (List.filter (fun n => startswith n expand_arg) users)). split_and!.
  - unfold handler_run, run_handler, task_req, get_users_handler.
    unfold bind at 1, event_is_set, hstate0. cbn [polls]. rewrite Ho.
    unfold try_except, bind, lift. by rewrite Hu.
  - apply sorted_by_perm.
  - intros u. unfold sorted. rewrite sorted_by_elem, !list_elem_of_In, List.filter_In.
    done.
  - apply (sorted_by_sorted String.leb String.leb_total string_leb_trans).
  - intros ->. unfold sorted. rewrite sorted_by_perm.
    assert (List.filter (fun n => startswith n "") users = users) as ->; [|done].
    clear Hu. induction users as [|u us IH]; simpl; [done|].
    assert (startswith u "" = true) as -> by by destruct u. by rewrite IH.
Qed.

(** The users starting with ["ro"] on the demonstration machine. *)
Lemma users_handler_result_witness :
  exists res,
    handler_run demo_env (fun _ => false) (mkTask 0%nat (ReqUsers (mk_ctx 1 0) "ro" "user"))
    = (Val tt, mkHstate 1 [entry2 (mk_ctx 1 0) (str_list res)] [])
    /\ res ≡ₚ ["root"; "rob"]
    /\ (forall u, u ∈ res <-> u ∈ ["root"; "daemon"; "rob"] /\ startswith u "ro" = true)
    /\ StronglySorted str_le res
    /\ ("ro" = "" -> res ≡ₚ ["root"; "daemon"; "rob"]).
Proof.
  exact (users_handler_result demo_env (fun _ => false) 0%nat (mk_ctx 1 0) "ro" "user"
           ["root"; "daemon"; "rob"] eq_refl eq_refl).
Defined.

(** ** Search *)

Lemma list_to_set_snoc (l : list string) (c : string) :
  (list_to_set (l ++ [c]) : gset string) = {[c]} ∪ list_to_set l.
Proof.
  rewrite list_to_set_app_L. simpl. rewrite (right_id_L ∅ (∪)).
  apply (comm_L (∪)).
Qed.

Lemma list_to_set_uniq_from (seen : list string) (l : list string) :
  (list_to_set (seen ++ uniq_from (list_to_set seen) l) : gset string)
  = list_to_set l ∪ list_to_set seen.
Proof.
  apply set_eq. intros x.
  rewrite elem_of_list_to_set, elem_of_app, uniq_from_elem, elem_of_union,
    !elem_of_list_to_set.
  destruct (decide (x ∈ seen)); tauto.
Qed.

Section SearchLoops.

Context (ctx : Ctx) (max_candidates : Z) (o : nat -> bool).
Context (o_false : forall k, o k = false).

Lemma search_inner_step (c : string) (ms : list string) (cands : list string)
    (s : hstate) :
  for_fold (c :: ms) (list_to_set cands, cands) (search_inner ctx max_candidates) o s
  = let s1 := mkHstate (S (polls s)) (emitted s) (removals s) in
    if bool_decide (c ∈ (list_to_set cands : gset string)) then
      for_fold ms (list_to_set cands, cands) (search_inner ctx max_candidates) o s1
    else if (max_candidates >? 0)
            && (Z.of_nat (length (cands ++ [c])) >=? max_candidates) then
      (Return_,
       mkHstate (S (polls s)) (emitted s ++ [entry2 ctx (str_list (cands ++ [c]))])
         (removals s))
    else
      for_fold ms ({[c]} ∪ list_to_set cands, cands ++ [c])
        (search_inner ctx max_candidates) o s1.
Proof.
  simpl. unfold bind, event_is_set. rewrite o_false.
  destruct (bool_decide (c ∈ (list_to_set cands : gset string))); simpl; [done|].
  by destruct ((max_candidates >? 0)
               && (Z.of_nat (length (cands ++ [c])) >=? max_candidates)).
Qed.

Lemma search_outer_step (pattern : Pattern) (line : string) (buf : list string)
    (acc : gset string * list string) (s : hstate) :
  for_fold (line :: buf) acc (search_outer ctx max_candidates pattern) o s
  = match for_fold (finditer pattern line) acc (search_inner ctx max_candidates) o
            (mkHstate (S (polls s)) (emitted s) (removals s)) with
    | (Val acc', s') => for_fold buf acc' (search_outer ctx max_candidates pattern) o s'
    | (Continue, s') => for_fold buf acc (search_outer ctx max_candidates pattern) o s'
    | (Return_, s') => (Return_, s')
    | (Raise e, s') => (Raise e, s')
    end.
Proof.
  simpl. unfold search_outer at 1. unfold bind, event_is_set. by rewrite o_false.
Qed.

(** The inner loop, not cancelled: it stops with the first
    [max_candidates] values once there are that many, or goes through all
    the matches. *)
Lemma search_inner_run (ms : list string) (cands : list string) (s : hstate) :
  (0 < max_candidates -> Z.of_nat (length cands) < max_candidates) ->
  let full := cands ++ uniq_from (list_to_set cands) ms in
  if (0 <? max_candidates) && (max_candidates <=? Z.of_nat (length full))
  then exists s',
         for_fold ms (list_to_set cands, cands) (search_inner ctx max_candidates) o s
         = (Return_, s')
         /\ emitted s'
            = emitted s ++ [entry2 ctx (str_list (take (Z.to_nat max_candidates) full))]
         /\ removals s' = removals s
  else exists s',
         for_fold ms (list_to_set cands, cands) (search_inner ctx max_candidates) o s
         = (Val (list_to_set full, full), s')
         /\ emitted s' = emitted s
         /\ removals s' = removals s.
Proof.
  revert cands s. induction ms as [|c ms IH]; intros cands s Hlen.
  - simpl. rewrite app_nil_r.
    destruct (Z.ltb_spec 0 max_candidates) as [Hm|Hm]; simpl.
    + rewrite (proj2 (Z.leb_gt _ _) (Hlen Hm)). eauto.
    + eauto.
  - cbn zeta. cbn [uniq_from]. rewrite search_inner_step. cbn zeta.
    destruct (bool_decide_reflect (c ∈ (list_to_set cands : gset string))) as [Hc|Hc].
    + exact (IH cands (mkHstate (S (polls s)) (emitted s) (removals s)) Hlen).
    + destruct ((max_candidates >? 0)
                && (Z.of_nat (length (cands ++ [c])) >=? max_candidates)) eqn:Hstop.
      * apply andb_true_iff in Hstop as [Hm Hge].
        rewrite Z.gtb_ltb in Hm. apply Z.ltb_lt in Hm.
        rewrite Z.geb_leb in Hge. apply Z.leb_le in Hge.
        specialize (Hlen Hm). rewrite length_app in Hge. simpl in Hge.
        rewrite (proj2 (Z.ltb_lt _ _) Hm). simpl.
        rewrite length_app. simpl.
        rewrite (proj2 (Z.leb_le max_candidates _)) by lia.
        eexists. split; [reflexivity|]. simpl. split; [|done].
        do 3 f_equal.
        replace (cands ++ c :: uniq_from ({[c]} ∪ list_to_set cands) ms)
          with ((cands ++ [c]) ++ uniq_from ({[c]} ∪ list_to_set cands) ms)
          by (by rewrite <- app_assoc).
        rewrite take_app_length'; [done|]. rewrite length_app. simpl. lia.
      * assert (0 < max_candidates ->
                Z.of_nat (length (cands ++ [c])) < max_candidates) as Hlen'.
        { intros Hm. apply andb_false_iff in Hstop as [Hs|Hs].
          - rewrite Z.gtb_ltb in Hs. apply Z.ltb_ge in Hs. lia.
          - rewrite Z.geb_leb in Hs. by apply Z.leb_gt in Hs. }
        specialize (IH (cands ++ [c]) (mkHstate (S (polls s)) (emitted s) (removals s))
                      Hlen').
        rewrite list_to_set_snoc in IH. rewrite <- app_assoc in IH. simpl in IH.
        exact IH.
Qed.

(** The outer loop, not cancelled. *)
Lemma search_outer_run (pattern : Pattern) (buf : list string) (cands : list string)
    (s : hstate) :
  (0 < max_candidates -> Z.of_nat (length cands) < max_candidates) ->
  let full := cands ++ uniq_from (list_to_set cands) (concat (map (finditer pattern) buf)) in
  if (0 <? max_candidates) && (max_candidates <=? Z.of_nat (length full))
  then exists s',
         for_fold buf (list_to_set cands, cands) (search_outer ctx max_candidates pattern)
           o s
         = (Return_, s')
         /\ emitted s'
            = emitted s ++ [entry2 ctx (str_list (take (Z.to_nat max_candidates) full))]
         /\ removals s' = removals s
  else exists s',
         for_fold buf (list_to_set cands, cands) (search_outer ctx max_candidates pattern)
           o s
         = (Val (list_to_set full, full), s')
         /\ emitted s' = emitted s
         /\ removals s' = removals s.
Proof.
  revert cands s. induction buf as [|line buf IH]; intros cands s Hlen.
  - simpl. rewrite app_nil_r.
    destruct (Z.ltb_spec 0 max_candidates) as [Hm|Hm]; simpl.
    + rewrite (proj2 (Z.leb_gt _ _) (Hlen Hm)). eauto.
    + eauto.
  - cbn zeta. cbn [map concat]. rewrite search_outer_step.
    set (s1 := mkHstate (S (polls s)) (emitted s) (removals s)).
    set (m1 := finditer pattern line).
    set (rest := concat (map (finditer pattern) buf)).
    set (full1 := cands ++ uniq_from (list_to_set cands) m1).
    assert (cands ++ uniq_from (list_to_set cands) (m1 ++ rest)
            = full1 ++ uniq_from (list_to_set full1) rest) as Hfull.
    { unfold full1. rewrite uniq_from_app, app_assoc. do 2 f_equal.
      by rewrite list_to_set_uniq_from. }
    rewrite Hfull.
    pose proof (search_inner_run m1 cands s1 Hlen) as Hin.
    cbv zeta in Hin. fold full1 in Hin.
    destruct ((0 <? max_candidates) && (max_candidates <=? Z.of_nat (length full1)))
      eqn:Hstop.
    + destruct Hin as (s' & -> & Hem & Hrm).
      apply andb_true_iff in Hstop as [Hm Hge]. rewrite Hm. simpl.
      apply Z.leb_le in Hge. apply Z.ltb_lt in Hm.
      rewrite length_app, (proj2 (Z.leb_le max_candidates _)) by lia.
      exists s'. split; [done|]. split; [|done].
      rewrite Hem. simpl. do 3 f_equal. rewrite take_app_le; [done|lia].
    + destruct Hin as (s' & -> & Hem & Hrm).
      assert (0 < max_candidates -> Z.of_nat (length full1) < max_candidates) as Hlen'.
      { intros Hm. apply andb_false_iff in Hstop as [Hs|Hs].
        - apply Z.ltb_ge in Hs. lia.
        - by apply Z.leb_gt in Hs. }
      specialize (IH full1 s' Hlen'). cbv zeta in IH. fold rest in IH.
      destruct ((0 <? max_candidates)
                && (max_candidates
                    <=? Z.of_nat (length (full1 ++ uniq_from (list_to_set full1) rest)))).
      * destruct IH as (s'' & -> & Hem' & Hrm'). exists s''.
        split; [done|]. by rewrite Hem', Hrm', Hem, Hrm.
      * destruct IH as (s'' & -> & Hem' & Hrm'). exists s''.
        split; [done|]. by rewrite Hem', Hrm', Hem, Hrm.
Qed.

End SearchLoops.

(** The search handler, with its two loop bodies named. *)
Lemma search_handler_unfold (env : Env) (event : Event) (ctx : Ctx) (opts : SearchOpts)
    (x : string) (buf : list string) :
  search_handler env event ctx opts x buf
  = bind event_is_set
      (fun b : bool =>
         if b then return_ else
         try_finally
           (try_except
              (bind (lift (import_module env (default "re" (opt_engine opts))))
                 (fun re =>
                    bind (lift (re_compile re x))
                      (fun pattern =>
                         bind (for_fold buf (∅, [])
                                 (search_outer ctx (default 300 (opt_max_candidates opts))
                                    pattern))
                           (fun acc => queue_put (entry2 ctx (str_list (snd acc)))))))
              any_Exception
              (fun e => queue_put (reject ctx "python_search: " e)))
           (events_remove event)).
Proof. reflexivity. Qed.

(** X14. A search that compiles its pattern and is not cancelled puts
    exactly one tuple: the matches of the buffer lines, in the order of
    the lines and of the matches in a line, each value once at its first
    appearance, cut at [max_candidates] (300 when not given) when that is
    positive and not cut at all otherwise. It then removes its event from
    the pending set. *)
Theorem search_handler_result (env : Env) (o : nat -> bool) (event : Event) (ctx : Ctx)
    (opts : SearchOpts) (x : string) (buf : list string) (re : ReModule)
    (pattern : Pattern) :
  (forall k, o k = false) ->
  import_module env (default "re" (opt_engine opts)) = inr re ->
  re_compile re x = inr pattern ->
  let max_candidates := default 300 (opt_max_candidates opts) in
  let res := search_candidates pattern max_candidates buf in
  let run := handler_run env o (mkTask event (ReqSearch ctx opts x buf)) in
  emitted (snd run) = [entry2 ctx (str_list res)]
  /\ removals (snd run) = [event]
  /\ NoDup res
  /\ (0 < max_candidates -> Z.of_nat (length res) <= max_candidates)
  /\ (forall c, c ∈ res -> exists line, line ∈ buf /\ c ∈ finditer pattern line).
Proof.
  intros Ho Hre Hpat max_candidates res run.
  set (all := uniq_from ∅ (concat (map (finditer pattern) buf))).
  assert (res = if 0 <? max_candidates then take (Z.to_nat max_candidates) all else all)
    as Hres by reflexivity.
  assert (res `sublist_of` all) as Hsub.
  { rewrite Hres. destruct (0 <? max_candidates); [apply sublist_take|done]. }
  split_and!.
  - unfold run, handler_run, run_handler. cbn [task_req task_event].
    rewrite search_handler_unfold. fold max_candidates.
    unfold bind at 1, event_is_set, hstate0. cbn [polls]. rewrite Ho.
    unfold try_finally, try_except, events_remove.
    unfold bind at 1. rewrite Hre. cbn [lift ret]. unfold bind at 1. rewrite Hpat.
    cbn [lift ret]. unfold bind.
    pose proof (search_outer_run ctx max_candidates o Ho pattern buf []
                  (mkHstate 1 [] [])) as Hrun.
    cbv zeta in Hrun.
    change (list_to_set [] : gset string) with (∅ : gset string) in Hrun.
    change ([] ++ uniq_from ∅ (concat (map (finditer pattern) buf))) with all in Hrun.
    cbn [emitted removals] in *.
    destruct ((0 <? max_candidates) && (max_candidates <=? Z.of_nat (length all)))
      eqn:Hstop.
    + destruct Hrun as (s' & Hr & Hem & _); [simpl; lia|].
      rewrite Hr. simpl. rewrite Hem. simpl. rewrite Hres.
      apply andb_true_iff in Hstop as [-> _]. done.
    + destruct Hrun as (s' & Hr & Hem & _); [simpl; lia|].
      rewrite Hr. simpl. rewrite Hem. simpl. rewrite Hres.
      apply andb_false_iff in Hstop as [->|Hs]; [done|].
      destruct (0 <? max_candidates); [|done].
      apply Z.leb_gt in Hs. rewrite take_ge; [done|lia].
  - apply search_handler_removes. apply Ho.
  - eapply sublist_NoDup; [apply uniq_from_NoDup|exact Hsub].
  - intros Hm. rewrite Hres, (proj2 (Z.ltb_lt _ _) Hm), length_take. lia.
  - intros c Hc.
    assert (c ∈ all) as Hall by (by eapply elem_of_sublist).
    unfold all in Hall. apply uniq_from_elem in Hall as [Hall _].
    apply list_elem_of_In, in_concat in Hall as (ms & Hms & Hcm).
    apply in_map_iff in Hms as (line & <- & Hline).
    exists line. by rewrite !list_elem_of_In.
Qed.

(** The search for ["ab"] in the buffer of the demonstration machine,
    rotated to start at its third line, with at most three candidates. *)
Lemma search_handler_result_witness :
  let run := handler_run demo_env (fun _ => false)
               (mkTask 0%nat
                  (ReqSearch (mk_ctx 1 0) (mkSearchOpts None (Some 3)) "ab"
                     ["b abd"; "ab"; "ab ba"; "abc ab"])) in
  emitted (snd run) = [entry2 (mk_ctx 1 0) (str_list ["abd"; "ab"; "abc"])]
  /\ removals (snd run) = [0%nat].
Proof.
  intros run.
  destruct (search_handler_result demo_env (fun _ => false) 0%nat (mk_ctx 1 0)
              (mkSearchOpts None (Some 3)) "ab" ["b abd"; "ab"; "ab ba"; "abc ab"]
              _ _ (fun _ => eq_refl) eq_refl eq_refl) as (H1 & H2 & _).
  split; [exact H1|exact H2].
Defined.

(** ** The buffer of a search *)

(** X15. A search for a pattern that is not empty hands the buffer to its
    handler rotated, so that the line of the cursor comes first and the
    lines before the cursor come last: line [i] of what the handler scans
    is line [cursor - 1 + i] of the buffer, wrapping around at its end.
    No line is lost or repeated. *)
Theorem search_starts_at_cursor (env : Env) (w : Runtime) (ctx : Ctx) (opts : SearchOpts)
    (x : string) :
  x <> "" ->
  (1 <= cursor_row env <= length (current_buffer env))%nat ->
  exists buf,
    search env w ctx opts x = run_in_background w (ReqSearch ctx opts x buf)
    /\ length buf = length (current_buffer env)
    /\ buf ≡ₚ current_buffer env
    /\ forall i : nat, (i < length buf)%nat ->
         buf !! i = current_buffer env !! ((cursor_row env - 1 + i) mod length buf)%nat.
Proof.
  intros Hx Hrow.
  set (n := (cursor_row env - 1)%nat). set (l := current_buffer env) in *.
  assert (length (drop n l ++ take n l) = length l) as Hlen.
  { rewrite length_app, length_drop, length_take. lia. }
  exists (drop n l ++ take n l). split_and!.
  - unfold search. destruct (String.eqb_spec x ""); [done|]. reflexivity.
  - exact Hlen.
  - rewrite Permutation_app_comm. by rewrite take_drop.
  - intros i Hi. rewrite Hlen in *.
    destruct (decide (i < length l - n)%nat) as [Hlt|Hge].
    + rewrite lookup_app_l by (rewrite length_drop; lia).
      rewrite lookup_drop. f_equal. symmetry. apply Nat.mod_small. lia.
    + rewrite lookup_app_r by (rewrite length_drop; lia).
      rewrite length_drop, lookup_take_lt by lia. f_equal.
      apply (Nat.mod_unique _ _ 1%nat); lia.
Qed.

(** With the cursor on the third of four lines, the search starts with
    the third line and ends with the second. *)
Lemma search_starts_at_cursor_witness :
  exists buf,
    search demo_env boot (mk_ctx 1 0) search_opts "ab"
    = run_in_background boot (ReqSearch (mk_ctx 1 0) search_opts "ab" buf)
    /\ length buf = 4%nat
    /\ buf ≡ₚ ["ab ba"; "abc ab"; "b abd"; "ab"]
    /\ forall i : nat, (i < length buf)%nat ->
         buf !! i = ["ab ba"; "abc ab"; "b abd"; "ab"] !! ((3 - 1 + i) mod length buf)%nat.
Proof.
  apply (search_starts_at_cursor demo_env boot (mk_ctx 1 0) search_opts "ab");
    [discriminate|simpl; lia].
Defined.

(** ** The last component of a path *)

Lemma append_cons (c : ascii) (s t : string) : String c s +:+ t = String c (s +:+ t).
Proof. reflexivity. Qed.

Lemma append_nil_r (s : string) : s +:+ "" = s.
Proof. induction s as [|c s IH]; [done|]. by rewrite append_cons, IH. Qed.

Lemma append_assoc (s t u : string) : (s +:+ t) +:+ u = s +:+ t +:+ u.
Proof. induction s as [|c s IH]; [done|]. by rewrite !append_cons, IH. Qed.

Lemma rsplit_sep_no_char (p : string) :
  no_char "/" p = true -> rsplit_sep p = ("", p).
Proof.
  induction p as [|c p IH]; [done|]. cbn [no_char rsplit_sep].
  intros [Hc Hp]%andb_true_iff. rewrite (IH Hp).
  apply negb_true_iff in Hc. by rewrite Hc.
Qed.

Lemma rsplit_sep_tail (p : string) :
  no_char "/" (snd (rsplit_sep p)) = true
  /\ (fst (rsplit_sep p) = "" -> snd (rsplit_sep p) = p).
Proof.
  induction p as [|c p [IH1 IH2]]; [done|]. cbn [rsplit_sep].
  destruct (rsplit_sep p) as [[|a h] t]; simpl in *.
  - specialize (IH2 eq_refl) as ->.
    destruct (Ascii.eqb c "/") eqn:Hc; simpl; [done|].
    by rewrite Hc, IH1.
  - done.
Qed.

Lemma rsplit_sep_app (dir name : string) :
  no_char "/" name = true -> rsplit_sep (dir +:+ "/" +:+ name) = (dir +:+ "/", name).
Proof.
  intros Hn. induction dir as [|c dir IH].
  - change ("" +:+ "/" +:+ name) with (String "/" name). cbn [rsplit_sep].
    by rewrite (rsplit_sep_no_char _ Hn).
  - rewrite append_cons. cbn [rsplit_sep]. rewrite IH.
    by destruct dir.
Qed.

Lemma endswith_char_snoc (s : string) (c : ascii) :
  endswith_char (s +:+ String c "") c = true.
Proof.
  induction s as [|a s IH].
  - simpl. apply Ascii.eqb_refl.
  - rewrite append_cons. cbn [endswith_char].
    destruct (s +:+ String c "") eqn:Hs; [by destruct s|done].
Qed.

Lemma drop_last_snoc (s : string) (c : ascii) : drop_last (s +:+ String c "") = s.
Proof.
  induction s as [|a s IH]; [done|].
  rewrite append_cons. cbn [drop_last].
  destruct (s +:+ String c "") eqn:Hs; [by destruct s|]. by rewrite IH.
Qed.

Lemma endswith_char_app (a b : string) (c : ascii) :
  b <> "" -> endswith_char (a +:+ b) c = endswith_char b c.
Proof.
  intros Hb. induction a as [|x a IH]; [done|].
  rewrite append_cons. cbn [endswith_char].
  destruct (a +:+ b) eqn:Hab; [|done].
  destruct a; [|done]. by destruct b.
Qed.

Lemma endswith_char_no_char (s : string) (c : ascii) :
  no_char c s = true -> endswith_char s c = false.
Proof.
  induction s as [|a s IH]; [done|]. cbn [no_char endswith_char].
  intros [Ha Hs]%andb_true_iff. apply negb_true_iff in Ha.
  destruct s; [done|]. by apply IH.
Qed.

Lemma get_basename_dir (dir name : string) :
  no_char "/" name = true -> get_basename (dir +:+ "/" +:+ name +:+ "/") = name.
Proof.
  intros Hn. unfold get_basename.
  replace (dir +:+ "/" +:+ name +:+ "/") with ((dir +:+ "/" +:+ name) +:+ "/")
    by (by rewrite !append_assoc).
  rewrite endswith_char_snoc, drop_last_snoc. simpl.
  unfold os_path_basename. by rewrite rsplit_sep_app.
Qed.

Lemma get_basename_file (dir name : string) :
  no_char "/" name = true -> name <> "" -> get_basename (dir +:+ "/" +:+ name) = name.
Proof.
  intros Hn Hne. unfold get_basename.
  replace (dir +:+ "/" +:+ name) with ((dir +:+ "/") +:+ name) by (by rewrite append_assoc).
  rewrite (endswith_char_app _ _ _ Hne), (endswith_char_no_char _ _ Hn). simpl.
  unfold os_path_basename. by rewrite append_assoc, rsplit_sep_app.
Qed.

(** X16. [get_basename] gives the last component of a path, with or
    without one separator at its end: a directory written [dir/name/] and
    a file written [dir/name] have the same basename [name], a bare [name]
    or [name/] as well, and the basename never holds a separator. *)
Theorem get_basename_last_component (f dir name : string) :
  no_char "/" name = true ->
  no_char "/" (get_basename f) = true
  /\ get_basename name = name
  /\ get_basename (name +:+ "/") = name
  /\ get_basename (dir +:+ "/" +:+ name +:+ "/") = name
  /\ (name <> "" -> get_basename (dir +:+ "/" +:+ name) = name).
Proof.
  intros Hn. split_and!.
  - unfold get_basename, os_path_basename.
    destruct (endswith_char f "/" || endswith_char f "/"); apply rsplit_sep_tail.
  - unfold get_basename, os_path_basename.
    rewrite (endswith_char_no_char _ _ Hn). simpl. by rewrite rsplit_sep_no_char.
  - unfold get_basename, os_path_basename.
    rewrite endswith_char_snoc, drop_last_snoc. simpl. by rewrite rsplit_sep_no_char.
  - by apply get_basename_dir.
  - by apply get_basename_file.
Qed.

(** The directory [src/wilder/] and the file [src/wilder]. *)
Lemma get_basename_last_component_witness :
  no_char "/" (get_basename "a/b/c.txt") = true
  /\ get_basename "wilder" = "wilder"
  /\ get_basename ("wilder" +:+ "/") = "wilder"
  /\ get_basename ("src" +:+ "/" +:+ "wilder" +:+ "/") = "wilder"
  /\ ("wilder" <> "" -> get_basename ("src" +:+ "/" +:+ "wilder") = "wilder").
Proof.
  exact (get_basename_last_component "a/b/c.txt" "src" "wilder" eq_refl).
Defined.

(** ** Filtering *)




(** ** The bounds of a capture span *)

Lemma utf8_width_pos (cp : N) : (1 <= utf8_width cp)%nat.
Proof. unfold utf8_width. repeat case_match; lia. Qed.

Lemma list_sum_width_ge (s : ustr) : (length s <= list_sum (map utf8_width s))%nat.
Proof.
  induction s as [|cp s IH]; simpl; [lia|]. pose proof (utf8_width_pos cp). lia.
Qed.

Lemma list_sum_width_ascii (s : ustr) :
  (forall cp, cp ∈ s -> (cp < 0x80)%N) -> list_sum (map utf8_width s) = length s.
Proof.
  induction s as [|cp s IH]; intros Hs; simpl; [done|].
  rewrite IH by (intros; apply Hs; by apply list_elem_of_further).
  unfold utf8_width. rewrite (proj2 (N.ltb_lt _ _) (Hs cp (list_elem_of_here _ _))). done.
Qed.

Lemma byte_offset_mono (s : ustr) (a b : Z) :
  0 <= a <= b -> b <= Z.of_nat (length s) ->
  b - a <= byte_offset s b - byte_offset s a.
Proof.
  intros Hab Hb. unfold byte_offset.
  rewrite <- (take_drop (Z.to_nat a) (take (Z.to_nat b) s)) at 1.
  rewrite take_take, map_app, list_sum_app.
  replace (Z.to_nat a `min` Z.to_nat b)%nat with (Z.to_nat a) by lia.
  pose proof (list_sum_width_ge (drop (Z.to_nat a) (take (Z.to_nat b) s))) as Hge.
  rewrite length_drop, length_take in Hge. lia.
Qed.

Lemma byte_offset_le (s : ustr) (bs : list N) (k : Z) :
  encode_utf8 s = inr bs -> byte_offset s k <= Z.of_nat (length bs).
Proof.
  intros He. rewrite (encode_utf8_length _ _ He). unfold byte_offset.
  rewrite <- (take_drop (Z.to_nat k) s) at 2. rewrite map_app, list_sum_app. lia.
Qed.

Lemma byte_offset_ascii (s : ustr) (k : Z) :
  (forall cp, cp ∈ s -> (cp < 0x80)%N) -> 0 <= k <= Z.of_nat (length s) ->
  byte_offset s k = k.
Proof.
  intros Hs Hk. unfold byte_offset. rewrite list_sum_width_ascii.
  - rewrite length_take. lia.
  - intros cp Hcp. apply Hs. eapply elem_of_sublist; [exact Hcp|apply sublist_take].
Qed.

Lemma group_spans_bounds (m : Match) (s : ustr) (bs : list N) (groups : list nat) :
  encode_utf8 s = inr bs ->
  (forall i, i ∈ groups -> m_start m i <> -1 -> m_end m i <> -1 ->
             0 <= m_start m i <= m_end m i /\ m_end m i <= Z.of_nat (length s)) ->
  (length (omap (group_span m s) groups) <= length groups)%nat
  /\ Forall (fun ab => 0 <= fst ab <= snd ab /\ snd ab < Z.of_nat (length bs))
       (omap (group_span m s) groups)
  /\ ((forall cp, cp ∈ s -> (cp < 0x80)%N) ->
      omap (group_span m s) groups = omap (char_span m) groups).
Proof.
  intros He. induction groups as [|i groups IH]; intros Hwf.
  - simpl. split_and!; [lia|constructor|done].
  - destruct IH as (IH1 & IH2 & IH3).
    { intros j Hj. apply Hwf. by apply list_elem_of_further. }
    destruct ((m_start m i =? -1) || (m_end m i =? -1) || (m_start m i =? m_end m i))
      eqn:Hskip.
    + assert (group_span m s i = None) as Hg by (unfold group_span; by rewrite Hskip).
      assert (char_span m i = None) as Hc by (unfold char_span; by rewrite Hskip).
      cbn [omap list_omap]. rewrite Hg, Hc.
      split_and!; [simpl; lia|done|done].
    + assert (group_span m s i
              = Some (byte_offset s (m_start m i), byte_offset s (m_end m i) - 1)) as Hg
        by (unfold group_span; by rewrite Hskip).
      assert (char_span m i = Some (m_start m i, m_end m i - 1)) as Hc
        by (unfold char_span; by rewrite Hskip).
      cbn [omap list_omap]. rewrite Hg, Hc.
      apply orb_false_iff in Hskip as [[H1 H2]%orb_false_iff H3].
      apply Z.eqb_neq in H1, H2, H3.
      destruct (Hwf i (list_elem_of_here _ _) H1 H2) as [Hse Hlen].
      split_and!.
      * simpl. lia.
      * constructor; [|done]. simpl.
        pose proof (byte_offset_mono s (m_start m i) (m_end m i) Hse Hlen).
        pose proof (byte_offset_le s bs (m_end m i) He).
        unfold byte_offset in *. lia.
      * intros Hs. rewrite (IH3 Hs), !byte_offset_ascii by (done || lia). done.
Qed.

(** X18. When the pattern matches, the string can be encoded and the
    match object is sound (a group that took part starts and ends inside
    the string, in that order), [extract_captures] returns at most one
    span per group, and each span is a range of bytes of the encoded
    string that is not empty: [0 <= first <= last < len(bytes)]. For a
    string of ASCII characters the spans are the character spans of the
    groups, end inclusive. *)
Theorem extract_captures_bounds (env : Env) (pattern string : ustr) (name : String.string)
    (m : Match) (n : nat) (bs : list N) :
  module_match env name pattern string = inr (Some m) ->
  lastindex m = Some n ->
  encode_utf8 string = inr bs ->
  (forall i : nat, (1 <= i <= n)%nat -> m_start m i <> -1 -> m_end m i <> -1 ->
                   0 <= m_start m i <= m_end m i
                   /\ m_end m i <= Z.of_nat (length string)) ->
  exists spans,
    extract_captures env pattern string (Some name) = inr spans
    /\ (length spans <= n)%nat
    /\ Forall (fun ab => 0 <= fst ab <= snd ab /\ snd ab < Z.of_nat (length bs)) spans
    /\ ((forall cp, cp ∈ string -> (cp < 0x80)%N) ->
        spans = omap (char_span m) (seq 1 n)).
Proof.
  intros Hm Hl He Hwf.
  assert (forall i, i ∈ seq 1 n -> m_start m i <> -1 -> m_end m i <> -1 ->
                    0 <= m_start m i <= m_end m i
                    /\ m_end m i <= Z.of_nat (length string)) as Hwf'.
  { intros i Hi. apply Hwf. apply list_elem_of_In, in_seq in Hi. lia. }
  destruct (group_spans_bounds m string bs (seq 1 n) He Hwf') as (H1 & H2 & H3).
  exists (omap (group_span m string) (seq 1 n)). split_and!; [|by rewrite length_seq in H1|done..].
  unfold extract_captures. rewrite Hm, Hl.
  destruct n as [|n]; [done|].
  rewrite (captures_loop_spec m string bs _ [] He); [done|].
  intros i Hi Hs Hend. by apply Hwf'.
Qed.

(** The two groups of ["(ab)(cd)"] in ["abcdyy"], six bytes long. *)
Lemma extract_captures_bounds_witness :
  exists spans,
    extract_captures bare_env (ustr_of "(ab)(cd)") (ustr_of "abcdyy") (Some "re") = inr spans
    /\ (length spans <= 2)%nat
    /\ Forall (fun ab => 0 <= fst ab <= snd ab /\ snd ab < 6) spans
    /\ ((forall cp, cp ∈ ustr_of "abcdyy" -> (cp < 0x80)%N) -> spans = [(0, 1); (2, 3)]).
Proof.
  refine (extract_captures_bounds bare_env (ustr_of "(ab)(cd)") (ustr_of "abcdyy") "re"
            (MiniRe.match_object
               (MiniRe.mkMstate [(2, (2, 4)); (1, (0, 2))]%nat (Some 2%nat)))
            2%nat (ustr_of "abcdyy") eq_refl eq_refl eq_refl _).
  intros i Hi _ _.
  destruct i as [|[|[|i]]]; [lia|vm_compute; split_and!; discriminate..|lia].
Defined.

(** ** Directories that cannot be listed *)

Lemma steady_ret {A : Type} (a : A) : steady (ret a).
Proof. done. Qed.

Lemma steady_return {A : Type} : steady (@return_ A).
Proof. done. Qed.

Lemma steady_continue {A : Type} : steady (@continue A).
Proof. done. Qed.

Lemma steady_lift {A : Type} (r : exn + A) : steady (lift r).
Proof. by destruct r. Qed.

Lemma steady_event_is_set : steady event_is_set.
Proof. intros o s1 s2 Ho. unfold event_is_set. simpl. by rewrite !Ho. Qed.

Lemma steady_bind {A B : Type} (m : H A) (f : A -> H B) :
  steady m -> (forall a, steady (f a)) -> steady (bind m f).
Proof.
  intros Hm Hf o s1 s2 Ho. unfold bind. specialize (Hm o s1 s2 Ho).
  destruct (m o s1) as [[a1| | |e1] s1'], (m o s2) as [[a2| | |e2] s2'];
    simpl in Hm; simplify_eq; try done.
  by apply Hf.
Qed.

Lemma steady_try_except {A : Type} (body : H A) (catches : exn -> bool) (h : exn -> H A) :
  steady body -> (forall e, steady (h e)) -> steady (try_except body catches h).
Proof.
  intros Hb Hh o s1 s2 Ho. unfold try_except. specialize (Hb o s1 s2 Ho).
  destruct (body o s1) as [[a1| | |e1] s1'], (body o s2) as [[a2| | |e2] s2'];
    simpl in Hb; simplify_eq; try done.
  destruct (catches e2); [by apply Hh|done].
Qed.

Lemma steady_for_fold {A S : Type} (l : list A) (acc : S) (body : A -> S -> H S) :
  (forall a acc, steady (body a acc)) -> steady (for_fold l acc body).
Proof.
  intros Hb. revert acc. induction l as [|a l IH]; intros acc o s1 s2 Ho; simpl; [done|].
  specialize (Hb a acc o s1 s2 Ho).
  destruct (body a acc o s1) as [[a1| | |e1] s1'], (body a acc o s2) as [[a2| | |e2] s2'];
    simpl in Hb; simplify_eq; try done; by apply IH.
Qed.

(** The tactic that walks a block for steadiness. *)
Ltac walk_steady :=
  repeat first
    [ apply steady_event_is_set
    | apply steady_ret
    | apply steady_return
    | apply steady_continue
    | apply steady_lift
    | apply steady_for_fold; intros
    | apply steady_try_except; [|intros]
    | apply steady_bind; [|intros]
    | match goal with
      | |- steady (let _ := _ in _) => progress cbv zeta
      | |- steady (if ?b then _ else _) => destruct b
      | |- steady (let '(_, _) := ?p in _) => destruct p
      | |- steady (match ?p with _ => _ end) => destruct p
      end ].

Lemma steady_completion_directory (env : Env) (expand_arg expand_type : string)
    (has_wildcard : bool) (path_prefix : string) (wildignore_list : list string)
    (directory : string) (res : list string) :
  steady (completion_directory env expand_arg expand_type has_wildcard path_prefix
            wildignore_list directory res).
Proof. unfold completion_directory. walk_steady; unfold completion_entry; walk_steady. Qed.

Lemma for_fold_app {A S : Type} (l1 l2 : list A) (acc : S) (body : A -> S -> H S)
    (o : nat -> bool) (s : hstate) :
  for_fold (l1 ++ l2) acc body o s
  = match for_fold l1 acc body o s with
    | (Val acc', s') => for_fold l2 acc' body o s'
    | (Return_, s') => (Return_, s')
    | (Continue, s') => (Continue, s')
    | (Raise e, s') => (Raise e, s')
    end.
Proof.
  revert acc s. induction l1 as [|a l1 IH]; intros acc s; simpl; [done|].
  destruct (body a acc o s) as [[acc'| | |e] s']; by rewrite ?IH.
Qed.

(** What the handler puts, by the way the loop over the directories
    ends. *)
Lemma file_completion_outcome (env : Env) (o : nat -> bool) (event : Event) (ctx : Ctx)
    (working_directory expand_arg expand_type : string) (has_wildcard : bool)
    (path_prefix : string) (directories : list string) (wildignore_opt : string) :
  o 0%nat = false ->
  emitted (snd (handler_run env o
                  (mkTask event
                     (ReqFileCompletion ctx working_directory expand_arg expand_type
                        has_wildcard path_prefix directories wildignore_opt))))
  = match fst (for_fold directories []
                 (completion_directory env expand_arg expand_type has_wildcard path_prefix
                    (split "," wildignore_opt)) o (mkHstate 1 [] [])) with
    | Val res => [entry2 ctx (str_list (completion_result expand_arg has_wildcard res))]
    | Raise e => [reject ctx "python_get_file_completion: " e]
    | _ => []
    end.
Proof.
  intros Ho. unfold handler_run, run_handler, task_req, get_file_completion_handler.
  unfold bind at 1, event_is_set, hstate0. cbn [polls emitted removals]. rewrite Ho.
  unfold try_except, bind.
  set (s1 := mkHstate 1 [] []).
  set (body := completion_directory env expand_arg expand_type has_wildcard path_prefix
                 (split "," wildignore_opt)).
  assert (preserves emitted (for_fold directories [] body)) as Hsilent.
  { unfold body. apply preserves_for_fold. intros. unfold completion_directory.
    walk_frame. }
  specialize (Hsilent o s1).
  destruct (for_fold directories [] body o s1) as [[res0| | |e] s2];
    simpl in *; by rewrite ?Hsilent.
Qed.

(** X19. A directory of the list that is the empty string, or whose
    listing fails because it does not exist, adds nothing and spoils
    nothing: a completion that is not cancelled puts what it would put
    without that directory in the list. *)
Theorem missing_directory_is_skipped (env : Env) (o : nat -> bool) (event : Event)
    (ctx : Ctx) (working_directory expand_arg expand_type : string) (has_wildcard : bool)
    (path_prefix : string) (ds1 : list string) (d : string) (ds2 : list string)
    (wildignore_opt : string) :
  (forall k, o k = false) ->
  d = ""
  \/ (has_wildcard = false
      /\ exists e, scandir env (fst (os_path_split (os_path_join d expand_arg))) = inl e
                   /\ is_FileNotFoundError e = true) ->
  emitted (snd (handler_run env o
                  (mkTask event
                     (ReqFileCompletion ctx working_directory expand_arg expand_type
                        has_wildcard path_prefix (ds1 ++ d :: ds2) wildignore_opt))))
  = emitted (snd (handler_run env o
                    (mkTask event
                       (ReqFileCompletion ctx working_directory expand_arg expand_type
                          has_wildcard path_prefix (ds1 ++ ds2) wildignore_opt)))).
Proof.
  intros Ho Hd. rewrite !file_completion_outcome by apply Ho.
  set (body := completion_directory env expand_arg expand_type has_wildcard path_prefix
                 (split "," wildignore_opt)).
  assert (fst (for_fold (ds1 ++ d :: ds2) [] body o (mkHstate 1 [] []))
          = fst (for_fold (ds1 ++ ds2) [] body o (mkHstate 1 [] []))) as ->; [|done].
  rewrite !for_fold_app.
  destruct (for_fold ds1 [] body o (mkHstate 1 [] [])) as [[acc| | |e] s']; try done.
  assert (exists s'', body d acc o s' = (Continue, s'')) as [s'' Hskip].
  { unfold body, completion_directory. unfold bind at 1, event_is_set. rewrite Ho.
    destruct Hd as [->|(-> & e & Hscan & Hfnf)]; [simpl; eauto|].
    destruct (String.eqb d ""); [simpl; eauto|].
    destruct (os_path_split (os_path_join d expand_arg)) as [head tail]. simpl in Hscan.
    unfold bind, try_except, lift. rewrite Hscan. simpl. rewrite Hfnf. simpl. eauto. }
  cbn [for_fold]. rewrite Hskip.
  apply steady_for_fold; [|apply Ho]. intros. apply steady_completion_directory.
Qed.

(** With [/nowhere] before [/wd] in the list, the completion is that of
    [/wd] alone. *)
Lemma missing_directory_is_skipped_witness :
  emitted (snd (handler_run wd_env (fun _ => false) (dirs_completion "" ["/nowhere"; "/wd"])))
  = emitted (snd (handler_run wd_env (fun _ => false) (dirs_completion "" ["/wd"]))).
Proof.
  apply (missing_directory_is_skipped wd_env (fun _ => false) 0%nat (mk_ctx 1 0) "/wd" ""
           "file" false "" [] "/nowhere" ["/wd"] "" (fun _ => eq_refl)).
  right. split; [reflexivity|]. eexists. split; reflexivity.
Defined.

(** X20. A directory whose listing fails for any other reason (it
    cannot be read, it is a file) spoils the whole completion: where the
    directories before it alone would have given a result, the handler
    puts a rejection with the failure's message and none of the
    completions found so far. *)
Theorem unreadable_directory_rejects (env : Env) (o : nat -> bool) (event : Event)
    (ctx : Ctx) (working_directory expand_arg expand_type path_prefix : string)
    (ds1 : list string) (d : string) (ds2 : list string) (wildignore_opt : string)
    (e : exn) (res1 : list string) :
  (forall k, o k = false) ->
  d <> "" ->
  scandir env (fst (os_path_split (os_path_join d expand_arg))) = inl e ->
  is_FileNotFoundError e = false ->
  emitted (snd (handler_run env o
                  (mkTask event
                     (ReqFileCompletion ctx working_directory expand_arg expand_type
                        false path_prefix ds1 wildignore_opt))))
  = [entry2 ctx (str_list res1)] ->
  emitted (snd (handler_run env o
                  (mkTask event
                     (ReqFileCompletion ctx working_directory expand_arg expand_type
                        false path_prefix (ds1 ++ d :: ds2) wildignore_opt))))
  = [reject ctx "python_get_file_completion: " e].
Proof.
  intros Ho Hd Hscan Hfnf. rewrite !file_completion_outcome by apply Ho.
  set (body := completion_directory env expand_arg expand_type false path_prefix
                 (split "," wildignore_opt)).
  rewrite for_fold_app.
  destruct (for_fold ds1 [] body o (mkHstate 1 [] [])) as [[acc| | |e1] s']; simpl;
    try done.
  intros _.
  assert (exists s'', body d acc o s' = (Raise e, s'')) as [s'' Hraise].
  { unfold body, completion_directory. unfold bind at 1, event_is_set. rewrite Ho.
    destruct (String.eqb_spec d ""); [done|].
    destruct (os_path_split (os_path_join d expand_arg)) as [head tail]. simpl in Hscan.
    unfold bind, try_except, lift. rewrite Hscan. simpl. rewrite Hfnf. eauto. }
  by rewrite Hraise.
Qed.

(** With [/locked] after [/wd] in the list, the completions of [/wd]
    are lost. *)
Lemma unreadable_directory_rejects_witness :
  emitted (snd (handler_run locked_env (fun _ => false)
                  (dirs_completion "" ["/wd"; "/locked"])))
  = [entry3 (mk_ctx 1 0)
       (PStr "python_get_file_completion: [Errno 13] Permission denied: '/locked'")
       "reject"].
Proof.
  apply (unreadable_directory_rejects locked_env (fun _ => false) 0%nat (mk_ctx 1 0) "/wd" ""
           "file" "" ["/wd"] "/locked" [] ""
           (mkExn OSError "[Errno 13] Permission denied: '/locked'") ["a.txt"; "sub/"]
           (fun _ => eq_refl));
    [discriminate|reflexivity..].
Defined.

(** ** The tests of the file completion *)

Lemma existsb_false_elem {A : Type} (f : A -> bool) (l : list A) :
  existsb f l = false -> forall x, x ∈ l -> f x = false.
Proof.
  intros Hf x Hx. destruct (f x) eqn:Hfx; [|done].
  rewrite <- Hf. symmetry. apply existsb_exists. exists x. by rewrite <- list_elem_of_In.
Qed.

(** The tests, one entry at a time: the entry's text joins the result
    only if the entry passes them all. *)
Lemma completion_entry_passes (env : Env) (expand_type : string) (has_wildcard : bool)
    (path_prefix directory : string) (wildignore_list : list string)
    (show_hidden : bool) (pattern : string) (entry : DirEntry) (res : list string)
    (o : nat -> bool) (s : hstate) (res' : list string) (s' : hstate) :
  completion_entry env expand_type has_wildcard path_prefix directory wildignore_list
    show_hidden pattern entry res o s = (Val res', s') ->
  res' = res
  \/ exists f, res' = res ++ [f]
               /\ passes env expand_type has_wildcard path_prefix directory wildignore_list
                    show_hidden pattern entry f.
Proof.
  unfold completion_entry, passes.
  unfold bind at 1, event_is_set. destruct (o (polls s)); [done|].
  unfold try_except.
  destruct (startswith (name entry) "." && negb show_hidden) eqn:Hhid; [done|].
  assert (startswith (name entry) "." = true -> show_hidden = true) as Hhid'.
  { intros Hdot. rewrite Hdot in Hhid. by destruct show_hidden. }
  unfold bind at 1.
  destruct (String.eqb_spec expand_type "dir") as [Hdir|Hdir].
  - unfold bind at 1, lift.
    destruct (is_dir entry) as [e|[]] eqn:Hisdir; cbn [raise ret negb];
      [destruct (is_OSError e); [intros [= <- _]; by left|done]| |done].
    destruct (existsb (fnmatch env (name entry)) wildignore_list) eqn:Hign; [done|].
    destruct (negb has_wildcard && negb (String.eqb pattern "")
              && negb (fnmatch env (name entry) pattern)) eqn:Hpat; [done|].
    unfold bind at 1.
    destruct (String.eqb_spec expand_type "shellcmd") as [Hcmd|Hcmd];
      [by rewrite Hdir in Hcmd|].
    cbn [ret].
    destruct (has_wildcard && Path_eq env entry path_prefix) eqn:Hpre; [done|].
    unfold bind. cbn [ret]. intros [= <- _]. right.
    eexists. split; [reflexivity|]. split_and!; try done.
    + by apply existsb_false_elem.
    + intros -> Hne. simpl in Hpat. destruct (String.eqb_spec pattern ""); [done|].
      simpl in Hpat. by apply negb_false_iff in Hpat.
    + intros ->. exact Hpre.
    + by left.
  - cbn [ret].
    destruct (existsb (fnmatch env (name entry)) wildignore_list) eqn:Hign; [done|].
    destruct (negb has_wildcard && negb (String.eqb pattern "")
              && negb (fnmatch env (name entry) pattern)) eqn:Hpat; [done|].
    assert (has_wildcard = false -> pattern <> "" ->
            fnmatch env (name entry) pattern = true) as Hpat'.
    { intros -> Hne. simpl in Hpat. destruct (String.eqb_spec pattern ""); [done|].
      simpl in Hpat. by apply negb_false_iff in Hpat. }
    unfold bind at 1.
    destruct (String.eqb_spec expand_type "shellcmd") as [Hcmd|Hcmd].
    + unfold bind at 1, lift.
      destruct (is_file entry) as [e|isf] eqn:Hisfile; cbn [raise ret];
        [destruct (is_OSError e); [intros [= <- _]; by left|done]|].
      destruct (negb isf || negb (access_X_OK env (os_path_join directory (name entry))))
        eqn:Hx; [done|].
      apply orb_false_iff in Hx as [Hf%negb_false_iff Hacc%negb_false_iff]. subst isf.
      destruct (has_wildcard && Path_eq env entry path_prefix) eqn:Hpre; [done|].
      unfold bind, lift.
      destruct (is_dir entry) as [e|[]] eqn:Hisdir; cbn [raise ret];
        [destruct (is_OSError e); [intros [= <- _]; by left|done]|..];
        intros [= <- _]; right; (eexists; split; [reflexivity|]);
        split_and!;
        first [done|by apply existsb_false_elem|by left|by right|intros ->; exact Hpre].
    + cbn [ret].
      destruct (has_wildcard && Path_eq env entry path_prefix) eqn:Hpre; [done|].
      unfold bind, lift.
      destruct (is_dir entry) as [e|[]] eqn:Hisdir; cbn [raise ret];
        [destruct (is_OSError e); [intros [= <- _]; by left|done]|..];
        intros [= <- _]; right; (eexists; split; [reflexivity|]);
        split_and!;
        first [done|by apply existsb_false_elem|by left|by right|intros ->; exact Hpre].
Qed.

Lemma completion_directory_completed (env : Env) (expand_arg expand_type : string)
    (has_wildcard : bool) (path_prefix wildignore_opt : string) (directories : list string)
    (directory : string) (res : list string) (o : nat -> bool) (s : hstate)
    (res' : list string) (s' : hstate) :
  directory ∈ directories ->
  (forall f, f ∈ res ->
     completed env expand_type has_wildcard path_prefix wildignore_opt directories
       expand_arg f) ->
  completion_directory env expand_arg expand_type has_wildcard path_prefix
    (split "," wildignore_opt) directory res o s = (Val res', s') ->
  forall f, f ∈ res' ->
    completed env expand_type has_wildcard path_prefix wildignore_opt directories
      expand_arg f.
Proof.
  intros Hd HP. unfold completion_directory, bind at 1, event_is_set.
  destruct (o (polls s)); [done|].
  destruct (String.eqb_spec directory "") as [|Hne]; [done|].
  set (P := fun r : list string =>
              forall f, f ∈ r ->
                completed env expand_type has_wildcard path_prefix wildignore_opt
                  directories expand_arg f).
  assert (forall show_hidden pattern it o1 s1,
             (forall e, e ∈ it -> e ∈ listing env has_wildcard directory expand_arg) ->
             show_hidden = startswith (typed_tail has_wildcard directory expand_arg) "." ->
             pattern = (if has_wildcard then ""
                        else typed_tail has_wildcard directory expand_arg +:+ "*") ->
             for_fold it res
               (completion_entry env expand_type has_wildcard path_prefix directory
                  (split "," wildignore_opt) show_hidden pattern) o1 s1 = (Val res', s') ->
             P res') as Hloop.
  { intros show_hidden pattern it o1 s1 Hit Hsh Hpat.
    apply (for_fold_inv P); [|exact HP].
    intros entry acc o2 s2 acc' s2' Hin Hacc Hrun f Hf.
    destruct (completion_entry_passes _ _ _ _ _ _ _ _ _ _ _ _ _ _ Hrun)
      as [->|(f' & -> & Hpass)]; [by apply Hacc|].
    apply elem_of_app in Hf as [Hf|Hf%list_elem_of_singleton]; [by apply Hacc|].
    subst f'. exists directory, entry. rewrite <- Hsh, <- Hpat.
    split_and!; [done|done|by apply Hit|done]. }
  unfold bind. destruct has_wildcard.
  - simpl. apply Hloop; done.
  - unfold typed_tail, listing in Hloop. simpl in Hloop.
    destruct (os_path_split (os_path_join directory expand_arg)) as [head tail] eqn:Hsplit.
    simpl in Hloop. unfold try_except, bind, lift.
    destruct (scandir env head) as [e|it]; simpl.
    + by destruct (is_FileNotFoundError e).
    + apply Hloop; done.
Qed.

(** What the handler puts on success: the result of the lines after the
    loops, applied to texts of entries that pass every test. *)
Lemma file_completion_completed (env : Env) (o : nat -> bool) (event : Event) (ctx : Ctx)
    (working_directory expand_arg expand_type : string) (has_wildcard : bool)
    (path_prefix : string) (directories : list string) (wildignore_opt : string)
    (res : list string) :
  entry2 ctx (str_list res)
    ∈ emitted (snd (handler_run env o
                      (mkTask event
                         (ReqFileCompletion ctx working_directory expand_arg expand_type
                            has_wildcard path_prefix directories wildignore_opt)))) ->
  exists res0,
    res = completion_result expand_arg has_wildcard res0
    /\ forall f, f ∈ res0 ->
         completed env expand_type has_wildcard path_prefix wildignore_opt directories
           expand_arg f.
Proof.
  unfold handler_run, run_handler, task_req, get_file_completion_handler.
  unfold bind at 1, event_is_set, hstate0. cbn [polls emitted removals].
  destruct (o 0%nat).
  { simpl. by intros ?%elem_of_nil. }
  unfold try_except, bind.
  set (s1 := mkHstate 1 [] []).
  set (body := completion_directory env expand_arg expand_type has_wildcard path_prefix
                 (split "," wildignore_opt)).
  assert (preserves emitted (for_fold directories [] body)) as Hsilent.
  { unfold body. apply preserves_for_fold. intros. unfold completion_directory.
    walk_frame. }
  specialize (Hsilent o s1).
  destruct (for_fold directories [] body o s1) as [[res0| | |e] s2] eqn:Hrun;
    simpl in *; rewrite ?Hsilent; simpl.
  - intros [= Heq%map_PStr_inj]%list_elem_of_singleton.
    exists res0. split; [done|].
    eapply (for_fold_inv
              (fun r => forall f, f ∈ r ->
                          completed env expand_type has_wildcard path_prefix wildignore_opt
                            directories expand_arg f)
              directories body); [| |exact Hrun].
    + intros d acc o1 s3 acc' s3' Hd Hacc Hstep.
      by eapply completion_directory_completed.
    + by intros ? ?%elem_of_nil.
  - by intros ?%elem_of_nil.
  - by intros ?%elem_of_nil.
  - by intros [=]%list_elem_of_singleton.
Qed.

(** X21. Every candidate of a file completion is a navigation entry
    ([./], [../]) or comes from an entry, listed for a directory of the
    list that is not the empty string, that passes all the tests of the
    handler: it is not hidden unless the typed prefix starts with a dot;
    it is a directory when directories are completed; its name matches no
    [wildignore] pattern; without a wildcard its name matches the typed
    prefix followed by [*]; it is an executable file when shell commands
    are completed; with a wildcard it is not the path prefix itself. A
    directory is written with a separator at its end, anything else
    without one. *)
Theorem file_completion_filters (env : Env) (o : nat -> bool) (event : Event) (ctx : Ctx)
    (working_directory expand_arg expand_type : string) (has_wildcard : bool)
    (path_prefix : string) (directories : list string) (wildignore_opt : string)
    (res : list string) :
  entry2 ctx (str_list res)
    ∈ emitted (snd (handler_run env o
                      (mkTask event
                         (ReqFileCompletion ctx working_directory expand_arg expand_type
                            has_wildcard path_prefix directories wildignore_opt)))) ->
  forall c, c ∈ res ->
    c = "./" \/ c = "../"
    \/ exists f, completed env expand_type has_wildcard path_prefix wildignore_opt
                   directories expand_arg f
                 /\ c = with_head has_wildcard expand_arg f.
Proof.
  intros Hin c Hc.
  destruct (file_completion_completed _ _ _ _ _ _ _ _ _ _ _ _ Hin) as (res0 & -> & Hvis).
  destruct (completion_result_elem _ _ _ _ Hc) as [?|[?|(f & Hf & ->)]]; eauto 6.
Qed.

(** With nothing typed in [/wd], each candidate comes from an entry
    that passes the tests. *)
Lemma file_completion_filters_witness :
  entry2 (mk_ctx 1 0) (str_list ["a.txt"; "sub/"])
    ∈ emitted (snd (handler_run wd_env (fun _ => false) (wd_completion "" "file")))
  /\ forall c, c ∈ ["a.txt"; "sub/"] ->
       c = "./" \/ c = "../"
       \/ exists f, completed wd_env "file" false "" "" ["/wd"] "" f
                    /\ c = with_head false "" f.
Proof.
  assert (entry2 (mk_ctx 1 0) (str_list ["a.txt"; "sub/"])
            ∈ emitted (snd (handler_run wd_env (fun _ => false) (wd_completion "" "file"))))
    as Hin.
  { vm_compute. apply list_elem_of_here. }
  split; [exact Hin|].
  exact (file_completion_filters wd_env (fun _ => false) 0%nat (mk_ctx 1 0)
           "/wd" "" "file" false "" ["/wd"] "" ["a.txt"; "sub/"] Hin).
Defined.

Lemma endswith_sep_join (head f : string) :
  endswith_char (os_path_join head (f +:+ sep)) "/" = true.
Proof.
  assert (endswith_char (f +:+ sep) "/" = true) as Hf by apply endswith_char_snoc.
  assert (f +:+ sep <> "") as Hne by (by destruct f).
  unfold os_path_join.
  destruct (startswith (f +:+ sep) "/"); [done|].
  destruct (String.eqb head "" || endswith_char head "/").
  - by rewrite endswith_char_app.
  - rewrite endswith_char_app; [by rewrite endswith_char_app|]. by destruct f.
Qed.

(** X22. When directories are completed without a wildcard, every
    candidate ends with a separator, the navigation entries included.  *)
Theorem dir_completion_ends_with_sep (env : Env) (o : nat -> bool) (event : Event)
    (ctx : Ctx) (working_directory expand_arg path_prefix : string)
    (directories : list string) (wildignore_opt : string) (res : list string) :
  entry2 ctx (str_list res)
    ∈ emitted (snd (handler_run env o
                      (mkTask event
                         (ReqFileCompletion ctx working_directory expand_arg "dir"
                            false path_prefix directories wildignore_opt)))) ->
  forall c, c ∈ res -> endswith_char c "/" = true.
Proof.
  intros Hin c Hc.
  destruct (file_completion_completed _ _ _ _ _ _ _ _ _ _ _ _ Hin) as (res0 & -> & Hvis).
  destruct (completion_result_elem _ _ _ _ Hc) as [->|[->|(f & Hf & ->)]]; [done..|].
  destruct (Hvis f Hf) as (directory & entry & _ & _ & _ & Hpass).
  destruct Hpass as (_ & Hdir & _ & _ & _ & _ & [[_ ->]|[Hfile _]]).
  - unfold with_head.
    destruct (negb false && negb (String.eqb (os_path_dirname expand_arg) ""));
      [apply endswith_sep_join|apply endswith_char_snoc].
  - rewrite (Hdir eq_refl) in Hfile. done.
Qed.

(** The directories of [/wd]. *)
Lemma dir_completion_ends_with_sep_witness :
  entry2 (mk_ctx 1 0) (str_list ["sub/"])
    ∈ emitted (snd (handler_run wd_env (fun _ => false) wd_dirs))
  /\ forall c, c ∈ ["sub/"] -> endswith_char c "/" = true.
Proof.
  assert (entry2 (mk_ctx 1 0) (str_list ["sub/"])
            ∈ emitted (snd (handler_run wd_env (fun _ => false) wd_dirs))) as Hin.
  { vm_compute. apply list_elem_of_here. }
  split; [exact Hin|].
  exact (dir_completion_ends_with_sep wd_env (fun _ => false) 0%nat (mk_ctx 1 0)
           "/wd" "" "" ["/wd"] "" ["sub/"] Hin).
Defined.

(** ** The directories of a file completion *)

Lemma split_not_nil (c : ascii) (s : string) : split c s <> [].
Proof.
  induction s as [|a s IH]; simpl; [done|].
  destruct (Ascii.eqb a c); [done|]. by destruct (split c s).
Qed.

(** Splitting loses nothing: joining the parts with the separator gives
    the string back. *)
Lemma split_concat (c : ascii) (s : string) : String.concat (String c "") (split c s) = s.
Proof.
  induction s as [|a s IH]; [done|]. cbn [split].
  pose proof (split_not_nil c s) as Hne.
  destruct (Ascii.eqb_spec a c) as [->|Hac].
  - destruct (split c s) as [|w ws]; [done|].
    change (String.concat (String c "") ("" :: w :: ws))
      with (String c (String.concat (String c "") (w :: ws))).
    by rewrite IH.
  - destruct (split c s) as [|w ws]; [done|].
    rewrite <- IH. by destruct ws.
Qed.

Lemma split_no_char (c : ascii) (s : string) :
  Forall (fun part => no_char c part = true) (split c s).
Proof.
  induction s as [|a s IH]; cbn [split]; [by repeat constructor|].
  destruct (Ascii.eqb a c) eqn:Hac; [by constructor|].
  pose proof (split_not_nil c s) as Hne.
  destruct (split c s) as [|w ws]; [done|].
  inversion IH; subst. constructor; [|done]. simpl. by rewrite Hac.
Qed.

(** X23. The directories a file completion looks into. For
    [file_in_path] they are the items of the [path] option, cut at the
    commas; for [shellcmd] the items of [PATH], cut at the colons; for
    any other type the working directory alone. Cutting loses nothing (an
    empty item gives an empty directory name), and the [wildignore]
    option is passed along. When [PATH] is not set, a [shellcmd]
    completion raises before anything is submitted: the plugin is left as
    it was, with the pending request not cancelled. *)
Theorem completion_directories (env : Env) (w : Runtime) (ctx : Ctx)
    (working_directory expand_arg expand_type : string) (has_wildcard : bool)
    (path_prefix : string) :
  let call := get_file_completion env w ctx working_directory expand_arg expand_type
                has_wildcard path_prefix in
  let submitted directories :=
    run_in_background w
      (ReqFileCompletion ctx working_directory expand_arg expand_type has_wildcard
         path_prefix directories (option_wildignore env)) in
  (expand_type = "file_in_path" ->
     exists directories,
       call = submitted directories
       /\ String.concat "," directories = option_path env
       /\ Forall (fun d => no_char "," d = true) directories)
  /\ (expand_type = "shellcmd" ->
      forall path, environ_PATH env = inr path ->
        exists directories,
          call = submitted directories
          /\ String.concat ":" directories = path
          /\ Forall (fun d => no_char ":" d = true) directories)
  /\ (expand_type = "shellcmd" ->
      forall e, environ_PATH env = inl e -> call = (w, Some e))
  /\ (expand_type <> "file_in_path" -> expand_type <> "shellcmd" ->
      call = submitted [working_directory]).
Proof.
  intros call submitted. unfold call, submitted, get_file_completion. split_and!.
  - intros ->. exists (split "," (option_path env)). simpl.
    split_and!; [done|apply split_concat|apply split_no_char].
  - intros -> path Hpath. exists (split ":" path). simpl. rewrite Hpath.
    split_and!; [done|apply split_concat|apply split_no_char].
  - intros -> e He. simpl. by rewrite He.
  - intros H1 H2.
    destruct (String.eqb_spec expand_type "file_in_path"); [done|].
    by destruct (String.eqb_spec expand_type "shellcmd").
Qed.

(** ** The memory of the consumer *)

Lemma deliver_host_calls (w : Runtime) (e : QueueEntry) :
  host_calls (deliver w e) = host_calls w ++ [delivery e]
  /\ queue (self (deliver w e)) = queue (self w).
Proof. unfold deliver, delivery, handle. by destruct (qe_command e). Qed.

(** X24. The consumer compares only the tuples it finds together when
    it wakes up, and keeps no record of what it has delivered. Two tuples
    found together give one call, for the newer of the two (the first, if
    neither is newer); the same two tuples found one after the other give
    two calls, in the order of their arrival, even when the second is the
    older one. *)
Theorem consumer_keeps_no_history (w : Runtime) (e1 e2 : QueueEntry) :
  (exists w',
     consumer_cycle (with_queue w [e1; e2]) = Some w'
     /\ host_calls w'
        = host_calls w ++ [delivery (if newer (qe_ctx e2) (qe_ctx e1) then e2 else e1)])
  /\ (exists w1 w2,
        consumer_cycle (with_queue w [e1]) = Some w1
        /\ queue (self w1) = []
        /\ consumer_cycle (with_queue w1 [e2]) = Some w2
        /\ queue (self w2) = []
        /\ host_calls w2 = host_calls w ++ [delivery e1; delivery e2]).
Proof.
  split.
  - eexists. split; [reflexivity|].
    rewrite (proj1 (deliver_host_calls _ _)). simpl.
    by destruct (newer (qe_ctx e2) (qe_ctx e1)).
  - eexists _, _. split_and!; [reflexivity| |reflexivity| |].
    + by rewrite (proj2 (deliver_host_calls _ _)).
    + by rewrite (proj2 (deliver_host_calls _ _)).
    + rewrite (proj1 (deliver_host_calls _ _)). simpl.
      rewrite (proj1 (deliver_host_calls _ _)). simpl. by rewrite <- app_assoc.
Qed.

(** ** Strings that cannot be encoded *)

Lemma utf8_encode_cp_error (cp : N) (e : exn) :
  utf8_encode_cp cp = inl e -> exn_cls e = ValueError.
Proof. unfold utf8_encode_cp. repeat case_match; by intros [= <-]. Qed.

Lemma utf8_encode_cp_surrogate (cp : N) :
  (0xD800 <= cp <= 0xDFFF)%N -> exists e, utf8_encode_cp cp = inl e.
Proof.
  intros Hcp. unfold utf8_encode_cp.
  rewrite (proj2 (N.ltb_ge cp 0x80)), (proj2 (N.ltb_ge cp 0x800)),
    (proj2 (N.ltb_lt cp 0x10000)), (proj2 (N.leb_le 0xD800 cp)),
    (proj2 (N.leb_le cp 0xDFFF)) by lia.
  simpl. eauto.
Qed.

Lemma utf8_len_surrogate (s : ustr) (cp : N) :
  cp ∈ s -> (0xD800 <= cp <= 0xDFFF)%N ->
  exists e, utf8_len s = inl e /\ exn_cls e = ValueError.
Proof.
  intros Hin Hcp. unfold utf8_len.
  assert (exists e, encode_utf8 s = inl e /\ exn_cls e = ValueError) as (e & -> & He);
    [|eauto].
  induction s as [|c s IH]; [by apply elem_of_nil in Hin|]. simpl.
  destruct (utf8_encode_cp c) as [e|b] eqn:Hc.
  - exists e. split; [done|]. by eapply utf8_encode_cp_error.
  - apply elem_of_cons in Hin as [->|Hin].
    + destruct (utf8_encode_cp_surrogate c Hcp) as [e He]. congruence.
    + destruct (IH Hin) as (e & -> & He). eauto.
Qed.

(** X25. A string that UTF-8 cannot encode makes [extract_captures]
    raise instead of returning spans: when the first group took part in
    the match and is not empty, and a surrogate code point stands before
    the end of that group, the call ends with the encoding error (a
    [ValueError]). *)
Theorem extract_captures_unencodable (env : Env) (pattern string : ustr)
    (name : String.string) (m : Match) (n : nat) (cp : N) :
  module_match env name pattern string = inr (Some m) ->
  lastindex m = Some (S n) ->
  0 <= m_start m 1 < m_end m 1 ->
  cp ∈ take (Z.to_nat (m_end m 1)) string ->
  (0xD800 <= cp <= 0xDFFF)%N ->
  exists e,
    extract_captures env pattern string (Some name) = inl e /\ exn_cls e = ValueError.
Proof.
  intros Hm Hl Hse Hin Hcp. unfold extract_captures. rewrite Hm, Hl.
  cbn [seq captures_loop].
  rewrite (proj2 (Z.eqb_neq (m_start m 1) (-1))), (proj2 (Z.eqb_neq (m_end m 1) (-1))),
    (proj2 (Z.eqb_neq (m_start m 1) (m_end m 1))) by lia.
  cbn [orb].
  rewrite <- (take_drop (Z.to_nat (m_start m 1)) (take (Z.to_nat (m_end m 1)) string))
    in Hin.
  rewrite take_take in Hin.
  replace (Z.to_nat (m_start m 1) `min` Z.to_nat (m_end m 1))%nat
    with (Z.to_nat (m_start m 1)) in Hin by lia.
  apply elem_of_app in Hin as [Hin|Hin].
  - destruct (utf8_len_surrogate _ _ Hin Hcp) as (e & -> & He). eauto.
  - destruct (utf8_len (take (Z.to_nat (m_start m 1)) string)) as [e|k] eqn:Hk.
    + exists e. split; [done|]. unfold utf8_len in Hk.
      destruct (encode_utf8 (take (Z.to_nat (m_start m 1)) string)) as [e'|bs] eqn:He;
        [|done].
      injection Hk as <-. clear -He.
      revert e' He. induction (take (Z.to_nat (m_start m 1)) string) as [|c s IH];
        intros e' He; simpl in He; [done|].
      destruct (utf8_encode_cp c) as [e|b] eqn:Hc.
      * injection He as <-. by eapply utf8_encode_cp_error.
      * destruct (encode_utf8 s) as [e|bs]; [|done]. injection He as <-. by apply IH.
    + destruct (utf8_len_surrogate _ _ Hin Hcp) as (e & -> & He). eauto.
Qed.

(** The pattern ["(.)"] on a string made of one lone surrogate. *)
Lemma extract_captures_unencodable_witness :
  exists e,
    extract_captures bare_env (ustr_of "(.)") [0xD800%N] (Some "re") = inl e
    /\ exn_cls e = ValueError.
Proof.
  refine (extract_captures_unencodable bare_env (ustr_of "(.)") [0xD800%N] "re"
            (MiniRe.match_object (MiniRe.mkMstate [(1, (0, 1))]%nat (Some 1%nat)))
            0%nat 0xD800%N eq_refl eq_refl _ _ _).
  - vm_compute. split; [discriminate|reflexivity].
  - apply list_elem_of_here.
  - lia.
Defined.

(** ** The candidates of a file completion, exactly *)

Lemma for_fold_flat {A : Type} (g : A -> list string) (l : list A)
    (body : A -> list string -> H (list string)) :
  (forall a acc o s acc' s', a ∈ l -> body a acc o s = (Val acc', s') -> acc' = acc ++ g a) ->
  (forall a acc o s s', a ∈ l -> body a acc o s = (Continue, s') -> g a = []) ->
  forall acc o s acc' s',
    for_fold l acc body o s = (Val acc', s') -> acc' = acc ++ concat (map g l).
Proof.
  induction l as [|a l IH]; intros Hv Hc acc o s acc' s'; simpl.
  - intros [= <- _]. by rewrite app_nil_r.
  - assert (forall a0 acc0 o0 s0 acc0' s0', a0 ∈ l ->
              body a0 acc0 o0 s0 = (Val acc0', s0') -> acc0' = acc0 ++ g a0) as Hv'.
    { intros a0 ? ? ? ? ? Hin. apply Hv. by apply list_elem_of_further. }
    assert (forall a0 acc0 o0 s0 s0', a0 ∈ l ->
              body a0 acc0 o0 s0 = (Continue, s0') -> g a0 = []) as Hc'.
    { intros a0 ? ? ? ? Hin. apply Hc. by apply list_elem_of_further. }
    destruct (body a acc o s) as [[acc1| | |e] s1] eqn:Hrun; try done.
    + intros Hrest. rewrite (IH Hv' Hc' _ _ _ _ _ Hrest).
      rewrite (Hv _ _ _ _ _ _ (list_elem_of_here _ _) Hrun). by rewrite app_assoc.
    + intros Hrest. rewrite (IH Hv' Hc' _ _ _ _ _ Hrest).
      by rewrite (Hc _ _ _ _ _ (list_elem_of_here _ _) Hrun).
Qed.

Lemma concat_map_if {A B : Type} (f : A -> bool) (g : A -> B) (l : list A) :
  concat (map (fun a => if f a then [g a] else []) l) = map g (List.filter f l).
Proof.
  induction l as [|a l IH]; simpl; [done|]. rewrite IH. by destruct (f a).
Qed.

(** One entry, exactly: its text joins the result iff it passes the
    hidden rule and the other tests. *)
Lemma completion_entry_exact (env : Env) (expand_type : string) (has_wildcard : bool)
    (path_prefix directory : string) (wildignore_list : list string)
    (show_hidden : bool) (pattern : string) (entry : DirEntry) (res : list string)
    (o : nat -> bool) (s : hstate) :
  let keep := hidden_rule show_hidden entry
              && other_tests env expand_type has_wildcard path_prefix directory
                   wildignore_list pattern entry in
  match completion_entry env expand_type has_wildcard path_prefix directory
          wildignore_list show_hidden pattern entry res o s with
  | (Val res', _) => res' = res ++ (if keep then [entry_text has_wildcard entry] else [])
  | (Continue, _) => keep = false
  | _ => True
  end.
Proof.
  intros keep. unfold keep, hidden_rule, other_tests, entry_text, shown, completion_entry.
  unfold bind at 1, event_is_set. destruct (o (polls s)); [done|].
  unfold try_except, bind, lift, ret, continue, raise.
  destruct (startswith (name entry) "."), show_hidden; simpl; try done;
    destruct (String.eqb expand_type "dir"); simpl;
    destruct (is_dir entry) as [e1|[]]; simpl; try destruct (is_OSError e1); simpl;
    rewrite ?app_nil_r; try done;
    destruct (existsb (fnmatch env (name entry)) wildignore_list); simpl; try done;
    destruct has_wildcard; simpl;
    try destruct (String.eqb pattern ""); simpl;
    try destruct (fnmatch env (name entry) pattern); simpl; try done;
    destruct (String.eqb expand_type "shellcmd"); simpl;
    try (destruct (is_file entry) as [e2|[]]; simpl; try destruct (is_OSError e2); simpl);
    try destruct (access_X_OK env (os_path_join directory (name entry))); simpl;
    try destruct (Path_eq env entry path_prefix); simpl;
    rewrite ?app_nil_r; try done; by destruct (is_OSError _).
Qed.

Lemma completion_entries_exact (env : Env) (expand_type : string) (has_wildcard : bool)
    (path_prefix directory : string) (wildignore_list : list string)
    (show_hidden : bool) (pattern : string) (it : list DirEntry) (res : list string)
    (o : nat -> bool) (s : hstate) :
  match for_fold it res
          (completion_entry env expand_type has_wildcard path_prefix directory
             wildignore_list show_hidden pattern) o s with
  | (Val res', _) =>
      res' = res ++ map (entry_text has_wildcard)
                      (List.filter
                         (fun entry =>
                            hidden_rule show_hidden entry
                            && other_tests env expand_type has_wildcard path_prefix
                                 directory wildignore_list pattern entry) it)
  | (Continue, _) => False
  | _ => True
  end.
Proof.
  destruct (for_fold it res _ o s) as [[res'| | |e] s'] eqn:Hrun; [|done| |done].
  - rewrite <- concat_map_if.
    revert Hrun. apply for_fold_flat.
    + intros entry acc o1 s1 acc' s1' _ Heq.
      pose proof (completion_entry_exact env expand_type has_wildcard path_prefix directory
                    wildignore_list show_hidden pattern entry acc o1 s1) as Hex.
      by rewrite Heq in Hex.
    + intros entry acc o1 s1 s1' _ Heq.
      pose proof (completion_entry_exact env expand_type has_wildcard path_prefix directory
                    wildignore_list show_hidden pattern entry acc o1 s1) as Hex.
      rewrite Heq in Hex. cbv zeta in Hex. by rewrite Hex.
  - eapply (loop_free_for_fold it res). by rewrite Hrun.
Qed.

Lemma completion_directory_exact (env : Env) (expand_arg expand_type : string)
    (has_wildcard : bool) (path_prefix : string) (wildignore_list : list string)
    (directory : string) (res : list string) (o : nat -> bool) (s : hstate) :
  match completion_directory env expand_arg expand_type has_wildcard path_prefix
          wildignore_list directory res o s with
  | (Val res', _) =>
      res' = res ++ directory_candidates env expand_arg expand_type has_wildcard
                      path_prefix wildignore_list directory
  | (Continue, _) =>
      directory_candidates env expand_arg expand_type has_wildcard path_prefix
        wildignore_list directory = []
  | _ => True
  end.
Proof.
  unfold completion_directory, directory_candidates.
  unfold bind at 1, event_is_set. destruct (o (polls s)); [done|].
  destruct (String.eqb directory ""); [done|].
  unfold bind. destruct has_wildcard.
  - cbn [ret]. unfold typed_tail, listing.
    match goal with |- context [for_fold ?it res ?body o ?s1] =>
      pose proof (completion_entries_exact env expand_type true path_prefix directory
                    wildignore_list (startswith (os_path_basename expand_arg) ".") ""
                    it res o s1) as Hex;
      destruct (for_fold it res body o s1) as [[res'| | |e] s'] end; done.
  - unfold typed_tail, listing.
    destruct (os_path_split (os_path_join directory expand_arg)) as [head tail]. simpl.
    unfold try_except, bind, lift.
    destruct (scandir env head) as [e|it]; simpl.
    + by destruct (is_FileNotFoundError e).
    + match goal with |- context [for_fold it res ?body o ?s1] =>
        pose proof (completion_entries_exact env expand_type false path_prefix directory
                      wildignore_list (startswith tail ".") (tail +:+ "*")
                      it res o s1) as Hex;
        destruct (for_fold it res body o s1) as [[res'| | |e] s'] end; done.
Qed.

Lemma completion_result_shape (expand_arg : string) (has_wildcard : bool)
    (res : list string) :
  completion_result expand_arg has_wildcard res
  = navigation expand_arg ++ map (with_head has_wildcard expand_arg) (sorted res).
Proof.
  unfold completion_result, navigation, insert0.
  assert ((if negb has_wildcard
           then map (fun f => if negb (String.eqb (os_path_dirname expand_arg) "")
                              then os_path_join (os_path_dirname expand_arg) f else f)
                  (sorted res)
           else sorted res)
          = map (with_head has_wildcard expand_arg) (sorted res)) as ->.
  { unfold with_head. destruct has_wildcard; simpl; [by rewrite map_id|done]. }
  by destruct (String.eqb expand_arg "."), (String.eqb expand_arg "..").
Qed.

(** What the handler puts on success, exactly. *)
Lemma file_completion_exact (env : Env) (o : nat -> bool) (event : Event) (ctx : Ctx)
    (working_directory expand_arg expand_type : string) (has_wildcard : bool)
    (path_prefix : string) (directories : list string) (wildignore_opt : string)
    (res : list string) :
  entry2 ctx (str_list res)
    ∈ emitted (snd (handler_run env o
                      (mkTask event
                         (ReqFileCompletion ctx working_directory expand_arg expand_type
                            has_wildcard path_prefix directories wildignore_opt)))) ->
  res = completion_result expand_arg has_wildcard
          (concat (map (directory_candidates env expand_arg expand_type has_wildcard
                          path_prefix (split "," wildignore_opt)) directories)).
Proof.
  unfold handler_run, run_handler, task_req, get_file_completion_handler.
  unfold bind at 1, event_is_set, hstate0. cbn [polls emitted removals].
  destruct (o 0%nat).
  { simpl. by intros ?%elem_of_nil. }
  unfold try_except, bind.
  set (s1 := mkHstate 1 [] []).
  set (body := completion_directory env expand_arg expand_type has_wildcard path_prefix
                 (split "," wildignore_opt)).
  assert (preserves emitted (for_fold directories [] body)) as Hsilent.
  { unfold body. apply preserves_for_fold. intros. unfold completion_directory.
    walk_frame. }
  specialize (Hsilent o s1).
  destruct (for_fold directories [] body o s1) as [[res0| | |e] s2] eqn:Hrun;
    simpl in *; rewrite ?Hsilent; simpl.
  - intros [= Heq%map_PStr_inj]%list_elem_of_singleton. subst res. f_equal.
    refine (for_fold_flat
              (directory_candidates env expand_arg expand_type has_wildcard path_prefix
                 (split "," wildignore_opt)) directories body _ _ [] o s1 res0 s2 Hrun).
    + intros d acc o1 s3 acc' s3' _ Heq.
      pose proof (completion_directory_exact env expand_arg expand_type has_wildcard
                    path_prefix (split "," wildignore_opt) d acc o1 s3) as Hex.
      fold body in Hex. by rewrite Heq in Hex.
    + intros d acc o1 s3 s3' _ Heq.
      pose proof (completion_directory_exact env expand_arg expand_type has_wildcard
                    path_prefix (split "," wildignore_opt) d acc o1 s3) as Hex.
      fold body in Hex. by rewrite Heq in Hex.
  - by intros ?%elem_of_nil.
  - by intros ?%elem_of_nil.
  - by intros [=]%list_elem_of_singleton.
Qed.

(** C7 (amended). An entry whose name starts with a dot is completed
    only when the typed prefix starts with a dot, and it is completed then
    if it passes the other tests, as an entry whose name does not start
    with a dot is. The candidates are sorted, and the navigation entries
    are put in front after sorting: [./] and [../] when ["."] is typed,
    [../] when [".."] is typed. With [a.txt], [.hidden] and [sub/] in the
    directory and ["."] typed, the typed prefix does start with a dot and
    the entries are matched against [.*]: the result is [./], [../],
    [.hidden]. With nothing typed the hidden entry is left out and the
    result is [a.txt], [sub/]. *)
Theorem file_completion_hidden_rule (env : Env) (o : nat -> bool) (event : Event)
    (ctx : Ctx) (working_directory expand_arg expand_type : string) (has_wildcard : bool)
    (path_prefix : string) (directories : list string) (wildignore_opt : string)
    (res : list string) :
  entry2 ctx (str_list res)
    ∈ emitted (snd (handler_run env o
                      (mkTask event
                         (ReqFileCompletion ctx working_directory expand_arg expand_type
                            has_wildcard path_prefix directories wildignore_opt)))) ->
  (forall c, c ∈ res ->
     c = "./" \/ c = "../"
     \/ exists f, visible_entry env has_wildcard directories expand_arg f
                  /\ c = with_head has_wildcard expand_arg f)
  /\ (expand_arg = "." -> exists rest, res = "./" :: "../" :: rest)
  /\ (expand_arg = ".." -> exists rest, res = "../" :: rest)
  /\ emitted (snd (handler_run wd_env (fun _ => false) (wd_completion "." "file")))
     = [entry2 (mk_ctx 1 0) (str_list ["./"; "../"; ".hidden"])]
  /\ emitted (snd (handler_run wd_env (fun _ => false) (wd_completion "" "file")))
     = [entry2 (mk_ctx 1 0) (str_list ["a.txt"; "sub/"])]
  /\ (exists body,
        res = navigation expand_arg ++ map (with_head has_wildcard expand_arg) body
        /\ StronglySorted str_le body
        /\ body ≡ₚ concat (map (directory_candidates env expand_arg expand_type
                                  has_wildcard path_prefix (split "," wildignore_opt))
                             directories))
  /\ (forall directory entry,
        directory ∈ directories -> directory <> "" ->
        entry ∈ listing env has_wildcard directory expand_arg ->
        other_tests env expand_type has_wildcard path_prefix directory
          (split "," wildignore_opt)
          (if has_wildcard then ""
           else typed_tail has_wildcard directory expand_arg +:+ "*") entry = true ->
        (startswith (name entry) "." = true ->
         startswith (typed_tail has_wildcard directory expand_arg) "." = true) ->
        with_head has_wildcard expand_arg (entry_text has_wildcard entry) ∈ res).
Proof.
  intros Hin.
  pose proof (file_completion_exact _ _ _ _ _ _ _ _ _ _ _ _ Hin) as Hexact.
  rewrite completion_result_shape in Hexact.
  destruct (file_completion_emitted _ _ _ _ _ _ _ _ _ _ _ _ Hin) as (res0 & -> & Hvis).
  split_and!; [| | |reflexivity|reflexivity| |].
  - intros c Hc.
    destruct (completion_result_elem _ _ _ _ Hc) as [?|[?|(f & Hf & ->)]]; eauto 6.
  - intros ->. unfold completion_result. simpl. eauto.
  - intros ->. unfold completion_result. simpl. eauto.
  - eexists. split; [exact Hexact|]. split.
    + apply (sorted_by_sorted String.leb String.leb_total string_leb_trans).
    + apply sorted_by_perm.
  - intros directory entry Hd Hne Hentry Hother Hhid.
    rewrite Hexact. apply elem_of_app. right.
    apply list_elem_of_fmap. eexists. split; [reflexivity|].
    unfold sorted. apply sorted_by_elem.
    apply list_elem_of_In, in_concat.
    exists (directory_candidates env expand_arg expand_type has_wildcard path_prefix
              (split "," wildignore_opt) directory).
    split; [apply in_map, list_elem_of_In, Hd|].
    unfold directory_candidates. destruct (String.eqb_spec directory ""); [done|].
    apply in_map, List.filter_In. split; [by apply list_elem_of_In|].
    rewrite Hother, andb_true_r. unfold hidden_rule.
    destruct (startswith (name entry) "."); [by rewrite Hhid|done].
Qed.

(** With nothing typed in [/wd], each candidate comes from an entry that
    the hidden rule lets through. *)
Lemma file_completion_hidden_rule_witness :
  entry2 (mk_ctx 1 0) (str_list ["a.txt"; "sub/"])
    ∈ emitted (snd (handler_run wd_env (fun _ => false) (wd_completion "" "file")))
  /\ forall c, c ∈ ["a.txt"; "sub/"] ->
       c = "./" \/ c = "../"
       \/ exists f, visible_entry wd_env false ["/wd"] "" f /\ c = with_head false "" f.
Proof.
  assert (entry2 (mk_ctx 1 0) (str_list ["a.txt"; "sub/"])
            ∈ emitted (snd (handler_run wd_env (fun _ => false) (wd_completion "" "file"))))
    as Hin.
  { vm_compute. apply list_elem_of_here. }
  split; [exact Hin|].
  exact (proj1 (file_completion_hidden_rule wd_env (fun _ => false) 0%nat (mk_ctx 1 0)
                  "/wd" "" "file" false "" ["/wd"] "" ["a.txt"; "sub/"] Hin)).
Defined.

(** C7, as stated, fails on its own example: with ["."] typed, the result
    holds the hidden entry and neither [a.txt] nor [sub/]; completing
    directories or shell commands only, it holds the navigation entries
    alone. *)
Lemma file_completion_counterexample :
  emitted (snd (handler_run wd_env (fun _ => false) (wd_completion "." "file")))
  = [entry2 (mk_ctx 1 0) (str_list ["./"; "../"; ".hidden"])]
  /\ emitted (snd (handler_run wd_env (fun _ => false) (wd_completion "." "file")))
     <> [entry2 (mk_ctx 1 0) (str_list ["./"; "../"; "a.txt"; "sub/"])]
  /\ emitted (snd (handler_run wd_env (fun _ => false) (wd_completion "." "dir")))
     = [entry2 (mk_ctx 1 0) (str_list ["./"; "../"])]
  /\ emitted (snd (handler_run wd_env (fun _ => false) (wd_completion "." "shellcmd")))
     = [entry2 (mk_ctx 1 0) (str_list ["./"; "../"])].
Proof. split_and!; [reflexivity|discriminate|reflexivity..]. Qed.
